(** * SimpleVector: a shallow embedding of [simple_vector.h]

    The container is a record of two [size_t] counters and an [ArrayPtr]
    that owns a heap block.  Member functions are written in a small
    state-and-error monad over the heap of blocks, one definition per
    C++ function, in the order and with the names of the source. *)

From Stdlib Require Import ZArith Lia.
From stdpp Require Import base option list gmap.

Local Open Scope Z_scope.

(** ** Machine integers *)

(** [size_t] is a 64-bit unsigned integer: arithmetic wraps modulo [2^64]. *)
Definition SIZE_BITS : Z := 64.
Definition size_t_wrap (n : Z) : Z := n mod 2 ^ SIZE_BITS.

(** The largest array a program can hold has [PTRDIFF_MAX] elements. *)
Definition PTRDIFF_MAX : Z := 2 ^ 63 - 1.

(** ** Outcomes of a call *)

Inductive exception : Type :=
  | out_of_range
  | bad_alloc.

(** A call returns, throws, or has undefined behaviour (a failed [assert],
    an access outside a block, a comparison of unrelated pointers). *)
Inductive outcome (A : Type) : Type :=
  | Ok (a : A)
  | Throw (e : exception)
  | Undefined.
Arguments Ok {A} a.
Arguments Throw {A} e.
Arguments Undefined {A}.

(** ** Pointers *)

Abbreviation loc := positive (only parsing).

(** A raw [Type*]: the block it points into ([None] for a pointer obtained
    from the null pointer, which is [Ptr None 0]) and an element offset. *)
Inductive ptr : Type :=
  | Ptr (base : option loc) (off : Z).

Definition ptr_add (p : ptr) (k : Z) : ptr :=
  match p with
  | Ptr base off => Ptr base (off + k)
  end.

(** [q - p]; defined only for two pointers with the same base. *)
Definition ptr_diff (p q : ptr) : option Z :=
  match p, q with
  | Ptr base a, Ptr base' b =>
      if decide (base = base') then Some (b - a) else None
  end.

Section SimpleVector.

Context {T : Type}.
(** [Type{}], the value-initialised element. *)
Variable default_T : T.
(** What a move leaves in the element it moved from. *)
Variable moved_from : T → T.
(** [operator==] and [operator<] of the element type. *)
Variable eq_T : T → T → bool.
Variable lt_T : T → T → bool.
(** Whether the allocator can provide a block of [n] slots. *)
Variable can_alloc : Z → bool.

Abbreviation heap := (gmap loc (list T)) (only parsing).

(** ** The monad of heap computations *)

Definition M (A : Type) : Type := heap → outcome (A * heap).

Definition ret {A} (a : A) : M A := λ h, Ok (a, h).

Definition bind {A B} (m : M A) (k : A → M B) : M B :=
  λ h, match m h with
       | Ok (a, h') => k a h'
       | Throw e => Throw e
       | Undefined => Undefined
       end.

Definition throw {A} (e : exception) : M A := λ _, Throw e.
Definition undefined {A} : M A := λ _, Undefined.

Notation "'let!' x ':=' m 'in' k" := (bind m (λ x, k))
  (at level 10, x pattern, m at level 100, k at level 200, only parsing).
Notation "m ';;;' k" := (bind m (λ _, k))
  (at level 100, k at level 200, right associativity, only parsing).

(** [assert(b)]: violating it is the caller's error. *)
Definition assert (b : bool) : M unit :=
  if b then ret tt else undefined.

Definition lift_option {A} (o : option A) : M A :=
  match o with
  | Some a => ret a
  | None => undefined
  end.

(** ** Memory accesses *)

Definition load (p : ptr) : M T :=
  λ h, match p with
       | Ptr None _ => Undefined
       | Ptr (Some l) off =>
           if off <? 0 then Undefined else
           match h !! l with
           | None => Undefined
           | Some blk =>
               match blk !! Z.to_nat off with
               | None => Undefined
               | Some x => Ok (x, h)
               end
           end
       end.

Definition store (p : ptr) (x : T) : M unit :=
  λ h, match p with
       | Ptr None _ => Undefined
       | Ptr (Some l) off =>
           if off <? 0 then Undefined else
           match h !! l with
           | None => Undefined
           | Some blk =>
               if decide (Z.to_nat off < length blk)%nat
               then Ok (tt, <[l := <[Z.to_nat off := x]> blk]> h)
               else Undefined
           end
       end.

(** ** Reference parameters *)

(** What a parameter of type [const Type&] or [Type&&] is bound to: a slot
    of the heap (an element of this container or of another one), or an
    object of the caller that no block holds (a local or a temporary),
    given by its value. *)
Inductive reference : Type :=
  | ref_object (x : T)
  | ref_slot (p : ptr).

(** Reading the object a reference is bound to. *)
Definition read_reference (r : reference) : M T :=
  match r with
  | ref_object x => ret x
  | ref_slot p => load p
  end.

(** [*dst = std::move(r)]: the slot takes the value of the object and the
    object is left moved-from, as in a step of [std::move]; the result is
    the object afterwards. *)
Definition move_assign_from (dst : ptr) (r : reference) : M reference :=
  match r with
  | ref_object x => store dst x ;;; ret (ref_object (moved_from x))
  | ref_slot p =>
      let! x := load p in
      store dst x ;;;
      store p (moved_from x) ;;;
      ret (ref_slot p)
  end.

(** ** The algorithms of [<algorithm>] the container calls *)

(** [std::distance(first, last)] with [first <= last] required. *)
Definition range_length (first last : ptr) : M nat :=
  let! d := lift_option (ptr_diff first last) in
  if d <? 0 then undefined else ret (Z.to_nat d).

(** [std::fill]: each step assigns [first[0] = value] and advances. *)
Fixpoint fill_n (n : nat) (first : ptr) (value : T) : M unit :=
  match n with
  | O => ret tt
  | S n' => store first value ;;; fill_n n' (ptr_add first 1) value
  end.

Definition std_fill (first last : ptr) (value : T) : M unit :=
  let! n := range_length first last in
  fill_n n first value.

(** [std::generate] with the generator [[]() { return std::move(Type{}); }]. *)
Definition std_generate_default (first last : ptr) : M unit :=
  let! n := range_length first last in
  fill_n n first default_T.

(** [std::copy]: each step assigns [d_first[0] = first[0]] and advances. *)
Fixpoint copy_n (n : nat) (first d_first : ptr) : M ptr :=
  match n with
  | O => ret d_first
  | S n' =>
      let! x := load first in
      store d_first x ;;;
      copy_n n' (ptr_add first 1) (ptr_add d_first 1)
  end.

Definition std_copy (first last d_first : ptr) : M ptr :=
  let! n := range_length first last in
  copy_n n first d_first.

(** [std::move]: each step move-assigns [d_first[0] = std::move(first[0])]
    and advances both pointers. *)
Fixpoint move_n (n : nat) (first d_first : ptr) : M ptr :=
  match n with
  | O => ret d_first
  | S n' =>
      let! x := load first in
      store d_first x ;;;
      store first (moved_from x) ;;;
      move_n n' (ptr_add first 1) (ptr_add d_first 1)
  end.

Definition std_move (first last d_first : ptr) : M ptr :=
  let! n := range_length first last in
  move_n n first d_first.

(** [std::copy_backward]: each step steps both pointers back and assigns
    [d_last[-1] = last[-1]]. *)
Fixpoint copy_backward_n (n : nat) (last d_last : ptr) : M ptr :=
  match n with
  | O => ret d_last
  | S n' =>
      let! x := load (ptr_add last (-1)) in
      store (ptr_add d_last (-1)) x ;;;
      copy_backward_n n' (ptr_add last (-1)) (ptr_add d_last (-1))
  end.

Definition std_copy_backward (first last d_last : ptr) : M ptr :=
  let! n := range_length first last in
  copy_backward_n n last d_last.

(** [std::move_backward]: each step steps both pointers back and
    move-assigns [d_last[-1] = std::move(last[-1])]. *)
Fixpoint move_backward_n (n : nat) (last d_last : ptr) : M ptr :=
  match n with
  | O => ret d_last
  | S n' =>
      let! x := load (ptr_add last (-1)) in
      store (ptr_add d_last (-1)) x ;;;
      store (ptr_add last (-1)) (moved_from x) ;;;
      move_backward_n n' (ptr_add last (-1)) (ptr_add d_last (-1))
  end.

Definition std_move_backward (first last d_last : ptr) : M ptr :=
  let! n := range_length first last in
  move_backward_n n last d_last.

(** [std::copy] out of an [initializer_list], which is not a heap block. *)
Fixpoint copy_init (init : list T) (d_first : ptr) : M ptr :=
  match init with
  | [] => ret d_first
  | x :: init' => store d_first x ;;; copy_init init' (ptr_add d_first 1)
  end.

(** The loop of [std::equal] once both ranges have the same length. *)
Fixpoint equal_n (n : nat) (first1 first2 : ptr) : M bool :=
  match n with
  | O => ret true
  | S n' =>
      let! x := load first1 in
      let! y := load first2 in
      if eq_T x y then equal_n n' (ptr_add first1 1) (ptr_add first2 1)
      else ret false
  end.

Definition std_equal (first1 last1 first2 last2 : ptr) : M bool :=
  let! n1 := range_length first1 last1 in
  let! n2 := range_length first2 last2 in
  if decide (n1 = n2) then equal_n n1 first1 first2 else ret false.

(** [std::lexicographical_compare]: [n1], [n2] elements remain. *)
Fixpoint lexicographical_compare_n (n1 n2 : nat) (first1 first2 : ptr)
  : M bool :=
  match n1, n2 with
  | S n1', S n2' =>
      let! x := load first1 in
      let! y := load first2 in
      if lt_T x y then ret true
      else if lt_T y x then ret false
      else lexicographical_compare_n n1' n2'
             (ptr_add first1 1) (ptr_add first2 1)
  | O, S _ => ret true
  | _, O => ret false
  end.

Definition std_lexicographical_compare (first1 last1 first2 last2 : ptr)
  : M bool :=
  let! n1 := range_length first1 last1 in
  let! n2 := range_length first2 last2 in
  lexicographical_compare_n n1 n2 first1 first2.

(** ** ArrayPtr *)

(** Modelled from the spec: [array_ptr.h], the raw-buffer owner, is not
    among the sources.  The spec gives it these operations: allocate a
    block of N default-valued slots (an allocation that cannot be obtained
    raises the allocation error), exchange the blocks of two owners, hand
    out the raw pointer, and release the block on destruction; a move hands
    the block over and leaves the source without storage.  An owner is the
    raw pointer it holds: a block of the heap, or null. *)
Definition ArrayPtr : Type := option loc.

(** Modelled from the spec: the default-constructed [ArrayPtr] of
    [array_ptr.h] owns no storage. *)
Definition ArrayPtr_default : ArrayPtr := None.

(** Modelled from the spec: [ArrayPtr(size)] of [array_ptr.h] allocates a
    new block of [size] default-valued slots, or raises the allocation
    error when the allocator cannot provide it. *)
Definition ArrayPtr_new (size : Z) : M ArrayPtr :=
  λ h, if can_alloc size
       then let l := fresh (dom h) in
            Ok (Some l, <[l := replicate (Z.to_nat size) default_T]> h)
       else Throw bad_alloc.

(** Modelled from the spec: the destructor of [array_ptr.h] releases the
    block. *)
Definition ArrayPtr_delete (p : ArrayPtr) : M unit :=
  λ h, match p with
       | None => Ok (tt, h)
       | Some l => Ok (tt, delete l h)
       end.

(** Modelled from the spec: [Get()] of [array_ptr.h] hands out the raw
    pointer to the first slot. *)
Definition ArrayPtr_Get (p : ArrayPtr) : ptr := Ptr p 0.

(** Modelled from the spec: [operator[]] of [array_ptr.h], the lvalue
    [p[index]]. *)
Definition ArrayPtr_index (p : ArrayPtr) (index : Z) : ptr :=
  ptr_add (ArrayPtr_Get p) index.

(** Modelled from the spec: [a.swap(b)] of [array_ptr.h] exchanges the
    blocks; the result is the two owners afterwards. *)
Definition ArrayPtr_swap (a b : ArrayPtr) : ArrayPtr * ArrayPtr := (b, a).

(** Modelled from the spec: the move assignment [a = std::move(b)] of
    [array_ptr.h]; [a] gives up its block and takes the block of [b], which
    is left without storage. *)
Definition ArrayPtr_move_assign (a b : ArrayPtr) : M (ArrayPtr * ArrayPtr) :=
  ArrayPtr_delete a ;;; ret (b, ArrayPtr_default).

(** ** ReserveProxyObj *)

Record ReserveProxyObj : Type := mkReserveProxyObj { proxy_size_ : Z }.

Definition ReserveProxyObj_GetSize (obj : ReserveProxyObj) : Z :=
  proxy_size_ obj.

(** The free function [Reserve(capacity_to_reserve)]. *)
Definition Reserve_proxy (capacity_to_reserve : Z) : ReserveProxyObj :=
  mkReserveProxyObj capacity_to_reserve.

(** ** SimpleVector *)

Record SimpleVector : Type := mkSimpleVector {
  size_ : Z;
  capacity_ : Z;
  items_ : ArrayPtr;
}.

Definition set_size_ (n : Z) (this : SimpleVector) : SimpleVector :=
  mkSimpleVector n (capacity_ this) (items_ this).

(** [std::exchange(obj, new_value)]: the old value and the new object. *)
Definition std_exchange {A} (obj new_value : A) : A * A := (obj, new_value).

(** [std::swap]. *)
Definition std_swap {A} (a b : A) : A * A := (b, a).

(** [p <= q] on raw pointers. *)
Definition ptr_le (p q : ptr) : M bool :=
  let! d := lift_option (ptr_diff p q) in
  ret (0 <=? d).

(** [std::distance(p, q)], stored in a [size_t]. *)
Definition std_distance (p q : ptr) : M Z :=
  let! d := lift_option (ptr_diff p q) in
  ret (size_t_wrap d).

Definition GetSize (this : SimpleVector) : Z := size_ this.
Definition GetCapacity (this : SimpleVector) : Z := capacity_ this.
Definition IsEmpty (this : SimpleVector) : bool := size_ this =? 0.

Definition begin (this : SimpleVector) : ptr := ArrayPtr_Get (items_ this).
Definition end_ (this : SimpleVector) : ptr :=
  ptr_add (ArrayPtr_Get (items_ this)) (size_ this).

(** [SimpleVector() noexcept = default]. *)
Definition SimpleVector_default : SimpleVector :=
  mkSimpleVector 0 0 ArrayPtr_default.

(** The implicit destructor: it destroys [items_]. *)
Definition SimpleVector_destroy (this : SimpleVector) : M unit :=
  ArrayPtr_delete (items_ this).

(** [SimpleVector(size_t size, const Type& value)]: a constructor writes
    to the block it has just allocated and to nothing else, so [value]
    holds throughout what it held when the call was made: the parameter
    is given by that value. *)
Definition SimpleVector_fill (size : Z) (value : T) : M SimpleVector :=
  let! items := ArrayPtr_new size in
  std_fill (ArrayPtr_Get items) (ptr_add (ArrayPtr_Get items) size) value ;;;
  ret (mkSimpleVector size size items).

(** [explicit SimpleVector(size_t size)] delegates with [Type{}]. *)
Definition SimpleVector_sized (size : Z) : M SimpleVector :=
  SimpleVector_fill size default_T.

(** [SimpleVector(std::initializer_list<Type> init)]. *)
Definition SimpleVector_init (init : list T) : M SimpleVector :=
  let n := Z.of_nat (length init) in
  let! items := ArrayPtr_new n in
  copy_init init (ArrayPtr_Get items) ;;;
  ret (mkSimpleVector n n items).

Definition Reserve (new_capacity : Z) (this : SimpleVector) : M SimpleVector :=
  if capacity_ this <? new_capacity then
    let! new_items := ArrayPtr_new new_capacity in
    std_move (ArrayPtr_Get (items_ this))
             (ptr_add (ArrayPtr_Get (items_ this)) (size_ this))
             (ArrayPtr_Get new_items) ;;;
    std_generate_default (ptr_add (ArrayPtr_Get new_items) (size_ this))
                         (ptr_add (ArrayPtr_Get new_items) new_capacity) ;;;
    let '(items, new_items) := ArrayPtr_swap (items_ this) new_items in
    ArrayPtr_delete new_items ;;;
    ret (mkSimpleVector (size_ this) new_capacity items)
  else ret this.

(** [SimpleVector(ReserveProxyObj obj)]. *)
Definition SimpleVector_reserved (obj : ReserveProxyObj) : M SimpleVector :=
  let size := ReserveProxyObj_GetSize obj in
  Reserve size SimpleVector_default.

(** [SimpleVector(const SimpleVector& other)]. *)
Definition SimpleVector_copy (other : SimpleVector) : M SimpleVector :=
  let this := SimpleVector_default in
  assert (size_ this =? 0) ;;;
  let! items := ArrayPtr_new (capacity_ other) in
  (if negb (IsEmpty other)
   then std_copy (begin other) (end_ other) (ArrayPtr_Get items) ;;; ret tt
   else ret tt) ;;;
  let '(this_items, items) := ArrayPtr_swap (items_ this) items in
  ArrayPtr_delete items ;;;
  ret (mkSimpleVector (size_ other) (capacity_ other) this_items).

(** [SimpleVector(SimpleVector&& other)]: the new object and what is left
    of [other]. *)
Definition SimpleVector_move (other : SimpleVector)
  : M (SimpleVector * SimpleVector) :=
  let this := SimpleVector_default in
  assert (size_ this =? 0) ;;;
  let '(size, other_size) := std_exchange (size_ other) 0 in
  let '(capacity, other_capacity) := std_exchange (capacity_ other) 0 in
  let! (items, other_items) :=
    ArrayPtr_move_assign (items_ this) (items_ other) in
  ret (mkSimpleVector size capacity items,
       mkSimpleVector other_size other_capacity other_items).

(** [void swap(SimpleVector& other) noexcept]: both objects afterwards.
    (The overload that takes [SimpleVector&&] is called nowhere.) *)
Definition swap (this other : SimpleVector) : SimpleVector * SimpleVector :=
  let '(items, other_items) := ArrayPtr_swap (items_ this) (items_ other) in
  let '(size, other_size) := std_swap (size_ this) (size_ other) in
  let '(capacity, other_capacity) :=
    std_swap (capacity_ this) (capacity_ other) in
  (mkSimpleVector size capacity items,
   mkSimpleVector other_size other_capacity other_items).

(** [operator[]]: the reference it returns. *)
Definition subscript (index : Z) (this : SimpleVector) : M ptr :=
  assert (index <? size_ this) ;;;
  ret (ArrayPtr_index (items_ this) index).

Definition At (index : Z) (this : SimpleVector) : M ptr :=
  if size_ this <=? index then throw out_of_range
  else ret (ArrayPtr_index (items_ this) index).

Definition Clear (this : SimpleVector) : SimpleVector := set_size_ 0 this.

Definition Resize (new_size : Z) (this : SimpleVector) : M SimpleVector :=
  if size_ this =? new_size then ret this
  else
    let! this :=
      if (new_size <=? capacity_ this) && (size_ this <? new_size) then
        std_generate_default
          (ptr_add (ArrayPtr_Get (items_ this)) (size_ this))
          (ptr_add (ArrayPtr_Get (items_ this)) new_size) ;;;
        ret this
      else if capacity_ this <? new_size then
        let new_capacity :=
          Z.max new_size (size_t_wrap (capacity_ this * 2)) in
        Reserve new_capacity this
      else ret this in
    ret (set_size_ new_size this).

(** [void PushBack(const Type& item)]: [item] is read where the source
    reads it, in the full branch after [Reserve] has replaced the block. *)
Definition PushBack (item : reference) (this : SimpleVector)
  : M SimpleVector :=
  if size_ this =? capacity_ this then
    let new_capacity :=
      if size_ this =? 0 then 1 else size_t_wrap (capacity_ this * 2) in
    let! this := Reserve new_capacity this in
    let! x := read_reference item in
    store (ArrayPtr_index (items_ this) (size_ this)) x ;;;
    ret (set_size_ (size_t_wrap (size_ this + 1)) this)
  else
    let! x := read_reference item in
    store (ArrayPtr_index (items_ this) (size_ this)) x ;;;
    ret (set_size_ (size_t_wrap (size_ this + 1)) this).

(** [void PushBack(Type&& item)]: the same steps with a move-assignment
    into the slot; the object [item] is bound to is left moved-from and
    returned beside the container. *)
Definition PushBack_move (item : reference) (this : SimpleVector)
  : M (SimpleVector * reference) :=
  if size_ this =? capacity_ this then
    let new_capacity :=
      if size_ this =? 0 then 1 else size_t_wrap (capacity_ this * 2) in
    let! this := Reserve new_capacity this in
    let! item :=
      move_assign_from (ArrayPtr_index (items_ this) (size_ this)) item in
    ret (set_size_ (size_t_wrap (size_ this + 1)) this, item)
  else
    let! item :=
      move_assign_from (ArrayPtr_index (items_ this) (size_ this)) item in
    ret (set_size_ (size_t_wrap (size_ this + 1)) this, item).

(** The assertion [pos >= items_.Get() && pos <= items_.Get() + size_]. *)
Definition pos_in_range (pos : ptr) (this : SimpleVector) : M bool :=
  let! ge := ptr_le (ArrayPtr_Get (items_ this)) pos in
  let! le := ptr_le pos (ptr_add (ArrayPtr_Get (items_ this)) (size_ this)) in
  ret (ge && le).

(** [Iterator Insert(ConstIterator pos, const Type& value)]: [value] is
    read at the assignment [new_items[index] = value], when only the new
    block has been written and nothing has been released. *)
Definition Insert (pos : ptr) (value : reference) (this : SimpleVector)
  : M (ptr * SimpleVector) :=
  let! ok := pos_in_range pos this in
  assert ok ;;;
  let new_pos := pos in
  let new_capacity :=
    if size_ this =? capacity_ this
    then (if size_ this =? 0 then 1 else size_t_wrap (capacity_ this * 2))
    else capacity_ this in
  let! new_items := ArrayPtr_new new_capacity in
  let! index := std_distance (ArrayPtr_Get (items_ this)) new_pos in
  std_copy (ArrayPtr_Get (items_ this)) new_pos (ArrayPtr_Get new_items) ;;;
  let! x := read_reference value in
  store (ArrayPtr_index new_items index) x ;;;
  std_copy_backward
    new_pos
    (ptr_add (ArrayPtr_Get (items_ this)) (size_ this))
    (ptr_add (ArrayPtr_Get new_items) (size_t_wrap (size_ this + 1))) ;;;
  std_fill (ptr_add (ArrayPtr_Get new_items) (size_t_wrap (size_ this + 1)))
           (ptr_add (ArrayPtr_Get new_items) new_capacity)
           default_T ;;;
  let '(items, new_items) := ArrayPtr_swap (items_ this) new_items in
  ArrayPtr_delete new_items ;;;
  ret (ArrayPtr_index items index,
       mkSimpleVector (size_t_wrap (size_ this + 1)) new_capacity items).

(** [Iterator Insert(ConstIterator pos, Type&& value)]: [value] is moved
    from after [std::move] has moved the elements before [pos] out of the
    old block. *)
Definition Insert_move (pos : ptr) (value : reference) (this : SimpleVector)
  : M (ptr * SimpleVector) :=
  let! ok := pos_in_range pos this in
  assert ok ;;;
  let new_pos := pos in
  let new_capacity :=
    if size_ this =? capacity_ this
    then (if size_ this =? 0 then 1 else size_t_wrap (capacity_ this * 2))
    else capacity_ this in
  let! new_items := ArrayPtr_new new_capacity in
  let! index := std_distance (ArrayPtr_Get (items_ this)) new_pos in
  std_move (ArrayPtr_Get (items_ this)) new_pos (ArrayPtr_Get new_items) ;;;
  move_assign_from (ArrayPtr_index new_items index) value ;;;
  std_move_backward
    new_pos
    (ptr_add (ArrayPtr_Get (items_ this)) (size_ this))
    (ptr_add (ArrayPtr_Get new_items) (size_t_wrap (size_ this + 1))) ;;;
  std_generate_default
    (ptr_add (ArrayPtr_Get new_items) (size_t_wrap (size_ this + 1)))
    (ptr_add (ArrayPtr_Get new_items) new_capacity) ;;;
  let! (items, new_items) :=
    ArrayPtr_move_assign (items_ this) new_items in
  ArrayPtr_delete new_items ;;;
  ret (ArrayPtr_index items index,
       mkSimpleVector (size_t_wrap (size_ this + 1)) new_capacity items).

Definition PopBack (this : SimpleVector) : M SimpleVector :=
  assert (negb (IsEmpty this)) ;;;
  ret (set_size_ (size_t_wrap (size_ this - 1)) this).

Definition Erase (pos : ptr) (this : SimpleVector)
  : M (ptr * SimpleVector) :=
  assert (negb (IsEmpty this)) ;;;
  let! ok := pos_in_range pos this in
  assert ok ;;;
  let new_pos := pos in
  let! index := std_distance (ArrayPtr_Get (items_ this)) new_pos in
  std_move (ptr_add new_pos 1)
           (ptr_add (ArrayPtr_Get (items_ this)) (size_ this))
           new_pos ;;;
  let this := set_size_ (size_t_wrap (size_ this - 1)) this in
  ret (ArrayPtr_index (items_ this) index, this).

(** ** The comparison operators *)

Definition op_eq (lhs rhs : SimpleVector) : M bool :=
  std_equal (begin lhs) (end_ lhs) (begin rhs) (end_ rhs).

Definition op_ne (lhs rhs : SimpleVector) : M bool :=
  let! b := op_eq lhs rhs in ret (negb b).

Definition op_lt (lhs rhs : SimpleVector) : M bool :=
  std_lexicographical_compare (begin lhs) (end_ lhs) (begin rhs) (end_ rhs).

Definition op_le (lhs rhs : SimpleVector) : M bool :=
  let! b := op_lt rhs lhs in ret (negb b).

Definition op_gt (lhs rhs : SimpleVector) : M bool :=
  op_lt rhs lhs.

Definition op_ge (lhs rhs : SimpleVector) : M bool :=
  let! b := op_lt lhs rhs in ret (negb b).

(** ** Assignment, on objects that have an address *)

Abbreviation objects := (gmap positive SimpleVector) (only parsing).

(** [SimpleVector& operator=(const SimpleVector& rhs)]. *)
Definition copy_assign (this rhs : positive) (objs : objects) : M objects :=
  if decide (this ≠ rhs) then
    let! this_v := lift_option (objs !! this) in
    let! rhs_v := lift_option (objs !! rhs) in
    let! copy_vector := SimpleVector_copy rhs_v in
    let '(this_v, copy_vector) := swap this_v copy_vector in
    SimpleVector_destroy copy_vector ;;;
    ret (<[this := this_v]> objs)
  else ret objs.

(** [SimpleVector& operator=(SimpleVector&& rhs)]: inside the body [rhs] is
    an lvalue, so the call is [swap(SimpleVector&)]. *)
Definition move_assign (this rhs : positive) (objs : objects) : M objects :=
  if decide (this ≠ rhs) then
    let! this_v := lift_option (objs !! this) in
    let! rhs_v := lift_option (objs !! rhs) in
    let '(this_v, rhs_v) := swap this_v rhs_v in
    ret (<[rhs := rhs_v]> (<[this := this_v]> objs))
  else ret objs.

(** ** The vocabulary of the statements *)

Implicit Types (h : gmap positive (list T)) (blk src dst : list T).
Implicit Types (l ls ld : positive) (x y : T) (this v : SimpleVector).

(** What [std::move(p + 1, p + 1 + n, p)] makes of a block: the [n] slots
    after [p] move down by one and the last of them is left moved-from. *)
Definition shifted_left (p n : nat) blk : list T :=
  match n with
  | O => blk
  | S _ =>
      take p blk ++ take n (drop (S p) blk)
        ++ (moved_from <$> take 1 (drop (p + n) blk))
        ++ drop (S (p + n)) blk
  end.

(** The block an [ArrayPtr] owns; a null owner has no slot. *)
Definition block_of h (p : ArrayPtr) : option (list T) :=
  match p with
  | None => Some []
  | Some l => h !! l
  end.

Definition update_block h (p : ArrayPtr) blk : gmap positive (list T) :=
  match p with
  | None => h
  | Some l => <[l := blk]> h
  end.

Definition release_block h (p : ArrayPtr) : gmap positive (list T) :=
  match p with
  | None => h
  | Some l => delete l h
  end.

(** All the slots of the storage block, and the present elements. *)
Definition storage h v : list T := default [] (block_of h (items_ v)).
Definition elements h v : list T := take (Z.to_nat (size_ v)) (storage h v).

(** Invariant I1 with what it rests on: the block has [capacity_] slots. *)
Definition wf h v : Prop :=
  0 <= size_ v <= capacity_ v ∧ capacity_ v <= PTRDIFF_MAX ∧
  ∃ blk, block_of h (items_ v) = Some blk ∧
         Z.of_nat (length blk) = capacity_ v.

(** The growth policy in the words of the spec: 1 if the capacity was 0,
    else twice the capacity. *)
Definition grown_capacity (capacity : Z) : Z :=
  if capacity =? 0 then 1 else 2 * capacity.

(** What a call on [v] leaves of the rest of the heap: every other block
    is kept, and the block [v] owns afterwards is its old one or a new one. *)
Definition frame v h v' h' : Prop :=
  (∀ l blk, h !! l = Some blk → items_ v ≠ Some l → h' !! l = Some blk) ∧
  (∀ l, items_ v' = Some l → items_ v = Some l ∨ h !! l = None).

(** The reference is bound to a slot of the block that [v] owns. *)
Definition refers_to_storage (item : reference) v : Prop :=
  ∃ l off, item = ref_slot (Ptr (Some l) off) ∧ items_ v = Some l.

(** One [push_back] call whose argument is an object outside the heap
    that holds the given value: the flag picks the overload taking
    [Type&&]. *)
Definition push_back_call (call : bool * T) (v : SimpleVector)
  : M SimpleVector :=
  if call.1
  then let! (v', _) := PushBack_move (ref_object call.2) v in ret v'
  else PushBack (ref_object call.2) v.

Fixpoint push_back_all (calls : list (bool * T)) (v : SimpleVector)
  : M SimpleVector :=
  match calls with
  | [] => ret v
  | call :: calls' =>
      let! v' := push_back_call call v in push_back_all calls' v'
  end.

(** The capacity sequence of the spec, by the number of appends made to an
    empty container: an append that finds size = capacity grows it. *)
Fixpoint capacity_sequence (n : nat) : Z :=
  match n with
  | O => 0
  | S n' =>
      let c := capacity_sequence n' in
      if Z.of_nat n' =? c then grown_capacity c else c
  end.

(** The capacity [Insert] allocates. *)
Definition insert_capacity v : Z :=
  if size_ v =? capacity_ v then grown_capacity (capacity_ v)
  else capacity_ v.

(** The block [Insert] builds. *)
Definition inserted_block (els : list T) (i : nat) x (capacity : nat)
  : list T :=
  take i els ++ x :: drop i els
    ++ replicate (capacity - length els - 1) default_T.

(** The capacity [Resize] asks for when the new size exceeds the capacity. *)
Definition resize_capacity (new_size : Z) v : Z :=
  Z.max new_size (2 * capacity_ v).

(** Equality and order of element sequences, in the words of the spec:
    same length and pairwise equal elements; lexicographic order by the
    element order. *)
Fixpoint seq_equal (xs ys : list T) : bool :=
  match xs, ys with
  | [], [] => true
  | x :: xs', y :: ys' => eq_T x y && seq_equal xs' ys'
  | _, _ => false
  end.

Fixpoint seq_less (xs ys : list T) : bool :=
  match xs, ys with
  | _, [] => false
  | [], _ :: _ => true
  | x :: xs', y :: ys' =>
      if lt_T x y then true
      else if lt_T y x then false
      else seq_less xs' ys'
  end.

(** [Insert], by copy or by move, of an object outside the heap that
    holds the given value. *)
Definition insert_call (by_move : bool) (pos : ptr) x v
  : M (ptr * SimpleVector) :=
  if by_move then Insert_move pos (ref_object x) v
  else Insert pos (ref_object x) v.

Inductive result : Type :=
  | ret_void
  | ret_size (n : Z)
  | ret_bool (b : bool)
  | ret_ref (p : ptr).

(** A call of a public member function on one container.  Positions are
    given as [begin() + index]; [m_assign] and [m_At_assign] write through
    the reference that [operator[]] and [At] return; the argument of
    [PushBack] and of [Insert] is an object outside the heap that holds
    the given value.  [swap] and the assignment operators, which take a
    second container, are not among these calls. *)
Inductive method : Type :=
  | m_GetSize
  | m_GetCapacity
  | m_IsEmpty
  | m_begin
  | m_end
  | m_subscript (index : Z)
  | m_assign (index : Z) (x : T)
  | m_At (index : Z)
  | m_At_assign (index : Z) (x : T)
  | m_Clear
  | m_Reserve (new_capacity : Z)
  | m_Resize (new_size : Z)
  | m_PushBack (by_move : bool) (x : T)
  | m_Insert (by_move : bool) (index : Z) (x : T)
  | m_PopBack
  | m_Erase (index : Z).

Definition exec (m : method) (v : SimpleVector) : M (result * SimpleVector) :=
  match m with
  | m_GetSize => ret (ret_size (GetSize v), v)
  | m_GetCapacity => ret (ret_size (GetCapacity v), v)
  | m_IsEmpty => ret (ret_bool (IsEmpty v), v)
  | m_begin => ret (ret_ref (begin v), v)
  | m_end => ret (ret_ref (end_ v), v)
  | m_subscript index =>
      let! p := subscript index v in ret (ret_ref p, v)
  | m_assign index x =>
      let! p := subscript index v in store p x ;;; ret (ret_void, v)
  | m_At index =>
      let! p := At index v in ret (ret_ref p, v)
  | m_At_assign index x =>
      let! p := At index v in store p x ;;; ret (ret_void, v)
  | m_Clear => ret (ret_void, Clear v)
  | m_Reserve new_capacity =>
      let! v' := Reserve new_capacity v in ret (ret_void, v')
  | m_Resize new_size =>
      let! v' := Resize new_size v in ret (ret_void, v')
  | m_PushBack by_move x =>
      let! v' := push_back_call (by_move, x) v in ret (ret_void, v')
  | m_Insert by_move index x =>
      let! (p, v') := insert_call by_move (ptr_add (begin v) index) x v in
      ret (ret_ref p, v')
  | m_PopBack =>
      let! v' := PopBack v in ret (ret_void, v')
  | m_Erase index =>
      let! (p, v') := Erase (ptr_add (begin v) index) v in
      ret (ret_ref p, v')
  end.

(** The arguments of type [size_t] are not negative. *)
Definition size_t_args (m : method) : Prop :=
  match m with
  | m_subscript index | m_assign index _ | m_At index | m_At_assign index _ =>
      0 <= index
  | m_Reserve n | m_Resize n => 0 <= n
  | _ => True
  end.

(** The calls that lower the size and leave the vacated slots as they
    are. *)
Definition truncates (m : method) (v : SimpleVector) : Prop :=
  match m with
  | m_PopBack => True
  | m_Clear => 0 < size_ v
  | m_Resize new_size => new_size < size_ v
  | m_Erase index => index = size_ v - 1
  | _ => False
  end.

(** Invariant I2: every slot from the size up to the capacity holds a
    default-constructed or a moved-from value. *)
Definition vacant (x : T) : Prop := x = default_T ∨ ∃ y, x = moved_from y.

Definition I2 h v : Prop :=
  Forall vacant (drop (Z.to_nat (size_ v)) (storage h v)).

Definition no_domain_error {A} (m : M A) : Prop :=
  ∀ h, m h ≠ Throw out_of_range.


(** The first index at which the sequences differ decides: either the
    left one ends there and the right one goes on, or the left element is
    less than the right one; before it no element is less than its
    counterpart. *)
Definition lexicographically_less (xs ys : list T) : Prop :=
  ∃ k : nat,
    (∀ j : nat, (j < k)%nat →
       ∃ x y, xs !! j = Some x ∧ ys !! j = Some y ∧
              lt_T x y = false ∧ lt_T y x = false) ∧
    ((xs !! k = None ∧ is_Some (ys !! k)) ∨
     (∃ x y, xs !! k = Some x ∧ ys !! k = Some y ∧ lt_T x y = true)).

(** A sequence of calls on one container. *)
Fixpoint exec_all (ms : list method) (v : SimpleVector) : M SimpleVector :=
  match ms with
  | [] => ret v
  | m :: ms' => let! (_, v') := exec m v in exec_all ms' v'
  end.

(** The containers [v] and [other] do not own the same block. *)
Definition separate (v other : SimpleVector) : Prop :=
  ∀ l, items_ v = Some l → items_ other ≠ Some l.

(** * Proofs *)

(** ** Running the monad *)

Lemma bind_ok {A B} (m : M A) (k : A → M B) h a h' :
  m h = Ok (a, h') → bind m k h = k a h'.
Proof. intros H. unfold bind. by rewrite H. Qed.

Lemma bind_throw {A B} (m : M A) (k : A → M B) h e :
  m h = Throw e → bind m k h = Throw e.
Proof. intros H. unfold bind. by rewrite H. Qed.

Lemma bind_undefined {A B} (m : M A) (k : A → M B) h :
  m h = Undefined → bind m k h = Undefined.
Proof. intros H. unfold bind. by rewrite H. Qed.

Lemma bind_inv_ok {A B} (m : M A) (k : A → M B) h b h' :
  bind m k h = Ok (b, h') →
  ∃ a h1, m h = Ok (a, h1) ∧ k a h1 = Ok (b, h').
Proof.
  unfold bind. destruct (m h) as [[a h1]| |]; [eauto|done..].
Qed.

(** ** Loads and stores *)

Lemma load_ok h l blk (i : nat) x :
  h !! l = Some blk → blk !! i = Some x →
  load (Ptr (Some l) (Z.of_nat i)) h = Ok (x, h).
Proof.
  intros Hl Hi. unfold load.
  destruct (Z.ltb_spec (Z.of_nat i) 0); [lia|].
  by rewrite Hl, Nat2Z.id, Hi.
Qed.

Lemma store_ok h l blk (i : nat) x :
  h !! l = Some blk → (i < length blk)%nat →
  store (Ptr (Some l) (Z.of_nat i)) x h = Ok (tt, <[l := <[i := x]> blk]> h).
Proof.
  intros Hl Hi. unfold store.
  destruct (Z.ltb_spec (Z.of_nat i) 0); [lia|].
  rewrite Hl, Nat2Z.id. by rewrite decide_True.
Qed.

Lemma ptr_add_succ l (i : nat) :
  ptr_add (Ptr (Some l) (Z.of_nat i)) 1 = Ptr (Some l) (Z.of_nat (S i)).
Proof. simpl. f_equal. lia. Qed.

Lemma ptr_add_pred l (i : nat) :
  ptr_add (Ptr (Some l) (Z.of_nat (S i))) (-1) = Ptr (Some l) (Z.of_nat i).
Proof. simpl. f_equal. lia. Qed.

(** ** The loops, on offsets counted in [nat] *)

Ltac list_arith := repeat (f_equal; try lia); try done.

Lemma fill_n_ok n : ∀ h l blk (c : nat) x,
  h !! l = Some blk → (c + n ≤ length blk)%nat →
  fill_n n (Ptr (Some l) (Z.of_nat c)) x h =
    Ok (tt, <[l := take c blk ++ replicate n x ++ drop (c + n) blk]> h).
Proof.
  induction n as [|n IH]; intros h l blk c x Hl Hn.
  - simpl. unfold ret. rewrite Nat.add_0_r, take_drop. by rewrite insert_id.
  - cbn [fill_n]. erewrite bind_ok by (eapply store_ok; [done|lia]).
    rewrite ptr_add_succ.
    rewrite (IH _ l (<[c:=x]> blk));
      [|by rewrite lookup_insert_eq|rewrite length_insert; lia].
    rewrite insert_insert_eq. do 3 f_equal.
    rewrite (take_S_r _ _ x) by (apply list_lookup_insert_eq; lia).
    rewrite take_insert_ge by lia. rewrite drop_insert_lt by lia.
    rewrite <- app_assoc. simpl. list_arith.
Qed.

Lemma copy_init_ok init : ∀ h l blk (c : nat),
  h !! l = Some blk → (c + length init ≤ length blk)%nat →
  copy_init init (Ptr (Some l) (Z.of_nat c)) h =
    Ok (Ptr (Some l) (Z.of_nat (c + length init)),
        <[l := take c blk ++ init ++ drop (c + length init) blk]> h).
Proof.
  induction init as [|x init IH]; intros h l blk c Hl Hn;
    cbn [copy_init length] in *.
  - unfold ret. rewrite Nat.add_0_r. cbn [app]. rewrite take_drop.
    by rewrite insert_id.
  - erewrite bind_ok by (eapply store_ok; [done|lia]).
    rewrite ptr_add_succ.
    rewrite (IH _ l (<[c:=x]> blk));
      [|by rewrite lookup_insert_eq|rewrite length_insert; lia].
    rewrite insert_insert_eq. f_equal. f_equal; [list_arith|]. f_equal.
    rewrite (take_S_r _ _ x) by (apply list_lookup_insert_eq; lia).
    rewrite take_insert_ge by lia. rewrite drop_insert_lt by lia.
    rewrite <- app_assoc. simpl. list_arith.
Qed.

(** Copying between two different blocks. *)
Lemma copy_n_ok n : ∀ h ls ld src dst (a c : nat),
  ls ≠ ld → h !! ls = Some src → h !! ld = Some dst →
  (a + n ≤ length src)%nat → (c + n ≤ length dst)%nat →
  copy_n n (Ptr (Some ls) (Z.of_nat a)) (Ptr (Some ld) (Z.of_nat c)) h =
    Ok (Ptr (Some ld) (Z.of_nat (c + n)),
        <[ld := take c dst ++ take n (drop a src) ++ drop (c + n) dst]> h).
Proof.
  induction n as [|n IH]; intros h ls ld src dst a c Hne Hs Hd Ha Hc.
  - simpl. unfold ret. rewrite !Nat.add_0_r, take_drop. by rewrite insert_id.
  - cbn [copy_n].
    destruct (lookup_lt_is_Some_2 src a) as [x Hx]; [lia|].
    erewrite bind_ok by (eapply load_ok; done).
    erewrite bind_ok by (eapply store_ok; [done|lia]).
    rewrite !ptr_add_succ.
    rewrite (IH _ ls ld src (<[c:=x]> dst));
      [|done|by rewrite lookup_insert_ne|by rewrite lookup_insert_eq
       |lia|rewrite length_insert; lia].
    rewrite insert_insert_eq. f_equal. f_equal; [list_arith|]. f_equal.
    rewrite (take_S_r _ _ x) by (apply list_lookup_insert_eq; lia).
    rewrite take_insert_ge by lia. rewrite drop_insert_lt by lia.
    rewrite (drop_S _ _ _ Hx). rewrite <- app_assoc. simpl. list_arith.
Qed.

(** Moving between two different blocks: the source slots are left
    moved-from. *)
Lemma move_n_ok n : ∀ h ls ld src dst (a c : nat),
  ls ≠ ld → h !! ls = Some src → h !! ld = Some dst →
  (a + n ≤ length src)%nat → (c + n ≤ length dst)%nat →
  move_n n (Ptr (Some ls) (Z.of_nat a)) (Ptr (Some ld) (Z.of_nat c)) h =
    Ok (Ptr (Some ld) (Z.of_nat (c + n)),
        <[ld := take c dst ++ take n (drop a src) ++ drop (c + n) dst]>
          (<[ls := take a src ++ (moved_from <$> take n (drop a src))
                   ++ drop (a + n) src]> h)).
Proof.
  induction n as [|n IH]; intros h ls ld src dst a c Hne Hs Hd Ha Hc.
  - simpl. unfold ret. rewrite !Nat.add_0_r, !take_drop.
    rewrite (insert_id h) by done. rewrite insert_id by done. done.
  - cbn [move_n].
    destruct (lookup_lt_is_Some_2 src a) as [x Hx]; [lia|].
    erewrite bind_ok by (eapply load_ok; done).
    erewrite bind_ok by (eapply store_ok; [done|lia]).
    erewrite bind_ok by
      (eapply store_ok; [by rewrite lookup_insert_ne|by eapply lookup_lt_Some]).
    rewrite !ptr_add_succ.
    rewrite (IH _ ls ld (<[a:=moved_from x]> src) (<[c:=x]> dst));
      [|done|by rewrite lookup_insert_eq
       |by rewrite lookup_insert_ne, lookup_insert_eq
       |rewrite length_insert; lia|rewrite length_insert; lia].
    rewrite insert_insert_eq.
    rewrite (insert_insert_ne _ ld ls) by done.
    rewrite insert_insert_eq.
    rewrite (insert_insert_ne _ ls ld) by done.
    f_equal. f_equal; [list_arith|].
    rewrite !drop_insert_lt by lia.
    rewrite !(take_S_r _ _ x) by (apply list_lookup_insert_eq; lia).
    rewrite (take_S_r _ _ (moved_from x)) by (apply list_lookup_insert_eq; lia).
    rewrite !take_insert_ge by lia.
    rewrite (drop_S _ _ _ Hx). rewrite <- !app_assoc. simpl.
    f_equal; [list_arith|]. f_equal. list_arith.
Qed.

(** ** Equality of blocks, slot by slot *)

Lemma lookup_app_decide {A} (l1 l2 : list A) (i : nat) :
  (l1 ++ l2) !! i =
    if decide (i < length l1)%nat then l1 !! i else l2 !! (i - length l1)%nat.
Proof.
  case_decide; [by apply lookup_app_l|apply lookup_app_r; lia].
Qed.

Lemma lookup_cons_decide {A} (a : A) (l : list A) (i : nat) :
  (a :: l) !! i = if decide (i = 0)%nat then Some a else l !! (i - 1)%nat.
Proof.
  destruct i as [|i]; [done|]. rewrite decide_False by lia.
  simpl. by rewrite Nat.sub_0_r.
Qed.

Lemma lookup_replicate_decide {A} (n : nat) (a : A) (i : nat) :
  replicate n a !! i = if decide (i < n)%nat then Some a else None.
Proof.
  case_decide; [by apply lookup_replicate_2|by apply lookup_replicate_None; lia].
Qed.

Lemma lookup_nil_any {A} (i : nat) : ([] : list A) !! i = None.
Proof. by destruct i. Qed.

Ltac lookup_norm :=
  repeat first
    [ rewrite lookup_app_decide | rewrite lookup_cons_decide
    | rewrite lookup_take | rewrite lookup_drop
    | rewrite list_lookup_insert | rewrite lookup_replicate_decide
    | rewrite list_lookup_fmap | rewrite lookup_nil_any
    | rewrite length_app | rewrite length_take | rewrite length_drop
    | rewrite length_insert | rewrite length_replicate
    | rewrite length_fmap | rewrite length_cons | rewrite length_nil ].

Ltac lookup_hyp :=
  match goal with
  | H : ?b !! ?k = Some ?a |- context [?b !! ?j] =>
      replace j with k by lia; rewrite H
  end.

Ltac lookup_close :=
  try lookup_hyp;
  first
    [ reflexivity
    | lia
    | f_equal; lia
    | do 2 f_equal; lia
    | symmetry; apply lookup_ge_None_2; lia
    | apply lookup_ge_None_2; lia ].

Ltac blocks_eq :=
  apply list_eq; intros ?; lookup_norm;
  repeat (case_decide; try lia); lookup_close.

(** ** The backward loops *)

Lemma copy_backward_n_ok n : ∀ h ls ld src dst (a c : nat),
  ls ≠ ld → h !! ls = Some src → h !! ld = Some dst →
  (a + n ≤ length src)%nat → (c + n ≤ length dst)%nat →
  copy_backward_n n (Ptr (Some ls) (Z.of_nat (a + n))) (Ptr (Some ld) (Z.of_nat (c + n))) h =
    Ok (Ptr (Some ld) (Z.of_nat c),
        <[ld := take c dst ++ take n (drop a src) ++ drop (c + n) dst]> h).
Proof.
  induction n as [|n IH]; intros h ls ld src dst a c Hne Hs Hd Ha Hc.
  - simpl. unfold ret. rewrite !Nat.add_0_r, take_drop. by rewrite insert_id.
  - cbn [copy_backward_n]. rewrite !Nat.add_succ_r, !ptr_add_pred.
    destruct (lookup_lt_is_Some_2 src (a + n)) as [x Hx]; [lia|].
    erewrite bind_ok by (eapply load_ok; done).
    erewrite bind_ok by (eapply store_ok; [done|lia]).
    rewrite (IH _ ls ld src (<[(c + n)%nat:=x]> dst));
      [|done|by rewrite lookup_insert_ne|by rewrite lookup_insert_eq
       |lia|rewrite length_insert; lia].
    rewrite insert_insert_eq. do 3 f_equal. blocks_eq.
Qed.

Lemma move_backward_n_ok n : ∀ h ls ld src dst (a c : nat),
  ls ≠ ld → h !! ls = Some src → h !! ld = Some dst →
  (a + n ≤ length src)%nat → (c + n ≤ length dst)%nat →
  move_backward_n n (Ptr (Some ls) (Z.of_nat (a + n))) (Ptr (Some ld) (Z.of_nat (c + n))) h =
    Ok (Ptr (Some ld) (Z.of_nat c),
        <[ld := take c dst ++ take n (drop a src) ++ drop (c + n) dst]>
          (<[ls := take a src ++ (moved_from <$> take n (drop a src))
                   ++ drop (a + n) src]> h)).
Proof.
  induction n as [|n IH]; intros h ls ld src dst a c Hne Hs Hd Ha Hc.
  - simpl. unfold ret. rewrite !Nat.add_0_r, !take_drop.
    rewrite (insert_id h) by done. rewrite insert_id by done. done.
  - cbn [move_backward_n]. rewrite !Nat.add_succ_r, !ptr_add_pred.
    destruct (lookup_lt_is_Some_2 src (a + n)) as [x Hx]; [lia|].
    erewrite bind_ok by (eapply load_ok; done).
    erewrite bind_ok by (eapply store_ok; [done|lia]).
    erewrite bind_ok by
      (eapply store_ok; [by rewrite lookup_insert_ne|by eapply lookup_lt_Some]).
    rewrite (IH _ ls ld (<[(a + n)%nat:=moved_from x]> src)
               (<[(c + n)%nat:=x]> dst));
      [|done|by rewrite lookup_insert_eq
       |by rewrite lookup_insert_ne, lookup_insert_eq
       |rewrite length_insert; lia|rewrite length_insert; lia].
    rewrite insert_insert_eq.
    rewrite (insert_insert_ne _ ld ls) by done.
    rewrite insert_insert_eq.
    rewrite (insert_insert_ne _ ls ld) by done.
    do 2 f_equal. f_equal; [blocks_eq|f_equal; blocks_eq].
Qed.

(** ** Moving a range one slot to the left inside its block *)

Lemma move_n_left_ok n : ∀ h l blk (p : nat),
  h !! l = Some blk → (S p + n ≤ length blk)%nat →
  move_n n (Ptr (Some l) (Z.of_nat (S p))) (Ptr (Some l) (Z.of_nat p)) h =
    Ok (Ptr (Some l) (Z.of_nat (p + n)), <[l := shifted_left p n blk]> h).
Proof.
  induction n as [|n IH]; intros h l blk p Hl Hn.
  - simpl. unfold ret. rewrite Nat.add_0_r. by rewrite insert_id.
  - cbn [move_n].
    destruct (lookup_lt_is_Some_2 blk (S p)) as [x Hx]; [lia|].
    erewrite bind_ok by (eapply load_ok; done).
    erewrite bind_ok by (eapply store_ok; [done|lia]).
    erewrite bind_ok by
      (eapply store_ok;
       [by rewrite lookup_insert_eq|rewrite length_insert; lia]).
    rewrite !ptr_add_succ, insert_insert_eq.
    rewrite (IH _ l (<[S p:=moved_from x]> (<[p:=x]> blk)));
      [|by rewrite lookup_insert_eq|rewrite !length_insert; lia].
    rewrite insert_insert_eq. f_equal. f_equal; [list_arith|]. f_equal.
    destruct n as [|n]; unfold shifted_left.
    + blocks_eq.
    + rewrite !drop_insert_lt by lia.
      rewrite (take_S_r _ _ x)
        by (rewrite list_lookup_insert_ne by lia;
            apply list_lookup_insert_eq; lia).
      rewrite !take_insert_ge by lia.
      rewrite (drop_S _ _ _ Hx). rewrite <- !app_assoc. cbn [take app].
      list_arith.
Qed.

(** ** The algorithms, on the pointers the container passes *)

Lemma ArrayPtr_Get_add_0 (p : ArrayPtr) :
  ArrayPtr_Get p = ptr_add (ArrayPtr_Get p) 0.
Proof. by destruct p. Qed.

Lemma ptr_add_Get_nat l (k : Z) :
  0 <= k → ptr_add (ArrayPtr_Get (Some l)) k = Ptr (Some l) (Z.of_nat (Z.to_nat k)).
Proof. intros. simpl. f_equal. lia. Qed.

Lemma range_length_ok h (p : ArrayPtr) (a b : Z) :
  a <= b →
  range_length (ptr_add (ArrayPtr_Get p) a) (ptr_add (ArrayPtr_Get p) b) h =
    Ok (Z.to_nat (b - a), h).
Proof.
  intros Hab. unfold range_length.
  cbn [ArrayPtr_Get ptr_add ptr_diff]. rewrite decide_True by done.
  cbn [lift_option]. erewrite bind_ok by done.
  destruct (Z.ltb_spec (0 + b - (0 + a)) 0); [lia|].
  unfold ret. list_arith.
Qed.

Lemma range_length_Ptr h l (a b : Z) :
  a <= b → range_length (Ptr (Some l) a) (Ptr (Some l) b) h = Ok (Z.to_nat (b - a), h).
Proof.
  intros Hab. unfold range_length. cbn [ptr_diff].
  rewrite decide_True by done. cbn [lift_option].
  erewrite bind_ok by done.
  destruct (Z.ltb_spec (b - a) 0); [lia|]. done.
Qed.

Lemma std_fill_ok h l blk (a b : Z) x :
  h !! l = Some blk → 0 <= a <= b → b <= Z.of_nat (length blk) →
  std_fill (Ptr (Some l) a) (Ptr (Some l) b) x h =
    Ok (tt, <[l := take (Z.to_nat a) blk ++ replicate (Z.to_nat (b - a)) x
                   ++ drop (Z.to_nat b) blk]> h).
Proof.
  intros Hl Hab Hb. unfold std_fill.
  erewrite bind_ok by (apply range_length_Ptr; lia).
  replace (Ptr (Some l) a) with (Ptr (Some l) (Z.of_nat (Z.to_nat a))) by (f_equal; lia).
  erewrite fill_n_ok by (done || lia). list_arith.
Qed.

Lemma std_generate_default_ok h l blk (a b : Z) :
  h !! l = Some blk → 0 <= a <= b → b <= Z.of_nat (length blk) →
  std_generate_default (Ptr (Some l) a) (Ptr (Some l) b) h =
    Ok (tt, <[l := take (Z.to_nat a) blk
                   ++ replicate (Z.to_nat (b - a)) default_T
                   ++ drop (Z.to_nat b) blk]> h).
Proof. apply std_fill_ok. Qed.

Lemma std_copy_ok h (p : ArrayPtr) ld src dst (a b c : Z) :
  p ≠ Some ld → block_of h p = Some src → h !! ld = Some dst →
  0 <= a <= b → b <= Z.of_nat (length src) →
  0 <= c → c + (b - a) <= Z.of_nat (length dst) →
  std_copy (ptr_add (ArrayPtr_Get p) a) (ptr_add (ArrayPtr_Get p) b)
           (Ptr (Some ld) c) h =
    Ok (Ptr (Some ld) (c + (b - a)),
        <[ld := take (Z.to_nat c) dst
                ++ take (Z.to_nat (b - a)) (drop (Z.to_nat a) src)
                ++ drop (Z.to_nat (c + (b - a))) dst]> h).
Proof.
  intros Hne Hp Hd Hab Hb Hc Hcd. unfold std_copy.
  erewrite bind_ok by (eapply range_length_ok; lia).
  destruct p as [ls|].
  - rewrite ptr_add_Get_nat by lia. 
    replace (Ptr (Some ld) c) with (Ptr (Some ld) (Z.of_nat (Z.to_nat c))) by (f_equal; lia).
    erewrite copy_n_ok; [|congruence|done..|lia|lia].
    f_equal. f_equal; [f_equal; lia|]. list_arith.
  - injection Hp as <-. simpl in Hb.
    replace (b - a) with 0 by lia. simpl. unfold ret.
    rewrite Z.add_0_r, take_drop. by rewrite insert_id.
Qed.

Lemma std_move_ok h (p : ArrayPtr) ld src dst (a b c : Z) :
  p ≠ Some ld → block_of h p = Some src → h !! ld = Some dst →
  0 <= a <= b → b <= Z.of_nat (length src) →
  0 <= c → c + (b - a) <= Z.of_nat (length dst) →
  std_move (ptr_add (ArrayPtr_Get p) a) (ptr_add (ArrayPtr_Get p) b)
           (Ptr (Some ld) c) h =
    Ok (Ptr (Some ld) (c + (b - a)),
        <[ld := take (Z.to_nat c) dst
                ++ take (Z.to_nat (b - a)) (drop (Z.to_nat a) src)
                ++ drop (Z.to_nat (c + (b - a))) dst]>
          (update_block h p
             (take (Z.to_nat a) src
              ++ (moved_from <$> take (Z.to_nat (b - a)) (drop (Z.to_nat a) src))
              ++ drop (Z.to_nat b) src))).
Proof.
  intros Hne Hp Hd Hab Hb Hc Hcd. unfold std_move.
  erewrite bind_ok by (eapply range_length_ok; lia).
  destruct p as [ls|].
  - rewrite ptr_add_Get_nat by lia. 
    replace (Ptr (Some ld) c) with (Ptr (Some ld) (Z.of_nat (Z.to_nat c))) by (f_equal; lia).
    erewrite move_n_ok; [|congruence|done..|lia|lia].
    cbn [update_block]. f_equal. f_equal; [f_equal; lia|]. list_arith.
  - injection Hp as <-. simpl in Hb.
    replace (b - a) with 0 by lia. simpl. unfold ret.
    rewrite Z.add_0_r, take_drop. by rewrite insert_id.
Qed.

Lemma std_copy_backward_ok h (p : ArrayPtr) ld src dst (a b c : Z) :
  p ≠ Some ld → block_of h p = Some src → h !! ld = Some dst →
  0 <= a <= b → b <= Z.of_nat (length src) →
  0 <= c - (b - a) → c <= Z.of_nat (length dst) →
  std_copy_backward (ptr_add (ArrayPtr_Get p) a) (ptr_add (ArrayPtr_Get p) b)
                    (Ptr (Some ld) c) h =
    Ok (Ptr (Some ld) (c - (b - a)),
        <[ld := take (Z.to_nat (c - (b - a))) dst
                ++ take (Z.to_nat (b - a)) (drop (Z.to_nat a) src)
                ++ drop (Z.to_nat c) dst]> h).
Proof.
  intros Hne Hp Hd Hab Hb Hc Hcd. unfold std_copy_backward.
  erewrite bind_ok by (eapply range_length_ok; lia).
  destruct p as [ls|].
  - rewrite ptr_add_Get_nat by lia.
    replace (Z.to_nat b) with (Z.to_nat a + Z.to_nat (b - a))%nat by lia.
    replace (Ptr (Some ld) c) with
      (Ptr (Some ld) (Z.of_nat (Z.to_nat (c - (b - a)) + Z.to_nat (b - a))))
      by (f_equal; lia).
    erewrite copy_backward_n_ok; [|congruence|done..|lia|lia].
    f_equal. f_equal; [f_equal; lia|]. list_arith.
  - injection Hp as <-. simpl in Hb.
    replace (b - a) with 0 by lia. simpl. unfold ret.
    rewrite Z.sub_0_r, take_drop. by rewrite insert_id.
Qed.

Lemma std_move_backward_ok h (p : ArrayPtr) ld src dst (a b c : Z) :
  p ≠ Some ld → block_of h p = Some src → h !! ld = Some dst →
  0 <= a <= b → b <= Z.of_nat (length src) →
  0 <= c - (b - a) → c <= Z.of_nat (length dst) →
  std_move_backward (ptr_add (ArrayPtr_Get p) a) (ptr_add (ArrayPtr_Get p) b)
                    (Ptr (Some ld) c) h =
    Ok (Ptr (Some ld) (c - (b - a)),
        <[ld := take (Z.to_nat (c - (b - a))) dst
                ++ take (Z.to_nat (b - a)) (drop (Z.to_nat a) src)
                ++ drop (Z.to_nat c) dst]>
          (update_block h p
             (take (Z.to_nat a) src
              ++ (moved_from <$> take (Z.to_nat (b - a)) (drop (Z.to_nat a) src))
              ++ drop (Z.to_nat b) src))).
Proof.
  intros Hne Hp Hd Hab Hb Hc Hcd. unfold std_move_backward.
  erewrite bind_ok by (eapply range_length_ok; lia).
  destruct p as [ls|].
  - rewrite ptr_add_Get_nat by lia.
    replace (Z.to_nat b) with (Z.to_nat a + Z.to_nat (b - a))%nat by lia.
    replace (Ptr (Some ld) c) with
      (Ptr (Some ld) (Z.of_nat (Z.to_nat (c - (b - a)) + Z.to_nat (b - a))))
      by (f_equal; lia).
    erewrite move_backward_n_ok; [|congruence|done..|lia|lia].
    cbn [update_block]. list_arith.
  - injection Hp as <-. simpl in Hb.
    replace (b - a) with 0 by lia. simpl. unfold ret.
    rewrite Z.sub_0_r, take_drop. by rewrite insert_id.
Qed.

(** [std::move(pos + 1, end, pos)] inside the block of the container. *)
Lemma std_move_left_ok h l blk (i n : Z) :
  h !! l = Some blk → 0 <= i → i + 1 <= n → n <= Z.of_nat (length blk) →
  std_move (Ptr (Some l) (i + 1)) (Ptr (Some l) n) (Ptr (Some l) i) h =
    Ok (Ptr (Some l) (n - 1),
        <[l := shifted_left (Z.to_nat i) (Z.to_nat (n - (i + 1))) blk]> h).
Proof.
  intros Hl Hi Hn Hb. unfold std_move.
  erewrite bind_ok by (apply range_length_Ptr; lia).
  replace (Ptr (Some l) (i + 1)) with (Ptr (Some l) (Z.of_nat (S (Z.to_nat i))))
    by (f_equal; lia).
  replace (Ptr (Some l) i) with (Ptr (Some l) (Z.of_nat (Z.to_nat i))) by (f_equal; lia).
  erewrite move_n_left_ok by (done || lia). list_arith.
Qed.

(** ** The representation invariant *)

(** The allocator hands out no block of more than [PTRDIFF_MAX] slots. *)
Hypothesis can_alloc_bound :
  ∀ n, can_alloc n = true → 0 <= n <= PTRDIFF_MAX.

Lemma size_t_wrap_small n : 0 <= n < 2 ^ 64 → size_t_wrap n = n.
Proof. intros. unfold size_t_wrap, SIZE_BITS. by apply Z.mod_small. Qed.

Lemma PTRDIFF_MAX_eq : PTRDIFF_MAX = 9223372036854775807.
Proof. reflexivity. Qed.

Lemma fresh_loc_None h : h !! fresh (dom h) = None.
Proof. apply not_elem_of_dom, is_fresh. Qed.

Lemma wf_storage h v blk :
  block_of h (items_ v) = Some blk → storage h v = blk.
Proof. unfold storage. by intros ->. Qed.

Lemma wf_length h v : wf h v → Z.of_nat (length (storage h v)) = capacity_ v.
Proof. intros (_ & _ & blk & Hb & Hlen). by rewrite (wf_storage _ _ _ Hb). Qed.

Lemma wf_block h v : wf h v → block_of h (items_ v) = Some (storage h v).
Proof. intros (_ & _ & blk & Hb & Hlen). by rewrite (wf_storage _ _ _ Hb). Qed.

Lemma wf_not_fresh h v : wf h v → items_ v ≠ Some (fresh (dom h)).
Proof.
  intros (_ & _ & blk & Hb & _) Heq. rewrite Heq in Hb. simpl in Hb.
  by rewrite fresh_loc_None in Hb.
Qed.

Lemma ArrayPtr_new_ok h n :
  can_alloc n = true →
  ArrayPtr_new n h =
    Ok (Some (fresh (dom h)),
        <[fresh (dom h) := replicate (Z.to_nat n) default_T]> h).
Proof. intros Hn. unfold ArrayPtr_new. by rewrite Hn. Qed.

Lemma ArrayPtr_new_fail h n :
  can_alloc n = false → ArrayPtr_new n h = Throw bad_alloc.
Proof. intros Hn. unfold ArrayPtr_new. by rewrite Hn. Qed.

Lemma ArrayPtr_delete_ok h p :
  ArrayPtr_delete p h = Ok (tt, release_block h p).
Proof. by destruct p. Qed.

Lemma release_after_update h (p : ArrayPtr) l blk new_blk old_blk :
  p ≠ Some l →
  release_block (<[l := new_blk]> (update_block (<[l := blk]> h) p old_blk)) p
  = <[l := new_blk]> (release_block h p).
Proof.
  intros Hne. destruct p as [ls|]; simpl.
  - assert (ls ≠ l) by congruence.
    rewrite (insert_insert_ne _ ls l) by done.
    rewrite insert_insert_eq. rewrite delete_insert_ne by done.
    by rewrite delete_insert_eq.
  - by rewrite insert_insert_eq.
Qed.

(** ** Reserve *)

Lemma Reserve_noop h v n : n <= capacity_ v → Reserve n v h = Ok (v, h).
Proof.
  intros Hn. unfold Reserve.
  destruct (Z.ltb_spec (capacity_ v) n); [lia|done].
Qed.

Lemma Reserve_fail h v n :
  capacity_ v < n → can_alloc n = false → Reserve n v h = Throw bad_alloc.
Proof.
  intros Hn Hc. unfold Reserve.
  destruct (Z.ltb_spec (capacity_ v) n); [|lia].
  apply bind_throw. by apply ArrayPtr_new_fail.
Qed.

Lemma Reserve_grow h v n :
  wf h v → capacity_ v < n → can_alloc n = true →
  Reserve n v h =
    Ok (mkSimpleVector (size_ v) n (Some (fresh (dom h))),
        <[fresh (dom h) :=
            elements h v ++ replicate (Z.to_nat (n - size_ v)) default_T]>
          (release_block h (items_ v))).
Proof.
  intros Hwf Hn Hc. pose proof (can_alloc_bound _ Hc) as Hb.
  pose proof (wf_not_fresh _ _ Hwf) as Hfresh.
  pose proof (wf_block _ _ Hwf) as Hblk.
  pose proof (wf_length _ _ Hwf) as Hlen.
  destruct Hwf as (Hsz & Hcap & _).
  unfold Reserve. destruct (Z.ltb_spec (capacity_ v) n); [|lia].
  erewrite bind_ok by (by apply ArrayPtr_new_ok).
  set (l := fresh (dom h)) in *.
  rewrite (ArrayPtr_Get_add_0 (items_ v)) at 1.
  change (ArrayPtr_Get (Some l)) with (Ptr (Some l) 0).
  erewrite bind_ok.
  2:{ eapply std_move_ok; [done| |by apply lookup_insert_eq|..].
      - destruct (items_ v) as [ls|] eqn:E; [|done].
        simpl. rewrite lookup_insert_ne by congruence. exact Hblk.
      - lia.
      - lia.
      - lia.
      - rewrite length_replicate. lia. }
  cbn [ptr_add]. rewrite !Z.add_0_l.
  erewrite bind_ok.
  2:{ eapply std_generate_default_ok; [by apply lookup_insert_eq|lia|].
      rewrite !length_app, length_take, length_drop, length_replicate.
      rewrite length_take, length_drop. lia. }
  cbn [ArrayPtr_swap].
  erewrite bind_ok by apply ArrayPtr_delete_ok.
  unfold ret. rewrite insert_insert_eq.
  rewrite release_after_update by done.
  do 3 f_equal. unfold elements.
  rewrite !Z.sub_0_r. change (Z.to_nat 0) with 0%nat.
  rewrite take_0, drop_0. cbn [app].
  rewrite take_app_length'.
  2:{ rewrite length_take. lia. }
  rewrite drop_ge.
  2:{ rewrite !length_app, length_take, length_drop, length_replicate. lia. }
  by rewrite app_nil_r.
Qed.

(** ** PushBack *)

Lemma storage_at h v l blk :
  items_ v = Some l → h !! l = Some blk → storage h v = blk.
Proof. intros Hi Hl. unfold storage. rewrite Hi. simpl. by rewrite Hl. Qed.

Lemma wf_at h v l blk :
  items_ v = Some l → h !! l = Some blk →
  0 <= size_ v <= capacity_ v → capacity_ v <= PTRDIFF_MAX →
  Z.of_nat (length blk) = capacity_ v → wf h v.
Proof.
  intros Hi Hl Hs Hc Hlen. repeat split; [lia..|].
  exists blk. rewrite Hi. by simpl.
Qed.

Lemma wf_items_Some h v :
  wf h v → 0 < capacity_ v →
  ∃ l, items_ v = Some l ∧ h !! l = Some (storage h v).
Proof.
  intros Hwf Hc. pose proof (wf_block _ _ Hwf) as Hb.
  pose proof (wf_length _ _ Hwf) as Hlen.
  destruct (items_ v) as [l|] eqn:E; [by exists l|].
  simpl in Hb. injection Hb as Hb. rewrite <- Hb in Hlen. simpl in Hlen. lia.
Qed.

Lemma source_capacity_test v :
  size_ v = capacity_ v → 0 <= capacity_ v <= PTRDIFF_MAX →
  (if size_ v =? 0 then 1 else size_t_wrap (capacity_ v * 2))
  = grown_capacity (capacity_ v).
Proof.
  intros -> Hc. unfold grown_capacity.
  destruct (Z.eqb_spec (capacity_ v) 0); [done|].
  rewrite size_t_wrap_small; [lia|]. rewrite PTRDIFF_MAX_eq in Hc. lia.
Qed.

(** With room left the argument is read before anything is written. *)
Lemma PushBack_in_place h v (item : reference) x :
  wf h v → size_ v < capacity_ v → read_reference item h = Ok (x, h) →
  ∃ l, items_ v = Some l ∧
    PushBack item v h =
      Ok (set_size_ (size_ v + 1) v,
          <[l := <[Z.to_nat (size_ v) := x]> (storage h v)]> h).
Proof.
  intros Hwf Hlt Hread.
  destruct (wf_items_Some _ _ Hwf) as (l & Hi & Hl); [destruct Hwf; lia|].
  pose proof (wf_length _ _ Hwf) as Hlen. destruct Hwf as (Hs & Hc & _).
  exists l. split; [done|]. unfold PushBack.
  destruct (Z.eqb_spec (size_ v) (capacity_ v)); [lia|].
  erewrite bind_ok by exact Hread.
  rewrite Hi. unfold ArrayPtr_index. rewrite ptr_add_Get_nat by lia.
  erewrite bind_ok by (eapply store_ok; [done|lia]).
  rewrite size_t_wrap_small; [done|]. rewrite PTRDIFF_MAX_eq in Hc. lia.
Qed.

Lemma PushBack_room h v x :
  wf h v → size_ v < capacity_ v →
  ∃ l, items_ v = Some l ∧
    PushBack (ref_object x) v h =
      Ok (set_size_ (size_ v + 1) v,
          <[l := <[Z.to_nat (size_ v) := x]> (storage h v)]> h).
Proof. intros Hwf Hlt. by eapply PushBack_in_place. Qed.

(** On a full container the argument is read in the heap that [Reserve]
    leaves: the new block is there and the old one is released. *)
Lemma PushBack_regrow h v (item : reference) x :
  wf h v → size_ v = capacity_ v →
  can_alloc (grown_capacity (capacity_ v)) = true →
  let h1 := <[fresh (dom h) :=
                elements h v
                ++ replicate (Z.to_nat (grown_capacity (capacity_ v) - size_ v))
                     default_T]>
              (release_block h (items_ v)) in
  read_reference item h1 = Ok (x, h1) →
  PushBack item v h =
    Ok (mkSimpleVector (size_ v + 1) (grown_capacity (capacity_ v))
          (Some (fresh (dom h))),
        <[fresh (dom h) :=
            elements h v ++ x ::
              replicate (Z.to_nat (grown_capacity (capacity_ v) - size_ v - 1))
                default_T]>
          (release_block h (items_ v))).
Proof.
  intros Hwf Heq Hc h1 Hread. pose proof (wf_length _ _ Hwf) as Hlen.
  pose proof Hwf as (Hs & Hcap & _).
  assert (capacity_ v < grown_capacity (capacity_ v)) as Hg.
  { unfold grown_capacity. destruct (Z.eqb_spec (capacity_ v) 0); lia. }
  unfold PushBack. destruct (Z.eqb_spec (size_ v) (capacity_ v)); [|lia].
  rewrite source_capacity_test by (done || lia).
  erewrite bind_ok by (by apply Reserve_grow).
  erewrite bind_ok by exact Hread. unfold h1.
  cbn [items_ size_]. unfold ArrayPtr_index.
  rewrite ptr_add_Get_nat by lia.
  assert (length (elements h v) = Z.to_nat (size_ v)) as Hel.
  { unfold elements. rewrite length_take. lia. }
  erewrite bind_ok.
  2:{ eapply store_ok; [by apply lookup_insert_eq|].
      rewrite length_app, length_replicate. lia. }
  rewrite insert_insert_eq. unfold ret, set_size_. cbn [capacity_ items_].
  rewrite size_t_wrap_small by (rewrite PTRDIFF_MAX_eq in Hcap; lia).
  do 3 f_equal. rewrite <- Hel.
  rewrite insert_app_r_alt by lia. rewrite Nat.sub_diag. f_equal.
  replace (Z.to_nat (grown_capacity (capacity_ v) - size_ v))
    with (S (Z.to_nat (grown_capacity (capacity_ v) - size_ v - 1))) by lia.
  done.
Qed.

Lemma PushBack_grow h v x :
  wf h v → size_ v = capacity_ v →
  can_alloc (grown_capacity (capacity_ v)) = true →
  PushBack (ref_object x) v h =
    Ok (mkSimpleVector (size_ v + 1) (grown_capacity (capacity_ v))
          (Some (fresh (dom h))),
        <[fresh (dom h) :=
            elements h v ++ x ::
              replicate (Z.to_nat (grown_capacity (capacity_ v) - size_ v - 1))
                default_T]>
          (release_block h (items_ v))).
Proof. intros Hwf Heq Hc. by apply PushBack_regrow. Qed.

Lemma PushBack_fail h v (item : reference) :
  size_ v = capacity_ v → 0 <= capacity_ v <= PTRDIFF_MAX →
  can_alloc (grown_capacity (capacity_ v)) = false →
  PushBack item v h = Throw bad_alloc.
Proof.
  intros Heq Hc Hf. unfold PushBack.
  destruct (Z.eqb_spec (size_ v) (capacity_ v)); [|lia].
  rewrite source_capacity_test by done.
  apply bind_throw, Reserve_fail; [|done].
  unfold grown_capacity. destruct (Z.eqb_spec (capacity_ v) 0); lia.
Qed.

Lemma frame_refl v h : frame v h v h.
Proof. split; [done|]. intros l Hl. by left. Qed.

Lemma frame_same_heap v h v' : items_ v' = items_ v → frame v h v' h.
Proof. intros Hi. split; [done|]. intros l Hl. left. congruence. Qed.

Lemma frame_same_block v h v' l blk :
  items_ v = Some l → items_ v' = Some l → frame v h v' (<[l := blk]> h).
Proof.
  intros Hi Hi'. split.
  - intros l' blk' Hl' Hne. rewrite lookup_insert_ne; [done|congruence].
  - intros l' Hl'. left. congruence.
Qed.

Lemma frame_new_block v h v' blk :
  wf h v → items_ v' = Some (fresh (dom h)) →
  frame v h v' (<[fresh (dom h) := blk]> (release_block h (items_ v))).
Proof.
  intros Hwf Hi'. split.
  - intros l' blk' Hl' Hne.
    assert (l' ≠ fresh (dom h)) as Hfr.
    { intros ->. by rewrite fresh_loc_None in Hl'. }
    rewrite lookup_insert_ne by done.
    destruct (items_ v) as [ls|]; simpl; [|done].
    rewrite lookup_delete_ne; [done|congruence].
  - intros l' Hl'. right. rewrite Hi' in Hl'. injection Hl' as <-.
    apply fresh_loc_None.
Qed.

Lemma elements_length h v :
  wf h v → length (elements h v) = Z.to_nat (size_ v).
Proof.
  intros Hwf. pose proof (wf_length _ _ Hwf). destruct Hwf as (? & ? & _).
  unfold elements. rewrite length_take. lia.
Qed.

Lemma grown_capacity_gt c : 0 <= c → c < grown_capacity c.
Proof. intros. unfold grown_capacity. destruct (Z.eqb_spec c 0); lia. Qed.

Lemma read_reference_regrown h v (item : reference) x blk :
  read_reference item h = Ok (x, h) → ¬ refers_to_storage item v →
  let h1 := <[fresh (dom h) := blk]> (release_block h (items_ v)) in
  read_reference item h1 = Ok (x, h1).
Proof.
  intros Hread Hout h1. destruct item as [y|[[l|] off]]; cbn in *.
  - by injection Hread as ->.
  - unfold load in *. destruct (off <? 0); [done|].
    destruct (h !! l) as [b|] eqn:Hl; [|done].
    assert (h1 !! l = Some b) as ->.
    { unfold h1. rewrite lookup_insert_ne.
      - destruct (items_ v) as [lo|] eqn:Hlo; simpl; [|done].
        rewrite lookup_delete_ne; [done|]. intros ->. apply Hout.
        by exists l, off.
      - intros <-. by rewrite fresh_loc_None in Hl. }
    destruct (b !! Z.to_nat off); [|done]. by injection Hread as ->.
  - done.
Qed.

(** [PushBack(const Type&)] with any argument but a slot of a block that
    the full branch releases. *)
Lemma PushBack_by_reference h v (item : reference) x :
  wf h v →
  (size_ v = capacity_ v → can_alloc (grown_capacity (capacity_ v)) = true) →
  read_reference item h = Ok (x, h) →
  (size_ v = capacity_ v → ¬ refers_to_storage item v) →
  ∃ v' h',
    PushBack item v h = Ok (v', h') ∧ wf h' v' ∧ frame v h v' h' ∧
    size_ v' = size_ v + 1 ∧
    capacity_ v' =
      (if size_ v =? capacity_ v then grown_capacity (capacity_ v)
       else capacity_ v) ∧
    elements h' v' = elements h v ++ [x] ∧
    drop (Z.to_nat (size_ v')) (storage h' v') =
      (if size_ v =? capacity_ v
       then replicate (Z.to_nat (capacity_ v' - size_ v')) default_T
       else drop (Z.to_nat (size_ v')) (storage h v)).
Proof.
  intros Hwf Hc Hread Hout. pose proof (wf_length _ _ Hwf) as Hlen.
  pose proof (elements_length _ _ Hwf) as Hel.
  pose proof Hwf as (Hs & Hcap & _).
  destruct (Z.eqb_spec (size_ v) (capacity_ v)) as [Heq|Hne].
  - specialize (Hc Heq). pose proof (can_alloc_bound _ Hc) as Hb.
    pose proof (grown_capacity_gt (capacity_ v)) as Hg.
    eexists _, _. split.
    { apply PushBack_regrow; [done..|].
      apply read_reference_regrown; [done|by apply Hout]. }
    cbn [size_ capacity_].
    assert (∀ blk, storage (<[fresh (dom h) := blk]>
                     (release_block h (items_ v)))
                   (mkSimpleVector (size_ v + 1)
                      (grown_capacity (capacity_ v)) (Some (fresh (dom h))))
                   = blk) as Hst.
    { intros blk. eapply storage_at; [done|apply lookup_insert_eq]. }
    split; [|split; [by apply frame_new_block|]].
    { eapply wf_at; [done|apply lookup_insert_eq|simpl; lia|simpl; lia|].
      simpl. rewrite length_app, length_cons, length_replicate. lia. }
    split; [done|]. split; [done|]. unfold elements at 1. rewrite Hst.
    cbn [size_]. split.
    + rewrite take_app_ge by lia. rewrite Hel.
      replace (Z.to_nat (size_ v + 1) - Z.to_nat (size_ v))%nat
        with 1%nat by lia. done.
    + rewrite drop_app_ge by lia. rewrite Hel.
      replace (Z.to_nat (size_ v + 1) - Z.to_nat (size_ v))%nat
        with 1%nat by lia. simpl. rewrite drop_0. list_arith.
  - destruct (PushBack_in_place h v item x) as (l & Hi & Hrun);
      [done|lia|done|].
    destruct (wf_items_Some _ _ Hwf) as (l' & Hi' & Hl); [lia|].
    assert (l' = l) as -> by congruence.
    eexists _, _. split; [exact Hrun|].
    assert (storage (<[l := <[Z.to_nat (size_ v) := x]> (storage h v)]> h)
              (set_size_ (size_ v + 1) v)
            = <[Z.to_nat (size_ v) := x]> (storage h v)) as Hst.
    { eapply storage_at; [done|apply lookup_insert_eq]. }
    split; [|split; [by apply frame_same_block|]].
    { eapply wf_at; [done|apply lookup_insert_eq|simpl; lia|simpl; lia|].
      simpl. rewrite length_insert. lia. }
    split; [done|]. split; [done|]. unfold elements at 1. rewrite Hst.
    cbn [set_size_ size_]. split.
    + replace (Z.to_nat (size_ v + 1)) with (S (Z.to_nat (size_ v))) by lia.
      rewrite (take_S_r _ _ x) by (apply list_lookup_insert_eq; lia).
      by rewrite take_insert_ge by lia.
    + by rewrite drop_insert_lt by lia.
Qed.

Lemma PushBack_spec h v x :
  wf h v →
  (size_ v = capacity_ v → can_alloc (grown_capacity (capacity_ v)) = true) →
  ∃ v' h',
    PushBack (ref_object x) v h = Ok (v', h') ∧ wf h' v' ∧ frame v h v' h' ∧
    size_ v' = size_ v + 1 ∧
    capacity_ v' =
      (if size_ v =? capacity_ v then grown_capacity (capacity_ v)
       else capacity_ v) ∧
    elements h' v' = elements h v ++ [x] ∧
    drop (Z.to_nat (size_ v')) (storage h' v') =
      (if size_ v =? capacity_ v
       then replicate (Z.to_nat (capacity_ v' - size_ v')) default_T
       else drop (Z.to_nat (size_ v')) (storage h v)).
Proof.
  intros Hwf Hc. apply PushBack_by_reference; [done..|].
  intros _ (l & off & Hitem & _). discriminate Hitem.
Qed.

(** On a full container that owns a block, an argument bound to a slot of
    that block is read after [Reserve] has released the block. *)
Lemma PushBack_reads_released_block h v (item : reference) :
  wf h v → size_ v = capacity_ v →
  can_alloc (grown_capacity (capacity_ v)) = true →
  refers_to_storage item v →
  PushBack item v h = Undefined ∧ PushBack_move item v h = Undefined.
Proof.
  intros Hwf Heq Hc (l & off & -> & Hl).
  pose proof (wf_not_fresh _ _ Hwf) as Hfresh.
  pose proof Hwf as (Hs & Hcap & _).
  assert (capacity_ v < grown_capacity (capacity_ v)) as Hg.
  { unfold grown_capacity. destruct (Z.eqb_spec (capacity_ v) 0); lia. }
  assert (∀ blk, load (Ptr (Some l) off)
                   (<[fresh (dom h) := blk]> (release_block h (items_ v)))
                 = Undefined) as Hload.
  { intros blk. unfold load. destruct (off <? 0); [done|].
    rewrite lookup_insert_ne by (intros Hf; apply Hfresh; by rewrite Hl, Hf).
    rewrite Hl. simpl. by rewrite lookup_delete_eq. }
  split.
  - unfold PushBack. destruct (Z.eqb_spec (size_ v) (capacity_ v)); [|lia].
    rewrite source_capacity_test by (done || lia).
    erewrite bind_ok by (by apply Reserve_grow).
    apply bind_undefined. cbn [read_reference]. apply Hload.
  - unfold PushBack_move.
    destruct (Z.eqb_spec (size_ v) (capacity_ v)); [|lia].
    rewrite source_capacity_test by (done || lia).
    erewrite bind_ok by (by apply Reserve_grow).
    apply bind_undefined. cbn [move_assign_from].
    apply bind_undefined, Hload.
Qed.

(** ** Sequences of appends *)

Lemma PushBack_move_PushBack x v h :
  PushBack_move (ref_object x) v h =
    match PushBack (ref_object x) v h with
    | Ok (v', h') => Ok ((v', ref_object (moved_from x)), h')
    | Throw e => Throw e
    | Undefined => Undefined
    end.
Proof.
  unfold PushBack_move, PushBack, move_assign_from, read_reference.
  destruct (size_ v =? capacity_ v); unfold bind, ret.
  - destruct (Reserve _ v h) as [[v1 h1]| |]; [|done..].
    by destruct (store _ x h1) as [[[] h2]| |].
  - by destruct (store _ x h) as [[[] h2]| |].
Qed.

Lemma push_back_call_PushBack call v h :
  push_back_call call v h = PushBack (ref_object call.2) v h.
Proof.
  unfold push_back_call. destruct call as [[] x]; [|done]. simpl.
  unfold bind. rewrite PushBack_move_PushBack.
  by destruct (PushBack (ref_object x) v h) as [[v' h']| |].
Qed.

Lemma push_back_all_app calls1 : ∀ calls2 v h,
  push_back_all (calls1 ++ calls2) v h =
    bind (push_back_all calls1 v) (push_back_all calls2) h.
Proof.
  induction calls1 as [|c calls1 IH]; intros calls2 v h; [done|].
  cbn [push_back_all app]. unfold bind.
  destruct (push_back_call c v h) as [[v' h']| |]; [|done..].
  rewrite IH. done.
Qed.

Lemma capacity_sequence_shape n :
  match n with
  | O => capacity_sequence n = 0
  | S _ => ∃ k, 0 <= k ∧ capacity_sequence n = 2 ^ k ∧
                Z.of_nat n <= 2 ^ k < 2 * Z.of_nat n
  end.
Proof.
  induction n as [|n IH]; [done|]. cbn [capacity_sequence].
  destruct n as [|n].
  - exists 0. unfold grown_capacity. simpl. lia.
  - destruct IH as (k & Hk & -> & Hlo & Hhi).
    destruct (Z.eqb_spec (Z.of_nat (S n)) (2 ^ k)) as [Heq|Hne].
    + exists (k + 1). unfold grown_capacity.
      destruct (Z.eqb_spec (2 ^ k) 0); [lia|].
      rewrite Z.pow_add_r by lia. lia.
    + exists k. lia.
Qed.

Lemma capacity_sequence_ge n : Z.of_nat n <= capacity_sequence n.
Proof.
  pose proof (capacity_sequence_shape n) as H. destruct n; [simpl; lia|].
  destruct H as (k & _ & -> & ? & _). lia.
Qed.

Lemma capacity_sequence_mono n :
  capacity_sequence n <= capacity_sequence (S n).
Proof.
  pose proof (capacity_sequence_ge n). cbn [capacity_sequence].
  destruct (Z.eqb_spec (Z.of_nat n) (capacity_sequence n)); [|lia].
  pose proof (grown_capacity_gt (capacity_sequence n)). lia.
Qed.

Lemma wf_default h : wf h SimpleVector_default.
Proof.
  unfold wf. simpl. rewrite PTRDIFF_MAX_eq. repeat split; try lia.
  by exists [].
Qed.

Lemma push_back_all_run calls : ∀ h0,
  (∀ c, 0 <= c <= 2 * Z.of_nat (length calls) → can_alloc c = true) →
  ∃ v h,
    push_back_all calls SimpleVector_default h0 = Ok (v, h) ∧ wf h v ∧
    size_ v = Z.of_nat (length calls) ∧
    capacity_ v = capacity_sequence (length calls) ∧
    elements h v = calls.*2.
Proof.
  induction calls as [|call calls IH] using rev_ind; intros h0 Halloc.
  - exists SimpleVector_default, h0. split; [done|].
    split; [apply wf_default|]. done.
  - rewrite length_app in Halloc. cbn [length] in Halloc.
    destruct (IH h0) as (v & h & Hrun & Hwf & Hsz & Hcap & Hel).
    { intros c Hc. apply Halloc. lia. }
    pose proof (capacity_sequence_ge (length calls)) as Hge.
    destruct (PushBack_spec h v call.2 Hwf)
      as (v' & h' & Hpush & Hwf' & _ & Hsz' & Hcap' & Hel' & _).
    { intros Heq. apply Halloc. rewrite Hcap in *.
      unfold grown_capacity.
      destruct (Z.eqb_spec (capacity_sequence (length calls)) 0); lia. }
    exists v', h'. rewrite push_back_all_app.
    erewrite bind_ok by exact Hrun. cbn [push_back_all].
    erewrite bind_ok by (rewrite push_back_call_PushBack; exact Hpush).
    split; [done|]. split; [done|].
    rewrite length_app, Nat.add_1_r. cbn [length capacity_sequence].
    rewrite Hsz', Hcap', Hel', Hsz, Hcap, Hel, fmap_app.
    split; [lia|]. done.
Qed.

(** X25: after any sequence of appends (by copy or by move) of objects
    outside the heap to an empty container, made while the allocator
    grants the blocks asked for, the size is the number of appends, the elements are the appended values in
    order, and the capacity is the term of the doubling sequence
    0, 1, 2, 4, 8, ...: an append that finds size = capacity makes it 1 if
    it was 0 and twice the capacity otherwise, the sequence never
    decreases, every positive term is a power of two, and the capacity is
    never below the size. *)
Theorem push_back_follows_doubling_policy (calls : list (bool * T)) h0 :
  (∀ c, 0 <= c <= 2 * Z.of_nat (length calls) → can_alloc c = true) →
  ∃ v h,
    push_back_all calls SimpleVector_default h0 = Ok (v, h) ∧
    GetSize v = Z.of_nat (length calls) ∧
    elements h v = calls.*2 ∧
    GetCapacity v = capacity_sequence (length calls) ∧
    GetSize v <= GetCapacity v ∧
    (∀ n, capacity_sequence (S n) =
          if Z.of_nat n =? capacity_sequence n
          then (if capacity_sequence n =? 0 then 1
                else 2 * capacity_sequence n)
          else capacity_sequence n) ∧
    (∀ n, capacity_sequence n <= capacity_sequence (S n)) ∧
    (∀ n, capacity_sequence n = 0 ∨
          ∃ k, 0 <= k ∧ capacity_sequence n = 2 ^ k).
Proof.
  intros Halloc.
  destruct (push_back_all_run calls h0 Halloc)
    as (v & h & Hrun & Hwf & Hsz & Hcap & Hel).
  exists v, h. unfold GetSize, GetCapacity.
  split; [done|]. split; [done|]. split; [done|]. split; [done|].
  split; [destruct Hwf; lia|]. split; [done|].
  split; [apply capacity_sequence_mono|].
  intros n. pose proof (capacity_sequence_shape n) as H.
  destruct n; [by left|]. right.
  destruct H as (k & ? & ? & _). by exists k.
Qed.

(** ** Insert *)

Lemma release_block_insert h (p : ArrayPtr) l blk :
  p ≠ Some l →
  release_block (<[l := blk]> h) p = <[l := blk]> (release_block h p).
Proof.
  intros Hne. destruct p as [ls|]; simpl; [|done].
  rewrite delete_insert_ne; [done|congruence].
Qed.

Lemma block_of_insert h (p : ArrayPtr) l blk :
  p ≠ Some l → block_of (<[l := blk]> h) p = block_of h p.
Proof.
  intros Hne. destruct p as [ls|]; simpl; [|done].
  rewrite lookup_insert_ne; [done|congruence].
Qed.

Lemma pos_in_range_ok h v (i : Z) :
  0 <= i <= size_ v →
  pos_in_range (ptr_add (begin v) i) v h = Ok (true, h).
Proof.
  intros Hi. unfold pos_in_range, ptr_le, begin.
  cbn [ArrayPtr_Get ptr_add ptr_diff].
  rewrite !decide_True by done. cbn [lift_option].
  erewrite bind_ok by (erewrite bind_ok by done; done).
  erewrite bind_ok by (erewrite bind_ok by done; done).
  unfold ret. do 2 f_equal.
  destruct (Z.leb_spec 0 (0 + i - 0)); [|lia].
  destruct (Z.leb_spec 0 (0 + size_ v - (0 + i))); [done|lia].
Qed.

Lemma pos_in_range_out h v (i : Z) :
  ¬ 0 <= i <= size_ v →
  pos_in_range (ptr_add (begin v) i) v h = Ok (false, h).
Proof.
  intros Hi. unfold pos_in_range, ptr_le, begin.
  cbn [ArrayPtr_Get ptr_add ptr_diff].
  rewrite !decide_True by done. cbn [lift_option].
  erewrite bind_ok by (erewrite bind_ok by done; done).
  erewrite bind_ok by (erewrite bind_ok by done; done).
  unfold ret. do 2 f_equal.
  destruct (Z.leb_spec 0 (0 + i - 0));
    destruct (Z.leb_spec 0 (0 + size_ v - (0 + i))); try done. lia.
Qed.

Lemma std_distance_ok h v (i : Z) h' :
  wf h v → 0 <= i <= size_ v →
  std_distance (ArrayPtr_Get (items_ v)) (ptr_add (begin v) i) h'
  = Ok (i, h').
Proof.
  intros Hwf Hi. destruct Hwf as (Hs & Hc & _). rewrite PTRDIFF_MAX_eq in Hc.
  unfold std_distance, begin. cbn [ArrayPtr_Get ptr_add ptr_diff].
  rewrite decide_True by done. cbn [lift_option].
  erewrite bind_ok by done. unfold ret. do 2 f_equal.
  rewrite size_t_wrap_small; lia.
Qed.

Lemma insert_capacity_source v :
  0 <= size_ v <= capacity_ v → capacity_ v <= PTRDIFF_MAX →
  (if size_ v =? capacity_ v
   then (if size_ v =? 0 then 1 else size_t_wrap (capacity_ v * 2))
   else capacity_ v) = insert_capacity v.
Proof.
  intros Hs Hc. unfold insert_capacity.
  destruct (Z.eqb_spec (size_ v) (capacity_ v)); [|done].
  apply source_capacity_test; [done|lia].
Qed.

Lemma insert_capacity_gt v :
  0 <= size_ v <= capacity_ v → size_ v < insert_capacity v.
Proof.
  intros Hs. unfold insert_capacity.
  destruct (Z.eqb_spec (size_ v) (capacity_ v)); [|lia].
  pose proof (grown_capacity_gt (capacity_ v)). lia.
Qed.

Lemma inserted_block_steps blk x (ni ns nc : nat) :
  (ni ≤ ns)%nat → (ns < nc)%nat → (ns ≤ length blk)%nat →
  let fresh_block := replicate nc default_T in
  let b1 := take 0 fresh_block ++ take ni (drop 0 blk) ++ drop ni fresh_block in
  let b2 := <[ni := x]> b1 in
  let b3 := take (S ni) b2 ++ take (ns - ni) (drop ni blk) ++ drop (S ns) b2 in
  take (S ns) b3 ++ replicate (nc - ns - 1) default_T ++ drop nc b3
  = inserted_block (take ns blk) ni x nc.
Proof.
  intros Hi Hs Hb fresh_block b1 b2 b3.
  assert (b1 = take ni blk ++ replicate (nc - ni) default_T) as E1.
  { unfold b1, fresh_block. rewrite take_0, drop_0, drop_replicate. done. }
  assert (b2 = take ni blk ++ x :: replicate (nc - ni - 1) default_T) as E2.
  { unfold b2. rewrite E1. clear -Hi Hs Hb. blocks_eq. }
  assert (b3 = take ni blk ++ x :: take (ns - ni) (drop ni blk)
                 ++ replicate (nc - ns - 1) default_T) as E3.
  { unfold b3. rewrite E2. clear -Hi Hs Hb.
    change (take ni blk ++ x :: replicate (nc - ni - 1) default_T)
      with (take ni blk ++ [x] ++ replicate (nc - ni - 1) default_T).
    rewrite (app_assoc (take ni blk) [x]).
    assert (length (take ni blk ++ [x]) = S ni) as Hlen.
    { rewrite length_app, length_take. simpl. lia. }
    rewrite take_app_length' by done.
    rewrite drop_app_ge by lia. rewrite Hlen, drop_replicate.
    rewrite <- app_assoc. cbn [app]. list_arith. }
  rewrite E3. unfold inserted_block. clear -Hi Hs Hb.
  rewrite length_take_le by lia. rewrite take_take, Nat.min_l by lia.
  rewrite (take_drop_commute blk (ns - ni) ni).
  replace (ni + (ns - ni))%nat with ns by lia.
  set (tl := drop ni (take ns blk)).
  assert (length tl = ns - ni)%nat as Htl.
  { unfold tl. rewrite length_drop, length_take. lia. }
  set (rest := replicate (nc - ns - 1) default_T).
  change (take ni blk ++ x :: tl ++ rest)
    with (take ni blk ++ (x :: tl) ++ rest).
  rewrite (app_assoc (take ni blk) (x :: tl) rest).
  rewrite take_app_length'.
  2:{ rewrite length_app, length_take, length_cons. lia. }
  rewrite drop_ge.
  2:{ unfold rest.
      rewrite !length_app, length_take, length_cons, length_replicate. lia. }
  rewrite app_nil_r, <- app_assoc. done.
Qed.

Lemma read_reference_fresh h (value : reference) x blk :
  read_reference value h = Ok (x, h) →
  read_reference value (<[fresh (dom h) := blk]> h)
  = Ok (x, <[fresh (dom h) := blk]> h).
Proof.
  intros Hread. destruct value as [y|[[l|] off]]; cbn in *.
  - by injection Hread as ->.
  - unfold load in *. destruct (off <? 0); [done|].
    destruct (h !! l) as [b|] eqn:Hl; [|done].
    rewrite lookup_insert_ne by (intros <-; by rewrite fresh_loc_None in Hl).
    rewrite Hl. destruct (b !! Z.to_nat off); [|done].
    by injection Hread as ->.
  - done.
Qed.

(** [Insert(pos, const Type&)] with an argument bound to any object that
    can be read, a slot of the container's own block included. *)
Lemma Insert_by_reference h v (i : Z) (value : reference) x :
  wf h v → 0 <= i <= size_ v → can_alloc (insert_capacity v) = true →
  read_reference value h = Ok (x, h) →
  Insert (ptr_add (begin v) i) value v h =
    Ok (Ptr (Some (fresh (dom h))) i,
        mkSimpleVector (size_ v + 1) (insert_capacity v)
          (Some (fresh (dom h))),
        <[fresh (dom h) :=
            inserted_block (elements h v) (Z.to_nat i) x
              (Z.to_nat (insert_capacity v))]>
          (release_block h (items_ v))).
Proof.
  intros Hwf Hi Hc Hread. pose proof (can_alloc_bound _ Hc) as Hb.
  pose proof (wf_not_fresh _ _ Hwf) as Hfresh.
  pose proof (wf_block _ _ Hwf) as Hblk.
  pose proof (wf_length _ _ Hwf) as Hlen.
  pose proof (elements_length _ _ Hwf) as Hel.
  pose proof Hwf as (Hsz & Hcap & _).
  pose proof (insert_capacity_gt v Hsz) as Hgt.
  assert (size_t_wrap (size_ v + 1) = size_ v + 1) as Hw.
  { apply size_t_wrap_small. rewrite PTRDIFF_MAX_eq in Hcap. lia. }
  unfold Insert.
  erewrite bind_ok by (by apply pos_in_range_ok).
  cbn [assert]. erewrite bind_ok by done.
  rewrite insert_capacity_source by done.
  erewrite bind_ok by (by apply ArrayPtr_new_ok).
  set (l := fresh (dom h)) in *. set (c := insert_capacity v) in *.
  erewrite bind_ok by (by eapply std_distance_ok).
  unfold begin. rewrite (ArrayPtr_Get_add_0 (items_ v)) at 1.
  change (ArrayPtr_Get (Some l)) with (Ptr (Some l) 0).
  erewrite bind_ok.
  2:{ eapply std_copy_ok; [done| |by apply lookup_insert_eq|..].
      - rewrite block_of_insert by done. exact Hblk.
      - lia.
      - lia.
      - lia.
      - rewrite length_replicate. lia. }
  rewrite insert_insert_eq.
  erewrite bind_ok by (by apply read_reference_fresh).
  unfold ArrayPtr_index. rewrite ptr_add_Get_nat by lia.
  erewrite bind_ok.
  2:{ eapply store_ok; [by apply lookup_insert_eq|].
      rewrite !length_app, length_take, length_drop, length_replicate.
      rewrite length_take, length_drop. lia. }
  rewrite insert_insert_eq. rewrite Hw.
  cbn [ptr_add]. rewrite !Z.add_0_l.
  erewrite bind_ok.
  2:{ eapply std_copy_backward_ok; [done| |by apply lookup_insert_eq|..].
      - rewrite block_of_insert by done. exact Hblk.
      - lia.
      - lia.
      - lia.
      - rewrite length_insert.
        rewrite !length_app, length_take, length_drop, length_replicate.
        rewrite length_take, length_drop. lia. }
  rewrite insert_insert_eq.
  erewrite bind_ok.
  2:{ eapply std_fill_ok; [by apply lookup_insert_eq|lia|].
      rewrite !length_app, !length_take, !length_drop, length_insert.
      rewrite !length_app, length_take, length_drop, length_replicate.
      rewrite length_take, length_drop. lia. }
  rewrite insert_insert_eq. cbn [ArrayPtr_swap].
  erewrite bind_ok by apply ArrayPtr_delete_ok.
  unfold ret. rewrite release_block_insert by done.
  replace (ptr_add (ArrayPtr_Get (Some l)) i) with (Ptr (Some l) i)
    by (simpl; f_equal; lia).
  do 3 f_equal. unfold elements.
  change (Z.to_nat 0) with 0%nat.
  replace (Z.to_nat (size_ v + 1 - (size_ v - i)))
    with (S (Z.to_nat i)) by lia.
  replace (Z.to_nat (size_ v - i))
    with (Z.to_nat (size_ v) - Z.to_nat i)%nat by lia.
  replace (Z.to_nat (size_ v + 1)) with (S (Z.to_nat (size_ v))) by lia.
  replace (Z.to_nat (c - (size_ v + 1)))
    with (Z.to_nat c - Z.to_nat (size_ v) - 1)%nat by lia.
  rewrite Z.sub_0_r.
  apply inserted_block_steps; lia.
Qed.

Lemma Insert_ok h v (i : Z) x :
  wf h v → 0 <= i <= size_ v → can_alloc (insert_capacity v) = true →
  Insert (ptr_add (begin v) i) (ref_object x) v h =
    Ok (Ptr (Some (fresh (dom h))) i,
        mkSimpleVector (size_ v + 1) (insert_capacity v)
          (Some (fresh (dom h))),
        <[fresh (dom h) :=
            inserted_block (elements h v) (Z.to_nat i) x
              (Z.to_nat (insert_capacity v))]>
          (release_block h (items_ v))).
Proof. intros Hwf Hi Hc. by apply Insert_by_reference. Qed.

Lemma block_of_update h (p : ArrayPtr) src blk :
  block_of h p = Some src → length blk = length src →
  block_of (update_block h p blk) p = Some blk.
Proof.
  intros Hp Hlen. destruct p as [ls|]; simpl.
  - apply lookup_insert_eq.
  - injection Hp as <-. by destruct blk.
Qed.

Lemma update_block_insert h (p : ArrayPtr) l blk old :
  p ≠ Some l →
  update_block (<[l := blk]> h) p old = <[l := blk]> (update_block h p old).
Proof.
  intros Hne. destruct p as [ls|]; simpl; [|done].
  rewrite insert_insert_ne; [done|congruence].
Qed.

Lemma update_block_twice h (p : ArrayPtr) b1 b2 :
  update_block (update_block h p b1) p b2 = update_block h p b2.
Proof. destruct p; simpl; [apply insert_insert_eq|done]. Qed.

Lemma release_block_update h (p : ArrayPtr) blk :
  release_block (update_block h p blk) p = release_block h p.
Proof. destruct p; simpl; [apply delete_insert_eq|done]. Qed.

Lemma moved_prefix_length src (a n : nat) :
  length (take a src ++ (moved_from <$> take n (drop a src))
          ++ drop (a + n) src) = length src.
Proof.
  rewrite !length_app, length_fmap, !length_take, !length_drop. lia.
Qed.

(** [Insert(pos, Type&&)], given what the move assignment from [value]
    does once the elements before [pos] have been moved out of the old
    block: it puts [y] into the slot and leaves the old block with its
    length and with the elements from [pos] on as they were. *)
Lemma Insert_move_by_reference h v (i : Z) (value : reference) y :
  wf h v → 0 <= i <= size_ v → can_alloc (insert_capacity v) = true →
  (∀ src1 new1,
     length src1 = length (storage h v) →
     take (Z.to_nat i) src1 = moved_from <$> take (Z.to_nat i) (storage h v) →
     drop (Z.to_nat i) src1 = drop (Z.to_nat i) (storage h v) →
     (Z.to_nat i < length new1)%nat →
     ∃ r' src2,
       move_assign_from (Ptr (Some (fresh (dom h))) (Z.of_nat (Z.to_nat i)))
         value (<[fresh (dom h) := new1]> (update_block h (items_ v) src1))
       = Ok (r', <[fresh (dom h) := <[Z.to_nat i := y]> new1]>
                   (update_block h (items_ v) src2)) ∧
       length src2 = length (storage h v) ∧
       drop (Z.to_nat i) src2 = drop (Z.to_nat i) (storage h v)) →
  Insert_move (ptr_add (begin v) i) value v h =
    Ok (Ptr (Some (fresh (dom h))) i,
        mkSimpleVector (size_ v + 1) (insert_capacity v)
          (Some (fresh (dom h))),
        <[fresh (dom h) :=
            inserted_block (elements h v) (Z.to_nat i) y
              (Z.to_nat (insert_capacity v))]>
          (release_block h (items_ v))).
Proof.
  intros Hwf Hi Hc Hstep. pose proof (can_alloc_bound _ Hc) as Hb.
  pose proof (wf_not_fresh _ _ Hwf) as Hfresh.
  pose proof (wf_block _ _ Hwf) as Hblk.
  pose proof (wf_length _ _ Hwf) as Hlen.
  pose proof Hwf as (Hsz & Hcap & _).
  pose proof (insert_capacity_gt v Hsz) as Hgt.
  assert (size_t_wrap (size_ v + 1) = size_ v + 1) as Hw.
  { apply size_t_wrap_small. rewrite PTRDIFF_MAX_eq in Hcap. lia. }
  unfold Insert_move.
  erewrite bind_ok by (by apply pos_in_range_ok).
  cbn [assert]. erewrite bind_ok by done.
  rewrite insert_capacity_source by done.
  erewrite bind_ok by (by apply ArrayPtr_new_ok).
  set (l := fresh (dom h)) in *. set (c := insert_capacity v) in *.
  erewrite bind_ok by (by eapply std_distance_ok).
  unfold begin. rewrite (ArrayPtr_Get_add_0 (items_ v)) at 1.
  change (ArrayPtr_Get (Some l)) with (Ptr (Some l) 0).
  erewrite bind_ok.
  2:{ eapply std_move_ok; [done| |by apply lookup_insert_eq|..].
      - rewrite block_of_insert by done. exact Hblk.
      - lia.
      - lia.
      - lia.
      - rewrite length_replicate. lia. }
  rewrite update_block_insert, insert_insert_eq by done.
  change (Z.to_nat 0) with 0%nat. rewrite !Z.sub_0_r.
  set (src1 := take 0 (storage h v) ++ _ ++ drop (Z.to_nat i) (storage h v)).
  assert (length src1 = length (storage h v)) as Hlen1.
  { unfold src1. rewrite drop_0. apply (moved_prefix_length _ 0). }
  assert (drop (Z.to_nat i) src1 = drop (Z.to_nat i) (storage h v)) as Hdrop.
  { unfold src1. rewrite take_0, drop_0. cbn [app].
    rewrite drop_app_length'; [done|].
    rewrite length_fmap, length_take. lia. }
  assert (take (Z.to_nat i) src1
          = moved_from <$> take (Z.to_nat i) (storage h v)) as Htake.
  { unfold src1. rewrite take_0, drop_0. cbn [app].
    rewrite take_app_length'; [done|].
    rewrite length_fmap, length_take. lia. }
  unfold ArrayPtr_index. rewrite ptr_add_Get_nat by lia.
  match goal with
  | |- bind (move_assign_from _ _) _ (<[l := ?new1]> _) = _ =>
      destruct (Hstep src1 new1 Hlen1 Htake Hdrop)
        as (r' & src2 & Hrun & Hlen2 & Hdrop2)
  end.
  { rewrite !length_app, length_take, length_drop, length_replicate.
    rewrite length_take, length_drop. lia. }
  erewrite bind_ok by exact Hrun. clear Hrun.
  rewrite Hw.
  cbn [ptr_add]. rewrite !Z.add_0_l.
  erewrite bind_ok.
  2:{ eapply std_move_backward_ok; [done| |by apply lookup_insert_eq|..].
      - rewrite block_of_insert by done.
        eapply block_of_update; [exact Hblk|exact Hlen2].
      - lia.
      - lia.
      - lia.
      - rewrite length_insert.
        rewrite !length_app, length_take, length_drop, length_replicate.
        rewrite length_take, length_drop. lia. }
  rewrite update_block_insert, insert_insert_eq, update_block_twice by done.
  rewrite Hdrop2.
  erewrite bind_ok.
  2:{ eapply std_generate_default_ok; [by apply lookup_insert_eq|lia|].
      rewrite !length_app, !length_take, !length_drop, length_insert.
      rewrite !length_app, length_take, length_drop, length_replicate.
      rewrite length_take, length_drop. lia. }
  rewrite insert_insert_eq. unfold ArrayPtr_move_assign.
  erewrite bind_ok.
  2:{ erewrite bind_ok by apply ArrayPtr_delete_ok. done. }
  cbv beta iota. erewrite bind_ok by apply ArrayPtr_delete_ok.
  unfold ret. cbn [release_block ArrayPtr_default].
  rewrite release_block_insert, release_block_update by done.
  replace (ptr_add (ArrayPtr_Get (Some l)) i) with (Ptr (Some l) i)
    by (simpl; f_equal; lia).
  do 3 f_equal. unfold elements.
  replace (Z.to_nat (size_ v + 1 - (size_ v - i)))
    with (S (Z.to_nat i)) by lia.
  replace (Z.to_nat (size_ v - i))
    with (Z.to_nat (size_ v) - Z.to_nat i)%nat by lia.
  replace (Z.to_nat (size_ v + 1)) with (S (Z.to_nat (size_ v))) by lia.
  replace (Z.to_nat (c - (size_ v + 1)))
    with (Z.to_nat c - Z.to_nat (size_ v) - 1)%nat by lia.
  apply inserted_block_steps; lia.
Qed.

Lemma Insert_move_ok h v (i : Z) x :
  wf h v → 0 <= i <= size_ v → can_alloc (insert_capacity v) = true →
  Insert_move (ptr_add (begin v) i) (ref_object x) v h =
    Ok (Ptr (Some (fresh (dom h))) i,
        mkSimpleVector (size_ v + 1) (insert_capacity v)
          (Some (fresh (dom h))),
        <[fresh (dom h) :=
            inserted_block (elements h v) (Z.to_nat i) x
              (Z.to_nat (insert_capacity v))]>
          (release_block h (items_ v))).
Proof.
  intros Hwf Hi Hc. apply Insert_move_by_reference; [done..|].
  intros src1 new1 Hlen1 _ Hdrop Hnew.
  exists (ref_object (moved_from x)), src1. split; [|done].
  cbn [move_assign_from].
  erewrite bind_ok by (eapply store_ok; [apply lookup_insert_eq|done]).
  by rewrite insert_insert_eq.
Qed.

(** The rvalue is an element of the container that lies before [pos]:
    [std::move] has already moved it to the new block, so what is
    inserted is the moved-from value it left behind. *)
Lemma Insert_move_of_moved_element h v (i j : Z) x :
  wf h v → 0 <= j < i → i <= size_ v →
  can_alloc (insert_capacity v) = true →
  elements h v !! Z.to_nat j = Some x →
  Insert_move (ptr_add (begin v) i) (ref_slot (ptr_add (begin v) j)) v h =
    Ok (Ptr (Some (fresh (dom h))) i,
        mkSimpleVector (size_ v + 1) (insert_capacity v)
          (Some (fresh (dom h))),
        <[fresh (dom h) :=
            inserted_block (elements h v) (Z.to_nat i) (moved_from x)
              (Z.to_nat (insert_capacity v))]>
          (release_block h (items_ v))).
Proof.
  intros Hwf Hj Hi Hc Hx. pose proof (wf_not_fresh _ _ Hwf) as Hfresh.
  pose proof Hwf as (Hsz & _).
  destruct (wf_items_Some _ _ Hwf) as (lo & Hlo & Hblk); [lia|].
  unfold elements in Hx. rewrite lookup_take_lt in Hx by lia.
  apply Insert_move_by_reference; [done|lia|done|].
  intros src1 new1 Hlen1 Htake Hdrop Hnew. rewrite Hlo in *.
  assert (lo ≠ fresh (dom h)) as Hne by congruence.
  assert (src1 !! Z.to_nat j = Some (moved_from x)) as Hsrc.
  { rewrite <- (lookup_take_lt src1 (Z.to_nat i)) by lia.
    rewrite Htake, list_lookup_fmap, lookup_take_lt by lia.
    by rewrite Hx. }
  assert (Z.to_nat j < length src1)%nat as Hjlen
    by (by eapply lookup_lt_Some).
  exists (ref_slot (ptr_add (begin v) j)),
    (<[Z.to_nat j := moved_from (moved_from x)]> src1).
  split; [|split].
  - unfold begin, ArrayPtr_Get. rewrite Hlo. cbn [ptr_add update_block].
    replace (0 + j) with (Z.of_nat (Z.to_nat j)) by lia.
    cbn [move_assign_from].
    erewrite bind_ok.
    2:{ eapply load_ok; [|exact Hsrc].
        by rewrite lookup_insert_ne, lookup_insert_eq. }
    erewrite bind_ok by (eapply store_ok; [apply lookup_insert_eq|done]).
    rewrite insert_insert_eq.
    erewrite bind_ok.
    2:{ eapply store_ok; [|exact Hjlen].
        by rewrite lookup_insert_ne, lookup_insert_eq. }
    unfold ret. do 2 f_equal.
    rewrite (insert_insert_ne _ lo) by done. by rewrite insert_insert_eq.
  - by rewrite length_insert.
  - rewrite drop_insert_lt by lia. done.
Qed.

(** ** PopBack and Erase *)

Lemma PopBack_ok h v :
  0 < size_ v < 2 ^ 64 → PopBack v h = Ok (set_size_ (size_ v - 1) v, h).
Proof.
  intros Hs. unfold PopBack, IsEmpty.
  destruct (Z.eqb_spec (size_ v) 0); [lia|]. cbn [negb assert].
  erewrite bind_ok by done. by rewrite size_t_wrap_small by lia.
Qed.

Lemma PopBack_empty h v : size_ v = 0 → PopBack v h = Undefined.
Proof. intros Hs. unfold PopBack, IsEmpty. by rewrite Hs. Qed.

Lemma Erase_ok h v (i : Z) :
  wf h v → 0 <= i < size_ v →
  ∃ l, items_ v = Some l ∧
    Erase (ptr_add (begin v) i) v h =
      Ok (Ptr (Some l) i, set_size_ (size_ v - 1) v,
          <[l := shifted_left (Z.to_nat i) (Z.to_nat (size_ v - (i + 1)))
                   (storage h v)]> h).
Proof.
  intros Hwf Hi. pose proof (wf_length _ _ Hwf) as Hlen.
  pose proof Hwf as (Hsz & Hcap & _). rewrite PTRDIFF_MAX_eq in Hcap.
  destruct (wf_items_Some _ _ Hwf) as (l & Hl & Hblk); [lia|].
  exists l. split; [done|]. unfold Erase, IsEmpty.
  destruct (Z.eqb_spec (size_ v) 0); [lia|]. cbn [negb assert].
  erewrite bind_ok by done.
  erewrite bind_ok by (apply pos_in_range_ok; lia).
  cbn [assert]. erewrite bind_ok by done.
  erewrite bind_ok by (eapply std_distance_ok; [done|lia]).
  unfold begin. rewrite Hl. cbn [ArrayPtr_Get ptr_add].
  rewrite !Z.add_0_l.
  erewrite bind_ok by (eapply std_move_left_ok; [done|lia..]).
  unfold ret, ArrayPtr_index. cbn [set_size_ items_]. rewrite Hl.
  cbn [ArrayPtr_Get ptr_add]. rewrite Z.add_0_l.
  by rewrite size_t_wrap_small by lia.
Qed.

Lemma shifted_left_length p n blk :
  (p + n < length blk)%nat → length (shifted_left p n blk) = length blk.
Proof.
  intros Hn. destruct n as [|n]; [done|]. unfold shifted_left.
  rewrite !length_app, length_fmap, !length_take, !length_drop. lia.
Qed.

(** The present elements after erasing slot [p] of [s] present ones. *)
Lemma shifted_left_take p s blk :
  (p < s)%nat → (s ≤ length blk)%nat →
  take (s - 1) (shifted_left p (s - (p + 1)) blk)
  = take p (take s blk) ++ drop (S p) (take s blk).
Proof.
  intros Hp Hs. rewrite take_take, Nat.min_l by lia.
  destruct (s - (p + 1))%nat as [|n] eqn:En.
  - cbn [shifted_left]. assert (s = S p) as -> by lia.
    rewrite drop_ge by (rewrite length_take; lia).
    rewrite app_nil_r. f_equal. lia.
  - unfold shifted_left.
    rewrite app_assoc.
    assert (length (take p blk ++ take (S n) (drop (S p) blk)) = (s - 1)%nat)
      as Hlen.
    { rewrite length_app, !length_take, length_drop. lia. }
    rewrite take_app_length' by done. f_equal.
    rewrite take_drop_commute. list_arith.
Qed.

(** The slots past the new size after erasing slot [p]: the vacated last
    slot, whatever it holds, then the old tail. *)
Lemma shifted_left_drop p s blk :
  (p < s)%nat → (s ≤ length blk)%nat →
  drop (s - 1) (shifted_left p (s - (p + 1)) blk)
  = (if decide (s = S p) then take 1 (drop p blk)
     else moved_from <$> take 1 (drop (s - 1) blk))
    ++ drop s blk.
Proof.
  intros Hp Hs. case_decide as Hd.
  - subst s. replace (S p - (p + 1))%nat with 0%nat by lia.
    cbn [shifted_left]. replace (S p - 1)%nat with p by lia.
    rewrite <- (take_drop 1 (drop p blk)) at 1. f_equal.
    rewrite drop_drop. list_arith.
  - destruct (s - (p + 1))%nat as [|n] eqn:En; [lia|].
    unfold shifted_left. rewrite app_assoc.
    assert (length (take p blk ++ take (S n) (drop (S p) blk)) = (s - 1)%nat)
      as Hlen.
    { rewrite length_app, !length_take, length_drop. lia. }
    rewrite drop_app_length' by done. list_arith.
Qed.

(** ** Resize *)

Lemma Resize_same h v : Resize (size_ v) v h = Ok (v, h).
Proof. unfold Resize. by rewrite Z.eqb_refl. Qed.

Lemma Resize_shrink h v new_size :
  wf h v → new_size < size_ v →
  Resize new_size v h = Ok (set_size_ new_size v, h).
Proof.
  intros (Hs & _) Hn. unfold Resize.
  destruct (Z.eqb_spec (size_ v) new_size); [lia|].
  destruct (Z.ltb_spec (size_ v) new_size); [lia|].
  rewrite andb_false_r.
  destruct (Z.ltb_spec (capacity_ v) new_size); [lia|].
  by erewrite bind_ok by done.
Qed.

Lemma Resize_within h v new_size :
  wf h v → size_ v < new_size <= capacity_ v →
  ∃ l, items_ v = Some l ∧
    Resize new_size v h =
      Ok (set_size_ new_size v,
          <[l := elements h v
                 ++ replicate (Z.to_nat (new_size - size_ v)) default_T
                 ++ drop (Z.to_nat new_size) (storage h v)]> h).
Proof.
  intros Hwf Hn. pose proof (wf_length _ _ Hwf) as Hlen.
  pose proof Hwf as (Hsz & Hcap & _).
  destruct (wf_items_Some _ _ Hwf) as (l & Hl & Hblk); [lia|].
  exists l. split; [done|]. unfold Resize.
  destruct (Z.eqb_spec (size_ v) new_size); [lia|].
  destruct (Z.leb_spec new_size (capacity_ v)); [|lia].
  destruct (Z.ltb_spec (size_ v) new_size); [|lia]. cbn [andb].
  rewrite Hl. cbn [ArrayPtr_Get ptr_add]. rewrite !Z.add_0_l.
  erewrite bind_ok.
  2:{ erewrite bind_ok by (eapply std_generate_default_ok; [done|lia..]).
      done. }
  done.
Qed.

Lemma Resize_grow h v new_size :
  wf h v → capacity_ v < new_size →
  can_alloc (resize_capacity new_size v) = true →
  Resize new_size v h =
    Ok (mkSimpleVector new_size (resize_capacity new_size v)
          (Some (fresh (dom h))),
        <[fresh (dom h) :=
            elements h v
            ++ replicate (Z.to_nat (resize_capacity new_size v - size_ v))
                 default_T]>
          (release_block h (items_ v))).
Proof.
  intros Hwf Hn Hc. pose proof Hwf as (Hsz & Hcap & _).
  rewrite PTRDIFF_MAX_eq in Hcap. unfold Resize.
  destruct (Z.eqb_spec (size_ v) new_size); [lia|].
  destruct (Z.leb_spec new_size (capacity_ v)); [lia|]. cbn [andb].
  destruct (Z.ltb_spec (capacity_ v) new_size); [|lia].
  rewrite size_t_wrap_small by lia.
  replace (capacity_ v * 2) with (2 * capacity_ v) by lia.
  fold (resize_capacity new_size v).
  erewrite bind_ok.
  2:{ apply Reserve_grow; [done| |done]. unfold resize_capacity. lia. }
  done.
Qed.

Lemma Resize_fail h v new_size :
  wf h v → capacity_ v < new_size →
  can_alloc (resize_capacity new_size v) = false →
  Resize new_size v h = Throw bad_alloc.
Proof.
  intros Hwf Hn Hc. pose proof Hwf as (Hsz & Hcap & _).
  rewrite PTRDIFF_MAX_eq in Hcap. unfold Resize.
  destruct (Z.eqb_spec (size_ v) new_size); [lia|].
  destruct (Z.leb_spec new_size (capacity_ v)); [lia|]. cbn [andb].
  destruct (Z.ltb_spec (capacity_ v) new_size); [|lia].
  rewrite size_t_wrap_small by lia.
  replace (capacity_ v * 2) with (2 * capacity_ v) by lia.
  fold (resize_capacity new_size v).
  apply bind_throw, Reserve_fail; [|done]. unfold resize_capacity. lia.
Qed.

(** ** Constructors *)

Lemma SimpleVector_fill_ok h size x :
  can_alloc size = true →
  SimpleVector_fill size x h =
    Ok (mkSimpleVector size size (Some (fresh (dom h))),
        <[fresh (dom h) := replicate (Z.to_nat size) x]> h).
Proof.
  intros Hc. pose proof (can_alloc_bound _ Hc) as Hb. unfold SimpleVector_fill.
  erewrite bind_ok by (by apply ArrayPtr_new_ok).
  cbn [ArrayPtr_Get ptr_add]. rewrite Z.add_0_l.
  erewrite bind_ok.
  2:{ eapply std_fill_ok; [by apply lookup_insert_eq|lia|].
      rewrite length_replicate. lia. }
  unfold ret. rewrite insert_insert_eq. do 3 f_equal.
  rewrite Z.sub_0_r, take_0. cbn [app].
  rewrite drop_ge by (rewrite length_replicate; lia).
  by rewrite app_nil_r.
Qed.

Lemma SimpleVector_fill_fail h size x :
  can_alloc size = false → SimpleVector_fill size x h = Throw bad_alloc.
Proof.
  intros Hc. unfold SimpleVector_fill.
  by apply bind_throw, ArrayPtr_new_fail.
Qed.

Lemma SimpleVector_init_ok h init :
  can_alloc (Z.of_nat (length init)) = true →
  SimpleVector_init init h =
    Ok (mkSimpleVector (Z.of_nat (length init)) (Z.of_nat (length init))
          (Some (fresh (dom h))),
        <[fresh (dom h) := init]> h).
Proof.
  intros Hc. unfold SimpleVector_init.
  erewrite bind_ok by (by apply ArrayPtr_new_ok).
  unfold ArrayPtr_Get. change 0 with (Z.of_nat 0).
  erewrite bind_ok.
  2:{ eapply copy_init_ok; [by apply lookup_insert_eq|].
      rewrite length_replicate. lia. }
  unfold ret. rewrite insert_insert_eq. do 3 f_equal.
  rewrite take_0. cbn [app].
  rewrite drop_ge by (rewrite length_replicate; lia).
  by rewrite app_nil_r.
Qed.

Lemma SimpleVector_reserved_ok h n :
  0 < n → can_alloc n = true →
  SimpleVector_reserved (Reserve_proxy n) h =
    Ok (mkSimpleVector 0 n (Some (fresh (dom h))),
        <[fresh (dom h) := replicate (Z.to_nat n) default_T]> h).
Proof.
  intros Hn Hc. unfold SimpleVector_reserved. cbn.
  rewrite Reserve_grow; [|apply wf_default|simpl; lia|done].
  by rewrite Z.sub_0_r.
Qed.

Lemma SimpleVector_copy_ok h other :
  wf h other → can_alloc (capacity_ other) = true →
  SimpleVector_copy other h =
    Ok (mkSimpleVector (size_ other) (capacity_ other) (Some (fresh (dom h))),
        <[fresh (dom h) :=
            elements h other
            ++ replicate (Z.to_nat (capacity_ other - size_ other)) default_T]>
          h).
Proof.
  intros Hwf Hc. pose proof (wf_not_fresh _ _ Hwf) as Hfresh.
  pose proof (wf_block _ _ Hwf) as Hblk.
  pose proof (wf_length _ _ Hwf) as Hlen.
  destruct Hwf as (Hsz & Hcap & _).
  unfold SimpleVector_copy. cbn [size_ SimpleVector_default assert].
  change (0 =? 0) with true. cbn iota. erewrite bind_ok by done.
  erewrite bind_ok by (by apply ArrayPtr_new_ok).
  set (l := fresh (dom h)) in *. unfold IsEmpty.
  destruct (Z.eqb_spec (size_ other) 0) as [Hz|Hnz]; cbn [negb].
  - erewrite bind_ok by done. cbn [items_ ArrayPtr_swap].
    erewrite bind_ok by apply ArrayPtr_delete_ok.
    unfold ret. cbn [release_block ArrayPtr_default]. do 3 f_equal.
    unfold elements. rewrite Hz. change (Z.to_nat 0) with 0%nat.
    rewrite take_0, Z.sub_0_r. done.
  - unfold begin, end_. rewrite (ArrayPtr_Get_add_0 (items_ other)) at 1.
    change (ArrayPtr_Get (Some l)) with (Ptr (Some l) 0).
    erewrite bind_ok.
    2:{ erewrite bind_ok.
        2:{ eapply std_copy_ok; [done| |by apply lookup_insert_eq|..].
            - rewrite block_of_insert by done. exact Hblk.
            - lia.
            - lia.
            - lia.
            - rewrite length_replicate. lia. }
        done. }
    cbn [items_ SimpleVector_default ArrayPtr_swap].
    erewrite bind_ok by apply ArrayPtr_delete_ok.
    unfold ret. cbn [release_block ArrayPtr_default].
    rewrite insert_insert_eq. do 3 f_equal. unfold elements.
    change (Z.to_nat 0) with 0%nat. rewrite take_0, drop_0, !Z.sub_0_r.
    cbn [app]. rewrite Z.add_0_l, drop_replicate. list_arith.
Qed.

Lemma SimpleVector_copy_fail h other :
  can_alloc (capacity_ other) = false →
  SimpleVector_copy other h = Throw bad_alloc.
Proof.
  intros Hc. unfold SimpleVector_copy.
  cbn [size_ SimpleVector_default assert].
  change (0 =? 0) with true. cbn iota. erewrite bind_ok by done.
  by apply bind_throw, ArrayPtr_new_fail.
Qed.

Lemma SimpleVector_move_ok h other :
  SimpleVector_move other h =
    Ok ((mkSimpleVector (size_ other) (capacity_ other) (items_ other),
         mkSimpleVector 0 0 None), h).
Proof. reflexivity. Qed.

(** ** Assignment *)

Lemma copy_assign_ok h (objs : gmap positive SimpleVector)
    (this rhs : positive) v r :
  this ≠ rhs → objs !! this = Some v → objs !! rhs = Some r →
  wf h r → can_alloc (capacity_ r) = true →
  copy_assign this rhs objs h =
    Ok (<[this := mkSimpleVector (size_ r) (capacity_ r)
                    (Some (fresh (dom h)))]> objs,
        release_block
          (<[fresh (dom h) :=
               elements h r
               ++ replicate (Z.to_nat (capacity_ r - size_ r)) default_T]> h)
          (items_ v)).
Proof.
  intros Hne Hv Hr Hwf Hc. unfold copy_assign.
  rewrite decide_True by done. rewrite Hv, Hr. cbn [lift_option].
  erewrite bind_ok by done. erewrite bind_ok by done.
  erewrite bind_ok by (by apply SimpleVector_copy_ok).
  cbn. unfold SimpleVector_destroy. cbn [items_].
  erewrite bind_ok by apply ArrayPtr_delete_ok. done.
Qed.

Lemma copy_assign_self h (objs : gmap positive SimpleVector)
    (this : positive) :
  copy_assign this this objs h = Ok (objs, h).
Proof. unfold copy_assign. by rewrite decide_False by (intros H; apply H; done). Qed.

Lemma move_assign_ok h (objs : gmap positive SimpleVector)
    (this rhs : positive) v r :
  this ≠ rhs → objs !! this = Some v → objs !! rhs = Some r →
  move_assign this rhs objs h = Ok (<[rhs := v]> (<[this := r]> objs), h).
Proof.
  intros Hne Hv Hr. unfold move_assign.
  rewrite decide_True by done. rewrite Hv, Hr. cbn [lift_option].
  erewrite bind_ok by done. erewrite bind_ok by done.
  by destruct v, r.
Qed.

Lemma move_assign_self h (objs : gmap positive SimpleVector)
    (this : positive) :
  move_assign this this objs h = Ok (objs, h).
Proof. unfold move_assign. by rewrite decide_False by (intros H; apply H; done). Qed.

(** ** Element access *)

Lemma load_block h (q : ArrayPtr) blk (a : nat) x :
  block_of h q = Some blk → blk !! a = Some x →
  load (ptr_add (ArrayPtr_Get q) (Z.of_nat a)) h = Ok (x, h).
Proof.
  intros Hq Ha. destruct q as [l|].
  - unfold ArrayPtr_Get. cbn [ptr_add]. rewrite Z.add_0_l. by eapply load_ok.
  - injection Hq as <-. by rewrite lookup_nil_any in Ha.
Qed.

Lemma ptr_add_add p (a b : Z) : ptr_add (ptr_add p a) b = ptr_add p (a + b).
Proof. destruct p; simpl. f_equal. lia. Qed.

Lemma elements_lookup h v (i : nat) :
  (i < Z.to_nat (size_ v))%nat → elements h v !! i = storage h v !! i.
Proof. intros Hi. unfold elements. by rewrite lookup_take_lt. Qed.

Lemma load_element h v (index : Z) :
  wf h v → 0 <= index < size_ v →
  ∃ x, elements h v !! Z.to_nat index = Some x ∧
       load (ArrayPtr_index (items_ v) index) h = Ok (x, h).
Proof.
  intros Hwf Hi. pose proof (wf_length _ _ Hwf) as Hlen.
  pose proof (wf_block _ _ Hwf) as Hblk. destruct Hwf as (Hsz & _).
  destruct (lookup_lt_is_Some_2 (storage h v) (Z.to_nat index)) as [x Hx];
    [lia|].
  exists x. rewrite elements_lookup by lia. split; [done|].
  unfold ArrayPtr_index. rewrite <- (Z2Nat.id index) at 1 by lia.
  by eapply load_block.
Qed.

Lemma At_ok h v index :
  index < size_ v → At index v h = Ok (ArrayPtr_index (items_ v) index, h).
Proof.
  intros Hi. unfold At. destruct (Z.leb_spec (size_ v) index); [lia|done].
Qed.

Lemma At_throw h v index :
  size_ v <= index → At index v h = Throw out_of_range.
Proof.
  intros Hi. unfold At. destruct (Z.leb_spec (size_ v) index); [done|lia].
Qed.

Lemma subscript_ok h v index :
  index < size_ v →
  subscript index v h = Ok (ArrayPtr_index (items_ v) index, h).
Proof.
  intros Hi. unfold subscript.
  destruct (Z.ltb_spec index (size_ v)); [|lia]. cbn [assert].
  by erewrite bind_ok by done.
Qed.

(** ** Comparisons *)

Lemma take_drop_cons blk (a n : nat) x :
  blk !! a = Some x →
  take (S n) (drop a blk) = x :: take n (drop (S a) blk).
Proof. intros Hx. by rewrite (drop_S _ _ _ Hx). Qed.

Lemma equal_n_ok n : ∀ h (q1 q2 : ArrayPtr) b1 b2 (a c : nat),
  block_of h q1 = Some b1 → block_of h q2 = Some b2 →
  (a + n ≤ length b1)%nat → (c + n ≤ length b2)%nat →
  equal_n n (ptr_add (ArrayPtr_Get q1) (Z.of_nat a))
            (ptr_add (ArrayPtr_Get q2) (Z.of_nat c)) h =
    Ok (seq_equal (take n (drop a b1)) (take n (drop c b2)), h).
Proof.
  induction n as [|n IH]; intros h q1 q2 b1 b2 a c H1 H2 Ha Hc; [done|].
  cbn [equal_n].
  destruct (lookup_lt_is_Some_2 b1 a) as [x Hx]; [lia|].
  destruct (lookup_lt_is_Some_2 b2 c) as [y Hy]; [lia|].
  erewrite bind_ok by (by eapply load_block).
  erewrite bind_ok by (by eapply load_block).
  rewrite (take_drop_cons _ _ _ _ Hx), (take_drop_cons _ _ _ _ Hy).
  cbn [seq_equal]. destruct (eq_T x y); [|done]. cbn [andb].
  rewrite !ptr_add_add.
  replace (Z.of_nat a + 1) with (Z.of_nat (S a)) by lia.
  replace (Z.of_nat c + 1) with (Z.of_nat (S c)) by lia.
  apply IH; done || lia.
Qed.

Lemma lexicographical_compare_n_ok n1 :
  ∀ n2 h (q1 q2 : ArrayPtr) b1 b2 (a c : nat),
  block_of h q1 = Some b1 → block_of h q2 = Some b2 →
  (a + n1 ≤ length b1)%nat → (c + n2 ≤ length b2)%nat →
  lexicographical_compare_n n1 n2
      (ptr_add (ArrayPtr_Get q1) (Z.of_nat a))
      (ptr_add (ArrayPtr_Get q2) (Z.of_nat c)) h =
    Ok (seq_less (take n1 (drop a b1)) (take n2 (drop c b2)), h).
Proof.
  induction n1 as [|n1 IH]; intros n2 h q1 q2 b1 b2 a c H1 H2 Ha Hc.
  - destruct n2 as [|n2]; [done|].
    destruct (lookup_lt_is_Some_2 b2 c) as [y Hy]; [lia|].
    by rewrite (take_drop_cons _ _ _ _ Hy).
  - destruct (lookup_lt_is_Some_2 b1 a) as [x Hx]; [lia|].
    rewrite (take_drop_cons _ _ _ _ Hx).
    destruct n2 as [|n2]; [done|].
    destruct (lookup_lt_is_Some_2 b2 c) as [y Hy]; [lia|].
    rewrite (take_drop_cons _ _ _ _ Hy).
    cbn [lexicographical_compare_n seq_less].
    erewrite bind_ok by (by eapply load_block).
    erewrite bind_ok by (by eapply load_block).
    destruct (lt_T x y); [done|]. destruct (lt_T y x); [done|].
    rewrite !ptr_add_add.
    replace (Z.of_nat a + 1) with (Z.of_nat (S a)) by lia.
    replace (Z.of_nat c + 1) with (Z.of_nat (S c)) by lia.
    apply IH; done || lia.
Qed.

Lemma range_length_elements h v :
  wf h v → range_length (begin v) (end_ v) h = Ok (Z.to_nat (size_ v), h).
Proof.
  intros Hwf. pose proof (wf_length _ _ Hwf) as Hlen.
  pose proof (wf_block _ _ Hwf) as Hblk. destruct Hwf as (Hsz & _).
  unfold begin, end_. rewrite (ArrayPtr_Get_add_0 (items_ v)) at 1.
  erewrite range_length_ok by lia. by rewrite Z.sub_0_r.
Qed.

Lemma seq_equal_length xs : ∀ ys,
  length xs ≠ length ys → seq_equal xs ys = false.
Proof.
  induction xs as [|x xs IH]; intros [|y ys] Hlen; simpl in *; try done.
  rewrite IH by lia. apply andb_false_r.
Qed.

Lemma op_eq_ok h lhs rhs :
  wf h lhs → wf h rhs →
  op_eq lhs rhs h = Ok (seq_equal (elements h lhs) (elements h rhs), h).
Proof.
  intros Hl Hr. unfold op_eq, std_equal.
  erewrite bind_ok by (by apply range_length_elements).
  erewrite bind_ok by (by apply range_length_elements).
  pose proof (elements_length _ _ Hl) as Hel.
  pose proof (elements_length _ _ Hr) as Her.
  pose proof (wf_length _ _ Hl) as Hll. pose proof (wf_length _ _ Hr) as Hlr.
  case_decide as Hn.
  - unfold begin. rewrite (ArrayPtr_Get_add_0 (items_ lhs)).
    rewrite (ArrayPtr_Get_add_0 (items_ rhs)). change 0 with (Z.of_nat 0).
    erewrite equal_n_ok; [|by apply wf_block|by apply wf_block|..].
    + unfold elements. by rewrite !drop_0, Hn.
    + destruct Hl as (? & _). lia.
    + destruct Hr as (? & _). lia.
  - unfold ret. by rewrite seq_equal_length by lia.
Qed.

Lemma op_lt_ok h lhs rhs :
  wf h lhs → wf h rhs →
  op_lt lhs rhs h = Ok (seq_less (elements h lhs) (elements h rhs), h).
Proof.
  intros Hl Hr. unfold op_lt, std_lexicographical_compare.
  erewrite bind_ok by (by apply range_length_elements).
  erewrite bind_ok by (by apply range_length_elements).
  pose proof (wf_length _ _ Hl) as Hll. pose proof (wf_length _ _ Hr) as Hlr.
  unfold begin. rewrite (ArrayPtr_Get_add_0 (items_ lhs)).
  rewrite (ArrayPtr_Get_add_0 (items_ rhs)). change 0 with (Z.of_nat 0).
  erewrite lexicographical_compare_n_ok;
    [|by apply wf_block|by apply wf_block|..].
  - unfold elements. by rewrite !drop_0.
  - destruct Hl as (? & _). lia.
  - destruct Hr as (? & _). lia.
Qed.

(** ** Insert followed by Erase *)

Lemma inserted_block_length els (i : nat) x (c : nat) :
  (i ≤ length els)%nat → (length els < c)%nat →
  length (inserted_block els i x c) = c.
Proof.
  intros Hi Hc. unfold inserted_block.
  rewrite !length_app, length_take, length_cons, length_app, length_drop,
    length_replicate. lia.
Qed.

Lemma inserted_block_take els (i : nat) x (c : nat) :
  (i ≤ length els)%nat →
  take (S (length els)) (inserted_block els i x c)
  = take i els ++ x :: drop i els.
Proof.
  intros Hi. unfold inserted_block.
  change (take i els ++ x :: drop i els ++ replicate (c - length els - 1)
            default_T)
    with (take i els ++ (x :: drop i els)
            ++ replicate (c - length els - 1) default_T).
  rewrite (app_assoc (take i els)). apply take_app_length'.
  rewrite length_app, length_take, length_cons, length_drop. lia.
Qed.

Lemma inserted_block_drop els (i : nat) x (c : nat) :
  (i ≤ length els)%nat →
  drop (S (length els)) (inserted_block els i x c)
  = replicate (c - length els - 1) default_T.
Proof.
  intros Hi. unfold inserted_block.
  change (take i els ++ x :: drop i els ++ replicate (c - length els - 1)
            default_T)
    with (take i els ++ (x :: drop i els)
            ++ replicate (c - length els - 1) default_T).
  rewrite (app_assoc (take i els)). apply drop_app_length'.
  rewrite length_app, length_take, length_cons, length_drop. lia.
Qed.

Lemma insert_call_ok by_move h v (i : Z) x :
  wf h v → 0 <= i <= size_ v → can_alloc (insert_capacity v) = true →
  insert_call by_move (ptr_add (begin v) i) x v h =
    Ok (Ptr (Some (fresh (dom h))) i,
        mkSimpleVector (size_ v + 1) (insert_capacity v)
          (Some (fresh (dom h))),
        <[fresh (dom h) :=
            inserted_block (elements h v) (Z.to_nat i) x
              (Z.to_nat (insert_capacity v))]>
          (release_block h (items_ v))).
Proof.
  intros. destruct by_move; [by apply Insert_move_ok|by apply Insert_ok].
Qed.

(** The state [Insert] leaves. *)
Lemma inserted_state h v (i : Z) x blk_rest :
  wf h v → 0 <= i <= size_ v → can_alloc (insert_capacity v) = true →
  let v' := mkSimpleVector (size_ v + 1) (insert_capacity v)
              (Some (fresh (dom h))) in
  let h' := <[fresh (dom h) :=
                inserted_block (elements h v) (Z.to_nat i) x
                  (Z.to_nat (insert_capacity v))]> blk_rest in
  wf h' v' ∧
  storage h' v' = inserted_block (elements h v) (Z.to_nat i) x
                    (Z.to_nat (insert_capacity v)) ∧
  elements h' v'
  = take (Z.to_nat i) (elements h v) ++ x :: drop (Z.to_nat i) (elements h v).
Proof.
  intros Hwf Hi Hc v' h'. pose proof (can_alloc_bound _ Hc) as Hb.
  pose proof (elements_length _ _ Hwf) as Hel.
  pose proof Hwf as (Hsz & Hcap & _).
  pose proof (insert_capacity_gt v Hsz) as Hgt.
  assert (storage h' v' = inserted_block (elements h v) (Z.to_nat i) x
                            (Z.to_nat (insert_capacity v))) as Hst.
  { eapply storage_at; [done|apply lookup_insert_eq]. }
  split; [|split; [done|]].
  - eapply wf_at; [done|apply lookup_insert_eq|simpl; lia|simpl; lia|].
    rewrite inserted_block_length by lia. simpl. lia.
  - unfold elements at 1. rewrite Hst. cbn [size_ v'].
    replace (Z.to_nat (size_ v + 1)) with (S (length (elements h v))) by lia.
    apply inserted_block_take. lia.
Qed.

(** C2: inserting a value at index [i], by copy or by move, and erasing at
    the iterator [Insert] returned (index [i] of the result) gives back the
    original size and the original elements at every index. *)
Theorem insert_then_erase_restores by_move h v (i : Z) x :
  wf h v → 0 <= i <= GetSize v → can_alloc (insert_capacity v) = true →
  ∃ pos v1 h1 pos' v2 h2,
    insert_call by_move (ptr_add (begin v) i) x v h = Ok (pos, v1, h1) ∧
    pos = ptr_add (begin v1) i ∧
    Erase pos v1 h1 = Ok (pos', v2, h2) ∧
    GetSize v2 = GetSize v ∧
    elements h2 v2 = elements h v ∧
    (∀ k : nat, elements h2 v2 !! k = elements h v !! k).
Proof.
  unfold GetSize. intros Hwf Hi Hc.
  pose proof (elements_length _ _ Hwf) as Hel.
  pose proof Hwf as (Hsz & Hcap & _).
  destruct (inserted_state h v i x (release_block h (items_ v)) Hwf Hi Hc)
    as (Hwf1 & Hst1 & Hel1).
  set (v1 := mkSimpleVector (size_ v + 1) (insert_capacity v)
               (Some (fresh (dom h)))) in *.
  set (h1 := <[fresh (dom h) := _]> (release_block h (items_ v))) in *.
  destruct (Erase_ok h1 v1 i Hwf1) as (l & Hl & Hrun); [simpl; lia|].
  injection Hl as <-.
  eexists _, v1, h1, _, _, _.
  split; [by apply insert_call_ok|].
  split; [simpl; f_equal; lia|].
  replace (Ptr (Some (fresh (dom h))) i) with (ptr_add (begin v1) i)
    by (simpl; f_equal; lia).
  split; [exact Hrun|]. split; [simpl; lia|].
  assert (elements
            (<[fresh (dom h) :=
                 shifted_left (Z.to_nat i) (Z.to_nat (size_ v1 - (i + 1)))
                   (storage h1 v1)]> h1)
            (set_size_ (size_ v1 - 1) v1) = elements h v) as Hfinal.
  { unfold elements at 1.
    erewrite storage_at; [|done|apply lookup_insert_eq].
    cbn [set_size_ size_ v1].
    replace (Z.to_nat (size_ v + 1 - 1))
      with (Z.to_nat (size_ v + 1) - 1)%nat by lia.
    replace (Z.to_nat (size_ v + 1 - (i + 1)))
      with (Z.to_nat (size_ v + 1) - (Z.to_nat i + 1))%nat by lia.
    rewrite shifted_left_take.
    - change (take (Z.to_nat (size_ v + 1)) (storage h1 v1))
        with (elements h1 v1). rewrite Hel1.
      rewrite take_app_length' by (rewrite length_take; lia).
      change (take (Z.to_nat i) (elements h v)
              ++ x :: drop (Z.to_nat i) (elements h v))
        with (take (Z.to_nat i) (elements h v)
              ++ [x] ++ drop (Z.to_nat i) (elements h v)).
      rewrite (app_assoc _ [x]).
      rewrite drop_app_length'
        by (rewrite length_app, length_take; simpl; lia).
      apply take_drop.
    - lia.
    - pose proof (wf_length _ _ Hwf1) as Hlen1.
      pose proof (insert_capacity_gt v Hsz).
      unfold v1 in Hlen1 at 2. cbn [capacity_] in Hlen1. lia. }
  split; [exact Hfinal|]. intros k. by rewrite Hfinal.
Qed.

(** ** What PopBack and Erase keep *)

Lemma Erase_spec h v (i : Z) :
  wf h v → 0 <= i < size_ v →
  ∃ pos v' h',
    Erase (ptr_add (begin v) i) v h = Ok (pos, v', h') ∧
    wf h' v' ∧ frame v h v' h' ∧
    v' = set_size_ (size_ v - 1) v ∧ pos = ptr_add (begin v') i ∧
    length (storage h' v') = length (storage h v) ∧
    elements h' v'
    = take (Z.to_nat i) (elements h v) ++ drop (S (Z.to_nat i)) (elements h v) ∧
    drop (Z.to_nat (size_ v')) (storage h' v')
    = (if decide (Z.to_nat (size_ v) = S (Z.to_nat i))
       then take 1 (drop (Z.to_nat i) (storage h v))
       else moved_from <$> take 1 (drop (Z.to_nat (size_ v) - 1) (storage h v)))
      ++ drop (Z.to_nat (size_ v)) (storage h v).
Proof.
  intros Hwf Hi. pose proof (wf_length _ _ Hwf) as Hlen.
  pose proof Hwf as (Hsz & Hcap & _).
  destruct (Erase_ok h v i Hwf Hi) as (l & Hl & Hrun).
  eexists _, _, _. split; [exact Hrun|].
  set (blk := shifted_left _ _ _).
  assert (storage (<[l := blk]> h) (set_size_ (size_ v - 1) v) = blk) as Hst.
  { eapply storage_at; [done|apply lookup_insert_eq]. }
  assert (length blk = length (storage h v)) as Hblen.
  { unfold blk. apply shifted_left_length. lia. }
  split.
  { eapply wf_at; [done|apply lookup_insert_eq|simpl; lia|simpl; lia|].
    simpl. lia. }
  split; [by apply frame_same_block|]. split; [done|].
  split; [unfold begin; cbn [set_size_ items_]; rewrite Hl; simpl;
          f_equal; lia|].
  rewrite Hst. split; [done|]. unfold elements at 1. rewrite Hst.
  cbn [set_size_ size_]. unfold blk.
  replace (Z.to_nat (size_ v - 1)) with (Z.to_nat (size_ v) - 1)%nat by lia.
  replace (Z.to_nat (size_ v - (i + 1)))
    with (Z.to_nat (size_ v) - (Z.to_nat i + 1))%nat by lia.
  split.
  - rewrite shifted_left_take by lia. done.
  - rewrite shifted_left_drop by lia. done.
Qed.

Lemma PopBack_spec h v :
  wf h v → 0 < size_ v →
  PopBack v h = Ok (set_size_ (size_ v - 1) v, h) ∧
  wf h (set_size_ (size_ v - 1) v) ∧
  storage h (set_size_ (size_ v - 1) v) = storage h v.
Proof.
  intros Hwf Hs. pose proof Hwf as (Hsz & Hcap & blk & Hb & Hlen).
  rewrite PTRDIFF_MAX_eq in Hcap.
  split; [apply PopBack_ok; lia|]. split; [|done].
  repeat split; simpl; try lia. rewrite PTRDIFF_MAX_eq. lia. by exists blk.
Qed.

(** C10: on a non-empty container [PopBack] and [Erase] keep the capacity,
    the storage block and its length ([PopBack] leaves the heap as it is);
    [Erase] at index [i] keeps every element below [i], and every element
    at an index [j] above [i] is found at [j - 1] afterwards. *)
Theorem pop_back_and_erase_keep_capacity h v (i : Z) :
  wf h v → 0 < GetSize v → 0 <= i < GetSize v →
  (∃ v', PopBack v h = Ok (v', h) ∧
         GetCapacity v' = GetCapacity v ∧ items_ v' = items_ v ∧
         GetSize v' = GetSize v - 1) ∧
  (∃ pos v' h',
     Erase (ptr_add (begin v) i) v h = Ok (pos, v', h') ∧
     GetCapacity v' = GetCapacity v ∧ items_ v' = items_ v ∧
     length (storage h' v') = length (storage h v) ∧
     GetSize v' = GetSize v - 1 ∧
     (∀ k : nat, (k < Z.to_nat i)%nat →
                 elements h' v' !! k = elements h v !! k) ∧
     (∀ j : nat, (Z.to_nat i < j < Z.to_nat (GetSize v))%nat →
                 elements h' v' !! (j - 1)%nat = elements h v !! j)).
Proof.
  unfold GetSize, GetCapacity. intros Hwf Hs Hi.
  pose proof (elements_length _ _ Hwf) as Hel. split.
  - destruct (PopBack_spec h v Hwf Hs) as (Hrun & _ & _).
    by exists (set_size_ (size_ v - 1) v).
  - destruct (Erase_spec h v i Hwf Hi)
      as (pos & v' & h' & Hrun & _ & _ & -> & _ & Hlen & Hels & _).
    exists pos, (set_size_ (size_ v - 1) v), h'.
    split; [done|]. split; [done|]. split; [done|]. split; [done|].
    split; [done|]. rewrite Hels. split.
    + intros k Hk. rewrite lookup_app_l by (rewrite length_take; lia).
      by rewrite lookup_take_lt.
    + intros j Hj. rewrite lookup_app_r by (rewrite length_take; lia).
      rewrite length_take, lookup_drop. f_equal. lia.
Qed.

(** ** Reserve and Resize, by cases *)

(** The state a reallocation leaves: a new block that holds the old
    elements followed by default values. *)
Lemma regrown_state h v (size capacity : Z) rest :
  wf h v → size_ v <= capacity → capacity <= PTRDIFF_MAX →
  size_ v <= size <= capacity →
  let v' := mkSimpleVector size capacity (Some (fresh (dom h))) in
  let h' := <[fresh (dom h) :=
                elements h v
                ++ replicate (Z.to_nat (capacity - size_ v)) default_T]> rest in
  wf h' v' ∧
  storage h' v'
  = elements h v ++ replicate (Z.to_nat (capacity - size_ v)) default_T ∧
  elements h' v'
  = elements h v ++ replicate (Z.to_nat (size - size_ v)) default_T ∧
  drop (Z.to_nat size) (storage h' v')
  = replicate (Z.to_nat (capacity - size)) default_T.
Proof.
  intros Hwf Hc Hmax Hs v' h'. pose proof (elements_length _ _ Hwf) as Hel.
  pose proof Hwf as (Hsz & _).
  assert (storage h' v' = elements h v
            ++ replicate (Z.to_nat (capacity - size_ v)) default_T) as Hst.
  { eapply storage_at; [done|apply lookup_insert_eq]. }
  split; [|split; [done|]].
  - eapply wf_at; [done|apply lookup_insert_eq|simpl; lia|simpl; lia|].
    rewrite length_app, length_replicate. simpl. lia.
  - unfold elements at 1. rewrite Hst. cbn [size_ v']. split.
    + rewrite take_app_ge by lia. f_equal. rewrite take_replicate.
      f_equal. lia.
    + rewrite drop_app_ge by lia. rewrite drop_replicate. f_equal. lia.
Qed.

(** C6: [Reserve] with a capacity that is not larger than the current one
    returns with the container and the heap as they were; with a larger
    one that the allocator grants, the capacity is exactly the requested
    one, the size and the elements are unchanged, and every slot from the
    size up to the new capacity holds the default value. *)
Theorem reserve_by_cases h v (new_capacity : Z) :
  wf h v →
  (new_capacity <= GetCapacity v → Reserve new_capacity v h = Ok (v, h)) ∧
  (GetCapacity v < new_capacity → can_alloc new_capacity = true →
   ∃ v' h',
     Reserve new_capacity v h = Ok (v', h') ∧
     GetCapacity v' = new_capacity ∧ GetSize v' = GetSize v ∧
     elements h' v' = elements h v ∧
     Z.of_nat (length (storage h' v')) = new_capacity ∧
     (∀ k : nat, (k < Z.to_nat (GetSize v))%nat →
                 storage h' v' !! k = storage h v !! k) ∧
     (∀ k : nat, (Z.to_nat (GetSize v) ≤ k < Z.to_nat new_capacity)%nat →
                 storage h' v' !! k = Some default_T)).
Proof.
  unfold GetSize, GetCapacity. intros Hwf. split.
  - intros Hn. by apply Reserve_noop.
  - intros Hn Hc. pose proof (can_alloc_bound _ Hc) as Hb.
    pose proof (elements_length _ _ Hwf) as Hel.
    pose proof Hwf as (Hsz & _).
    destruct (regrown_state h v (size_ v) new_capacity
                (release_block h (items_ v)) Hwf)
      as (Hwf' & Hst & Hels & _); [lia..|].
    eexists _, _. split; [by apply Reserve_grow|].
    split; [done|]. split; [done|].
    rewrite Hels, Hst, Z.sub_diag. change (Z.to_nat 0) with 0%nat.
    cbn [replicate]. rewrite app_nil_r. split; [done|].
    rewrite length_app, length_replicate. split; [lia|]. split.
    + intros k Hk. rewrite lookup_app_l by lia. by apply elements_lookup.
    + intros k Hk. rewrite lookup_app_r by lia.
      apply lookup_replicate_2. lia.
Qed.

(** C3: [Resize] by cases.  The same size: nothing changes.  A larger size
    within the capacity: the slots from the old size up to the new one
    become default, the capacity and the other slots stay.  A size above
    the capacity, when the allocator grants the block: the capacity becomes
    the larger of the new size and twice the old capacity, the old elements
    are kept and every other slot is default.  A smaller size: only the size
    changes; the heap, the block and every slot value stay as they were. *)
Theorem resize_by_cases h v (new_size : Z) :
  wf h v → 0 <= new_size →
  (new_size = GetSize v → Resize new_size v h = Ok (v, h)) ∧
  (GetSize v < new_size <= GetCapacity v →
   ∃ v' h',
     Resize new_size v h = Ok (v', h') ∧
     GetSize v' = new_size ∧ GetCapacity v' = GetCapacity v ∧
     items_ v' = items_ v ∧
     storage h' v'
     = elements h v
       ++ replicate (Z.to_nat (new_size - GetSize v)) default_T
       ++ drop (Z.to_nat new_size) (storage h v)) ∧
  (GetCapacity v < new_size →
   can_alloc (Z.max new_size (2 * GetCapacity v)) = true →
   ∃ v' h',
     Resize new_size v h = Ok (v', h') ∧
     GetSize v' = new_size ∧
     GetCapacity v' = Z.max new_size (2 * GetCapacity v) ∧
     storage h' v'
     = elements h v
       ++ replicate (Z.to_nat (GetCapacity v' - GetSize v)) default_T ∧
     elements h' v'
     = elements h v
       ++ replicate (Z.to_nat (new_size - GetSize v)) default_T) ∧
  (new_size < GetSize v →
   ∃ v',
     Resize new_size v h = Ok (v', h) ∧
     GetSize v' = new_size ∧ GetCapacity v' = GetCapacity v ∧
     items_ v' = items_ v ∧ storage h v' = storage h v).
Proof.
  unfold GetSize, GetCapacity. intros Hwf Hn.
  pose proof Hwf as (Hsz & Hcap & _).
  split; [|split; [|split]].
  - intros ->. apply Resize_same.
  - intros Hin. destruct (Resize_within h v new_size Hwf Hin)
      as (l & Hl & Hrun).
    eexists _, _. split; [exact Hrun|]. split; [done|]. split; [done|].
    split; [done|]. eapply storage_at; [done|apply lookup_insert_eq].
  - intros Hgt Hc. pose proof (can_alloc_bound _ Hc) as Hb.
    destruct (regrown_state h v new_size (resize_capacity new_size v)
                (release_block h (items_ v)) Hwf)
      as (Hwf' & Hst & Hels & _); [unfold resize_capacity; lia..|].
    eexists _, _. split; [by apply Resize_grow|]. done.
  - intros Hlt. exists (set_size_ new_size v).
    split; [by apply Resize_shrink|]. done.
Qed.

(** ** Calls that do not return *)

Lemma insert_call_out_of_range by_move h v (i : Z) x :
  ¬ 0 <= i <= size_ v →
  insert_call by_move (ptr_add (begin v) i) x v h = Undefined.
Proof.
  intros Hi. destruct by_move; unfold insert_call, Insert_move, Insert;
    erewrite bind_ok by (by apply pos_in_range_out); done.
Qed.

Lemma insert_call_fail by_move h v (i : Z) x :
  wf h v → 0 <= i <= size_ v → can_alloc (insert_capacity v) = false →
  insert_call by_move (ptr_add (begin v) i) x v h = Throw bad_alloc.
Proof.
  intros (Hsz & Hcap & _) Hi Hc.
  destruct by_move; unfold insert_call, Insert_move, Insert;
    erewrite bind_ok by (by apply pos_in_range_ok);
    cbn [assert]; erewrite bind_ok by done;
    rewrite insert_capacity_source by done;
    by apply bind_throw, ArrayPtr_new_fail.
Qed.

Lemma Erase_empty h v pos : size_ v = 0 → Erase pos v h = Undefined.
Proof. intros Hs. unfold Erase, IsEmpty. by rewrite Hs. Qed.

Lemma Erase_out_of_range h v (i : Z) :
  ¬ 0 <= i <= size_ v → Erase (ptr_add (begin v) i) v h = Undefined.
Proof.
  intros Hi. unfold Erase. destruct (IsEmpty v); [reflexivity|].
  cbn [negb assert]. erewrite bind_ok by done.
  erewrite bind_ok by (by apply pos_in_range_out). reflexivity.
Qed.

(** The assertion of [Erase] lets [pos == end()] through; the range given
    to [std::move] is then not a range. *)
Lemma Erase_at_end h v :
  wf h v → Erase (ptr_add (begin v) (size_ v)) v h = Undefined.
Proof.
  intros Hwf. pose proof Hwf as (Hsz & _). unfold Erase.
  destruct (IsEmpty v); [reflexivity|].
  cbn [negb assert]. erewrite bind_ok by done.
  erewrite bind_ok by (apply pos_in_range_ok; lia).
  cbn [assert]. erewrite bind_ok by done.
  erewrite bind_ok by (eapply std_distance_ok; [done|lia]).
  apply bind_undefined, bind_undefined.
  unfold range_length, begin, ArrayPtr_Get.
  cbn [ptr_add ptr_diff]. rewrite decide_True by done. cbn [lift_option].
  erewrite bind_ok by done.
  destruct (Z.ltb_spec (0 + size_ v - (0 + size_ v + 1)) 0); [done|lia].
Qed.

Lemma subscript_out_of_range h v index :
  size_ v <= index → subscript index v h = Undefined.
Proof.
  intros Hi. unfold subscript.
  destruct (Z.ltb_spec index (size_ v)); [lia|done].
Qed.

Lemma store_inv p x h u h' :
  store p x h = Ok (u, h') →
  ∃ l off blk, p = Ptr (Some l) off ∧ 0 <= off ∧ h !! l = Some blk ∧
    (Z.to_nat off < length blk)%nat ∧
    h' = <[l := <[Z.to_nat off := x]> blk]> h.
Proof.
  unfold store. destruct p as [[l|] off]; [|done].
  destruct (Z.ltb_spec off 0); [done|].
  destruct (h !! l) as [blk|] eqn:Hl; [|done].
  case_decide; [|done]. intros [= <- <-]. by exists l, off, blk.
Qed.

(** ** The public member functions as one interface *)

Lemma I2_replicate (n : nat) : Forall vacant (replicate n default_T).
Proof. apply Forall_replicate. by left. Qed.

Lemma I2_further h v (n : nat) :
  I2 h v → (Z.to_nat (size_ v) ≤ n)%nat → Forall vacant (drop n (storage h v)).
Proof.
  unfold I2. intros H Hn.
  replace n with (Z.to_nat (size_ v) + (n - Z.to_nat (size_ v)))%nat by lia.
  rewrite <- drop_drop. by apply Forall_drop.
Qed.

Lemma exec_spec m h v r v' h' :
  wf h v → size_t_args m → exec m v h = Ok (r, v', h') →
  wf h' v' ∧ frame v h v' h' ∧ (I2 h v → ¬ truncates m v → I2 h' v').
Proof.
  intros Hwf Hargs Hrun. pose proof (wf_length _ _ Hwf) as Hlen.
  pose proof (elements_length _ _ Hwf) as Hel.
  pose proof Hwf as (Hsz & Hcap & _).
  assert (∀ index x u h',
            index < size_ v →
            store (ArrayPtr_index (items_ v) index) x h = Ok (u, h') →
            wf h' v ∧ frame v h v h' ∧ (I2 h v → I2 h' v)) as Hstore.
  { clear h' Hrun. intros index x u h' Hi Hst.
    destruct (store_inv _ _ _ _ _ Hst) as (l & off & blk & Hp & Ho & Hl & Hb & ->).
    unfold ArrayPtr_index, ArrayPtr_Get in Hp. cbn [ptr_add] in Hp.
    injection Hp as Hitems Hoff.
    assert (storage h v = blk) as Hs by (by eapply storage_at).
    assert (storage (<[l := <[Z.to_nat off := x]> blk]> h) v
            = <[Z.to_nat off := x]> blk) as Hs'
      by (eapply storage_at; [done|apply lookup_insert_eq]).
    split; [|split; [by apply frame_same_block|]].
    - eapply wf_at; [done|apply lookup_insert_eq|done..|].
      rewrite length_insert. by rewrite <- Hs.
    - unfold I2. rewrite Hs, Hs'. by rewrite drop_insert_lt by lia. }
  destruct m; cbn [exec size_t_args truncates] in *.
  - injection Hrun as <- <- <-. by split; [|split; [apply frame_refl|]].
  - injection Hrun as <- <- <-. by split; [|split; [apply frame_refl|]].
  - injection Hrun as <- <- <-. by split; [|split; [apply frame_refl|]].
  - injection Hrun as <- <- <-. by split; [|split; [apply frame_refl|]].
  - injection Hrun as <- <- <-. by split; [|split; [apply frame_refl|]].
  - (* operator[] *)
    destruct (Z.lt_ge_cases index (size_ v)) as [Hi|Hi].
    + erewrite bind_ok in Hrun by (by apply subscript_ok).
      injection Hrun as <- <- <-. by split; [|split; [apply frame_refl|]].
    + by rewrite bind_undefined in Hrun by (by apply subscript_out_of_range).
  - (* v[index] = x *)
    destruct (Z.lt_ge_cases index (size_ v)) as [Hi|Hi].
    + erewrite bind_ok in Hrun by (by apply subscript_ok).
      destruct (bind_inv_ok _ _ _ _ _ Hrun) as ([] & h1 & Hst & Hret).
      injection Hret as <- <- <-.
      destruct (Hstore _ _ _ _ Hi Hst) as (? & ? & ?). by eauto.
    + by rewrite bind_undefined in Hrun by (by apply subscript_out_of_range).
  - (* At *)
    destruct (Z.lt_ge_cases index (size_ v)) as [Hi|Hi].
    + erewrite bind_ok in Hrun by (by apply At_ok).
      injection Hrun as <- <- <-. by split; [|split; [apply frame_refl|]].
    + by rewrite bind_throw with (e := out_of_range) in Hrun
        by (by apply At_throw).
  - (* At(index) = x *)
    destruct (Z.lt_ge_cases index (size_ v)) as [Hi|Hi].
    + erewrite bind_ok in Hrun by (by apply At_ok).
      destruct (bind_inv_ok _ _ _ _ _ Hrun) as ([] & h1 & Hst & Hret).
      injection Hret as <- <- <-.
      destruct (Hstore _ _ _ _ Hi Hst) as (? & ? & ?). by eauto.
    + by rewrite bind_throw with (e := out_of_range) in Hrun
        by (by apply At_throw).
  - (* Clear *)
    injection Hrun as <- <- <-.
    split; [|split; [by apply frame_same_heap|]].
    + destruct Hwf as (_ & _ & blk & ? & ?).
      repeat split; simpl; try lia. by exists blk.
    + intros HI Htr. assert (size_ v = 0) as Hz by lia.
      unfold I2, Clear, storage in *. cbn [set_size_ size_ items_].
      by rewrite Hz in HI.
  - (* Reserve *)
    destruct (Z.le_gt_cases new_capacity (capacity_ v)) as [Hn|Hn].
    + erewrite bind_ok in Hrun by (by apply Reserve_noop).
      injection Hrun as <- <- <-. by split; [|split; [apply frame_refl|]].
    + destruct (can_alloc new_capacity) eqn:Hc.
      * erewrite bind_ok in Hrun by (apply Reserve_grow; done || lia).
        injection Hrun as <- <- <-.
        pose proof (can_alloc_bound _ Hc) as Hb.
        destruct (regrown_state h v (size_ v) new_capacity
                    (release_block h (items_ v)) Hwf)
          as (Hwf' & _ & _ & Hdrop); [lia..|].
        split; [done|]. split; [by apply frame_new_block|].
        intros _ _. unfold I2. cbn [size_]. rewrite Hdrop.
        apply I2_replicate.
      * by rewrite bind_throw with (e := bad_alloc) in Hrun
          by (apply Reserve_fail; done || lia).
  - (* Resize *)
    destruct (Z.lt_trichotomy new_size (size_ v)) as [Hn|[Hn|Hn]].
    + erewrite bind_ok in Hrun by (by apply Resize_shrink).
      injection Hrun as <- <- <-.
      split; [|split; [by apply frame_same_heap|]]; [|by intros _ []].
      destruct Hwf as (_ & _ & blk & ? & ?).
      repeat split; simpl; try lia. by exists blk.
    + subst new_size. erewrite bind_ok in Hrun by apply Resize_same.
      injection Hrun as <- <- <-. by split; [|split; [apply frame_refl|]].
    + destruct (Z.le_gt_cases new_size (capacity_ v)) as [Hc|Hc].
      * destruct (Resize_within h v new_size Hwf) as (l & Hl & Hr); [lia|].
        erewrite bind_ok in Hrun by exact Hr.
        injection Hrun as <- <- <-.
        set (blk := elements h v ++ _ ++ _).
        assert (storage (<[l := blk]> h) (set_size_ new_size v) = blk) as Hs'
          by (eapply storage_at; [done|apply lookup_insert_eq]).
        assert (length blk = length (storage h v)) as Hbl.
        { unfold blk. rewrite !length_app, length_replicate, length_drop. lia. }
        split; [|split; [by apply frame_same_block|]].
        -- eapply wf_at; [done|apply lookup_insert_eq|simpl; lia|simpl; lia|].
           simpl. lia.
        -- intros HI _. unfold I2. rewrite Hs'. cbn [set_size_ size_].
           unfold blk. rewrite app_assoc.
           rewrite drop_app_length'
             by (rewrite length_app, length_replicate; lia).
           apply I2_further; [done|lia].
      * destruct (can_alloc (resize_capacity new_size v)) eqn:Ha.
        -- erewrite bind_ok in Hrun by (by apply Resize_grow).
           injection Hrun as <- <- <-.
           pose proof (can_alloc_bound _ Ha) as Hb.
           destruct (regrown_state h v new_size (resize_capacity new_size v)
                       (release_block h (items_ v)) Hwf)
             as (Hwf' & _ & _ & Hdrop); [unfold resize_capacity in *; lia..|].
           split; [done|]. split; [by apply frame_new_block|].
           intros _ _. unfold I2. cbn [size_]. rewrite Hdrop.
           apply I2_replicate.
        -- by rewrite bind_throw with (e := bad_alloc) in Hrun
             by (by apply Resize_fail).
  - (* PushBack *)
    destruct (decide (size_ v = capacity_ v
                      ∧ can_alloc (grown_capacity (capacity_ v)) = false))
      as [[Heq Hc]|Hok].
    + rewrite bind_throw with (e := bad_alloc) in Hrun; [done|].
      rewrite push_back_call_PushBack. apply PushBack_fail; done || lia.
    + destruct (PushBack_spec h v x Hwf)
        as (v1 & h1 & Hr & Hwf1 & Hfr & Hs1 & _ & _ & Hdrop).
      { intros Heq. destruct (can_alloc _) eqn:Hc; [done|].
        destruct Hok. done. }
      erewrite bind_ok in Hrun
        by (rewrite push_back_call_PushBack; exact Hr).
      injection Hrun as <- <- <-. split; [done|]. split; [done|].
      intros HI _. unfold I2. rewrite Hdrop.
      destruct (size_ v =? capacity_ v); [apply I2_replicate|].
      apply I2_further; [done|lia].
  - (* Insert *)
    destruct (decide (0 <= index <= size_ v)) as [Hi|Hi].
    + destruct (can_alloc (insert_capacity v)) eqn:Hc.
      * erewrite bind_ok in Hrun by (by apply insert_call_ok).
        injection Hrun as <- <- <-.
        destruct (inserted_state h v index x (release_block h (items_ v))
                    Hwf Hi Hc) as (Hwf' & Hst & _).
        split; [done|]. split; [by apply frame_new_block|].
        intros _ _. unfold I2. rewrite Hst. cbn [size_].
        replace (Z.to_nat (size_ v + 1)) with (S (length (elements h v)))
          by lia.
        rewrite inserted_block_drop by lia. apply I2_replicate.
      * by rewrite bind_throw with (e := bad_alloc) in Hrun
          by (by apply insert_call_fail).
    + by rewrite bind_undefined in Hrun
        by (by apply insert_call_out_of_range).
  - (* PopBack *)
    destruct (decide (size_ v = 0)) as [Hz|Hnz].
    + by rewrite bind_undefined in Hrun by (by apply PopBack_empty).
    + destruct (PopBack_spec h v Hwf) as (Hr & Hwf' & _); [lia|].
      erewrite bind_ok in Hrun by exact Hr.
      injection Hrun as <- <- <-.
      split; [done|]. split; [by apply frame_same_heap|]. by intros _ [].
  - (* Erase *)
    destruct (decide (0 <= index < size_ v)) as [Hi|Hi].
    + destruct (Erase_spec h v index Hwf Hi)
        as (pos & v1 & h1 & Hr & Hwf1 & Hfr & Hv1 & _ & _ & _ & Hdrop).
      erewrite bind_ok in Hrun by exact Hr.
      injection Hrun as <- <- <-. split; [done|]. split; [done|].
      intros HI Htr. unfold I2. rewrite Hdrop.
      rewrite decide_False by lia. apply Forall_app. split.
      * apply Forall_fmap, Forall_true. intros y. right. by exists y.
      * done.
    + destruct (decide (index = size_ v)) as [->|Hne].
      * by rewrite bind_undefined in Hrun by (by apply Erase_at_end).
      * by rewrite bind_undefined in Hrun
          by (apply Erase_out_of_range; lia).
Qed.

(** What a call that returns does to the heap: it leaves it as it is,
    rewrites the block of the container, or releases that block and
    allocates one whose slots from the size on are default values; and it
    never lowers the capacity. *)
Lemma exec_heap_shape m h v r v' h' :
  wf h v → size_t_args m → exec m v h = Ok (r, v', h') →
  capacity_ v <= capacity_ v' ∧
  ((items_ v' = items_ v ∧
    (h' = h ∨ ∃ l blk, items_ v = Some l ∧ h' = <[l := blk]> h)) ∨
   (items_ v' = Some (fresh (dom h)) ∧
    ∃ blk, h' = <[fresh (dom h) := blk]> (release_block h (items_ v)) ∧
           Forall vacant (drop (Z.to_nat (size_ v')) blk))).
Proof.
  intros Hwf Hargs Hrun. pose proof Hwf as (Hsz & Hcap & _).
  pose proof (elements_length _ _ Hwf) as Hel.
  assert (∀ index x u h',
            store (ArrayPtr_index (items_ v) index) x h = Ok (u, h') →
            ∃ l blk, items_ v = Some l ∧ h' = <[l := blk]> h) as Hstore.
  { clear h' Hrun. intros index x u h' Hst.
    destruct (store_inv _ _ _ _ _ Hst) as (l & off & blk & Hp & _ & _ & _ & ->).
    unfold ArrayPtr_index, ArrayPtr_Get in Hp. cbn [ptr_add] in Hp.
    injection Hp as Hitems _. by eexists _, _. }
  destruct m; cbn [exec size_t_args] in *.
  - injection Hrun as <- <- <-. split; [lia|]. left. by split; [|left].
  - injection Hrun as <- <- <-. split; [lia|]. left. by split; [|left].
  - injection Hrun as <- <- <-. split; [lia|]. left. by split; [|left].
  - injection Hrun as <- <- <-. split; [lia|]. left. by split; [|left].
  - injection Hrun as <- <- <-. split; [lia|]. left. by split; [|left].
  - destruct (bind_inv_ok _ _ _ _ _ Hrun) as (p & h1 & Hsub & Hret).
    injection Hret as <- <- <-. unfold subscript in Hsub.
    destruct (index <? size_ v); [|done]. injection Hsub as _ <-.
    split; [lia|]. left. by split; [|left].
  - destruct (bind_inv_ok _ _ _ _ _ Hrun) as (p & h1 & Hsub & Hrest).
    unfold subscript in Hsub.
    destruct (index <? size_ v); [|done]. injection Hsub as <- <-.
    destruct (bind_inv_ok _ _ _ _ _ Hrest) as ([] & h2 & Hst & Hret).
    injection Hret as <- <- <-. split; [lia|]. left. split; [done|].
    right. by eapply Hstore.
  - destruct (bind_inv_ok _ _ _ _ _ Hrun) as (p & h1 & Hat & Hret).
    injection Hret as <- <- <-. unfold At in Hat.
    destruct (size_ v <=? index); [done|]. injection Hat as _ <-.
    split; [lia|]. left. by split; [|left].
  - destruct (bind_inv_ok _ _ _ _ _ Hrun) as (p & h1 & Hat & Hrest).
    unfold At in Hat.
    destruct (size_ v <=? index); [done|]. injection Hat as <- <-.
    destruct (bind_inv_ok _ _ _ _ _ Hrest) as ([] & h2 & Hst & Hret).
    injection Hret as <- <- <-. split; [lia|]. left. split; [done|].
    right. by eapply Hstore.
  - injection Hrun as <- <- <-. split; [simpl; lia|]. left. by split; [|left].
  - destruct (Z.le_gt_cases new_capacity (capacity_ v)) as [Hn|Hn].
    + erewrite bind_ok in Hrun by (by apply Reserve_noop).
      injection Hrun as <- <- <-. split; [lia|]. left. by split; [|left].
    + destruct (can_alloc new_capacity) eqn:Hc.
      * erewrite bind_ok in Hrun by (apply Reserve_grow; done || lia).
        injection Hrun as <- <- <-. split; [simpl; lia|]. right.
        split; [done|]. eexists. split; [done|]. cbn [size_].
        rewrite drop_app_length' by done. apply I2_replicate.
      * by rewrite bind_throw with (e := bad_alloc) in Hrun
          by (apply Reserve_fail; done || lia).
  - destruct (Z.lt_trichotomy new_size (size_ v)) as [Hn|[Hn|Hn]].
    + erewrite bind_ok in Hrun by (by apply Resize_shrink).
      injection Hrun as <- <- <-. split; [simpl; lia|]. left.
      by split; [|left].
    + subst new_size. erewrite bind_ok in Hrun by apply Resize_same.
      injection Hrun as <- <- <-. split; [lia|]. left. by split; [|left].
    + destruct (Z.le_gt_cases new_size (capacity_ v)) as [Hc|Hc].
      * destruct (Resize_within h v new_size Hwf) as (l & Hl & Hr); [lia|].
        erewrite bind_ok in Hrun by exact Hr.
        injection Hrun as <- <- <-. split; [simpl; lia|]. left.
        split; [done|]. right. by eexists _, _.
      * destruct (can_alloc (resize_capacity new_size v)) eqn:Ha.
        -- erewrite bind_ok in Hrun by (by apply Resize_grow).
           injection Hrun as <- <- <-.
           split; [unfold resize_capacity; simpl; lia|]. right.
           split; [done|]. eexists. split; [done|]. cbn [size_].
           rewrite drop_app_ge by lia. apply Forall_drop, I2_replicate.
        -- by rewrite bind_throw with (e := bad_alloc) in Hrun
             by (by apply Resize_fail).
  - destruct (bind_inv_ok _ _ _ _ _ Hrun) as (v1 & h1 & Hpush & Hret).
    injection Hret as <- <- <-. rewrite push_back_call_PushBack in Hpush.
    cbn [snd] in Hpush.
    destruct (decide (size_ v = capacity_ v)) as [Heq|Hne].
    + destruct (can_alloc (grown_capacity (capacity_ v))) eqn:Hc.
      * rewrite PushBack_grow in Hpush by done.
        injection Hpush as <- <-.
        pose proof (grown_capacity_gt (capacity_ v)).
        split; [simpl; lia|]. right. split; [done|].
        eexists. split; [done|]. cbn [size_].
        rewrite drop_app_ge by lia. rewrite Hel.
        replace (Z.to_nat (size_ v + 1) - Z.to_nat (size_ v))%nat
          with 1%nat by lia.
        cbn [drop]. rewrite drop_0. apply I2_replicate.
      * rewrite PushBack_fail in Hpush by (done || lia). done.
    + destruct (PushBack_room h v x Hwf) as (l & Hl & Hr); [lia|].
      rewrite Hr in Hpush. injection Hpush as <- <-.
      split; [simpl; lia|]. left. split; [done|]. right. by eexists _, _.
  - destruct (decide (0 <= index <= size_ v)) as [Hi|Hi].
    + destruct (can_alloc (insert_capacity v)) eqn:Hc.
      * erewrite bind_ok in Hrun by (by apply insert_call_ok).
        injection Hrun as <- <- <-. split.
        { cbn [capacity_]. unfold insert_capacity.
          pose proof (grown_capacity_gt (capacity_ v)).
          destruct (size_ v =? capacity_ v); lia. }
        right. split; [done|]. eexists. split; [done|]. cbn [size_].
        replace (Z.to_nat (size_ v + 1)) with (S (length (elements h v)))
          by lia.
        rewrite inserted_block_drop by lia. apply I2_replicate.
      * by rewrite bind_throw with (e := bad_alloc) in Hrun
          by (by apply insert_call_fail).
    + by rewrite bind_undefined in Hrun
        by (by apply insert_call_out_of_range).
  - destruct (decide (size_ v = 0)) as [Hz|Hnz].
    + by rewrite bind_undefined in Hrun by (by apply PopBack_empty).
    + destruct (PopBack_spec h v Hwf) as (Hr & _ & _); [lia|].
      erewrite bind_ok in Hrun by exact Hr.
      injection Hrun as <- <- <-. split; [simpl; lia|]. left.
      by split; [|left].
  - destruct (decide (0 <= index < size_ v)) as [Hi|Hi].
    + destruct (Erase_ok h v index Hwf Hi) as (l & Hl & Hr).
      erewrite bind_ok in Hrun by exact Hr.
      injection Hrun as <- <- <-. split; [simpl; lia|]. left.
      split; [done|]. right. by eexists _, _.
    + destruct (decide (index = size_ v)) as [->|Hne].
      * by rewrite bind_undefined in Hrun by (by apply Erase_at_end).
      * by rewrite bind_undefined in Hrun
          by (apply Erase_out_of_range; lia).
Qed.



(** ** Which calls can raise the out-of-range error *)

Lemma nde_ret {A} (a : A) : no_domain_error (ret a).
Proof. by intros h. Qed.

Lemma nde_undefined {A} : no_domain_error (@undefined A).
Proof. by intros h. Qed.

Lemma nde_bad_alloc {A} : no_domain_error (@throw A bad_alloc).
Proof. by intros h. Qed.

Lemma nde_bind {A B} (m : M A) (k : A → M B) :
  no_domain_error m → (∀ a, no_domain_error (k a)) →
  no_domain_error (bind m k).
Proof.
  intros Hm Hk h. unfold bind. specialize (Hm h).
  destruct (m h) as [[a h1]|e|]; [apply Hk|congruence|done].
Qed.

Lemma nde_assert b : no_domain_error (assert b).
Proof. by destruct b. Qed.

Lemma nde_lift_option {A} (o : option A) : no_domain_error (lift_option o).
Proof. by destruct o. Qed.

Lemma nde_load p : no_domain_error (load p).
Proof.
  intros h. unfold load. destruct p as [[l|] off]; [|done].
  destruct (off <? 0); [done|]. destruct (h !! l) as [blk|]; [|done].
  by destruct (blk !! Z.to_nat off).
Qed.

Lemma nde_store p x : no_domain_error (store p x).
Proof.
  intros h. unfold store. destruct p as [[l|] off]; [|done].
  destruct (off <? 0); [done|]. destruct (h !! l) as [blk|]; [|done].
  by case_decide.
Qed.

Lemma nde_ArrayPtr_new n : no_domain_error (ArrayPtr_new n).
Proof. intros h. unfold ArrayPtr_new. by destruct (can_alloc n). Qed.

Lemma nde_ArrayPtr_delete p : no_domain_error (ArrayPtr_delete p).
Proof. intros h. by destruct p. Qed.

Create HintDb nde discriminated.
Hint Resolve nde_ret nde_undefined nde_bad_alloc nde_assert nde_lift_option
  nde_load nde_store nde_ArrayPtr_new nde_ArrayPtr_delete : nde.

Ltac nde_step :=
  first
    [ progress auto with nde
    | apply nde_bind; [|intros ?]
    | match goal with
      | |- no_domain_error (if ?b then _ else _) => destruct b
      | |- no_domain_error (match ?p with (_, _) => _ end) => destruct p
      | |- no_domain_error (match ?p with tt => _ end) => destruct p
      end ].

Ltac nde := repeat nde_step.

Lemma nde_range_length p q : no_domain_error (range_length p q).
Proof. unfold range_length. nde. Qed.
Hint Resolve nde_range_length : nde.

Lemma nde_read_reference (r : reference) :
  no_domain_error (read_reference r).
Proof. destruct r; cbn [read_reference]; nde. Qed.

Lemma nde_move_assign_from p (r : reference) :
  no_domain_error (move_assign_from p r).
Proof. destruct r; cbn [move_assign_from]; nde. Qed.
Hint Resolve nde_read_reference nde_move_assign_from : nde.

Lemma nde_fill_n n : ∀ p x, no_domain_error (fill_n n p x).
Proof. induction n; intros; cbn [fill_n]; nde. Qed.
Hint Resolve nde_fill_n : nde.

Lemma nde_copy_n n : ∀ p q, no_domain_error (copy_n n p q).
Proof. induction n; intros; cbn [copy_n]; nde. Qed.
Hint Resolve nde_copy_n : nde.

Lemma nde_move_n n : ∀ p q, no_domain_error (move_n n p q).
Proof. induction n; intros; cbn [move_n]; nde. Qed.
Hint Resolve nde_move_n : nde.

Lemma nde_copy_backward_n n : ∀ p q, no_domain_error (copy_backward_n n p q).
Proof. induction n; intros; cbn [copy_backward_n]; nde. Qed.
Hint Resolve nde_copy_backward_n : nde.

Lemma nde_move_backward_n n : ∀ p q, no_domain_error (move_backward_n n p q).
Proof. induction n; intros; cbn [move_backward_n]; nde. Qed.
Hint Resolve nde_move_backward_n : nde.

Lemma nde_copy_init init : ∀ p, no_domain_error (copy_init init p).
Proof. induction init; intros; cbn [copy_init]; nde. Qed.
Hint Resolve nde_copy_init : nde.

Lemma nde_equal_n n : ∀ p q, no_domain_error (equal_n n p q).
Proof. induction n; intros; cbn [equal_n]; nde. Qed.
Hint Resolve nde_equal_n : nde.

Lemma nde_lexicographical_compare_n n1 :
  ∀ n2 p q, no_domain_error (lexicographical_compare_n n1 n2 p q).
Proof.
  induction n1; intros [|n2] p q; cbn [lexicographical_compare_n]; nde.
Qed.
Hint Resolve nde_lexicographical_compare_n : nde.

Lemma nde_Reserve n v : no_domain_error (Reserve n v).
Proof.
  unfold Reserve, std_move, std_generate_default, ArrayPtr_swap. nde.
Qed.
Hint Resolve nde_Reserve : nde.

Lemma nde_pos_in_range pos v : no_domain_error (pos_in_range pos v).
Proof. unfold pos_in_range, ptr_le. nde. Qed.
Hint Resolve nde_pos_in_range : nde.

Lemma nde_constructors :
  (∀ size x, no_domain_error (SimpleVector_fill size x)) ∧
  (∀ size, no_domain_error (SimpleVector_sized size)) ∧
  (∀ init, no_domain_error (SimpleVector_init init)) ∧
  (∀ obj, no_domain_error (SimpleVector_reserved obj)) ∧
  (∀ other, no_domain_error (SimpleVector_copy other)) ∧
  (∀ other, no_domain_error (SimpleVector_move other)).
Proof.
  repeat split; intros;
    unfold SimpleVector_sized, SimpleVector_fill, SimpleVector_init,
      SimpleVector_reserved, SimpleVector_copy, SimpleVector_move,
      ArrayPtr_move_assign, std_fill, std_copy, ArrayPtr_swap, std_exchange;
    nde.
Qed.

Lemma nde_assignments (objs : gmap positive SimpleVector)
    (this rhs : positive) :
  no_domain_error (copy_assign this rhs objs) ∧
  no_domain_error (move_assign this rhs objs).
Proof.
  destruct nde_constructors as (_ & _ & _ & _ & Hcopy & _).
  split; unfold copy_assign, move_assign, SimpleVector_destroy, swap,
    ArrayPtr_swap, std_swap.
  - case_decide; [|nde]. apply nde_bind; [nde|intros ?].
    apply nde_bind; [nde|intros ?]. apply nde_bind; [apply Hcopy|intros ?].
    nde.
  - case_decide; nde.
Qed.

Lemma nde_comparisons lhs rhs :
  no_domain_error (op_eq lhs rhs) ∧ no_domain_error (op_ne lhs rhs) ∧
  no_domain_error (op_lt lhs rhs) ∧ no_domain_error (op_le lhs rhs) ∧
  no_domain_error (op_gt lhs rhs) ∧ no_domain_error (op_ge lhs rhs).
Proof.
  repeat split;
    unfold op_ne, op_le, op_gt, op_ge, op_eq, op_lt, std_equal,
      std_lexicographical_compare; nde; case_decide; nde.
Qed.

Lemma nde_reference_calls (item : reference) pos v :
  no_domain_error (PushBack item v) ∧
  no_domain_error (PushBack_move item v) ∧
  no_domain_error (Insert pos item v) ∧
  no_domain_error (Insert_move pos item v).
Proof.
  repeat split;
    unfold PushBack_move, PushBack, Insert, Insert_move, std_distance,
      std_copy, std_move, std_copy_backward, std_move_backward, std_fill,
      std_generate_default, ArrayPtr_move_assign, ArrayPtr_swap;
    cbn [fst snd]; nde.
Qed.

Lemma nde_exec m v :
  (∀ index, m ≠ m_At index) → (∀ index x, m ≠ m_At_assign index x) →
  no_domain_error (exec m v).
Proof.
  intros HAt HAt'. destruct m; cbn [exec];
    try (by exfalso; eapply HAt); try (by exfalso; eapply HAt');
    unfold subscript, Resize, push_back_call, PushBack_move, PushBack,
      insert_call, Insert, Insert_move, PopBack, Erase, std_distance,
      std_copy, std_move, std_copy_backward, std_move_backward, std_fill,
      std_generate_default, ArrayPtr_move_assign, ArrayPtr_swap;
    cbn [fst snd]; nde.
Qed.

(** C5: [At(index)] throws the out-of-range error exactly when
    [index >= size]; otherwise it returns the reference to the slot
    [index], which holds the element at that index.  So [At(size())]
    throws and [At(size() - 1)] on a non-empty container returns.  No
    other call can end in the out-of-range error: no other member function
    (whatever the argument of [PushBack] or [Insert] is bound to), no
    constructor, no assignment and no comparison. *)
Theorem At_is_the_only_domain_error h v (index : Z) :
  wf h v → 0 <= index →
  (At index v h = Throw out_of_range ↔ GetSize v <= index) ∧
  (index < GetSize v →
   ∃ x, elements h v !! Z.to_nat index = Some x ∧
        At index v h = Ok (ptr_add (begin v) index, h) ∧
        load (ptr_add (begin v) index) h = Ok (x, h)) ∧
  At (GetSize v) v h = Throw out_of_range ∧
  (0 < GetSize v →
   ∃ x, At (GetSize v - 1) v h = Ok (ptr_add (begin v) (GetSize v - 1), h) ∧
        load (ptr_add (begin v) (GetSize v - 1)) h = Ok (x, h)) ∧
  (∀ m v', (∀ i, m ≠ m_At i) → (∀ i x, m ≠ m_At_assign i x) →
           no_domain_error (exec m v')) ∧
  (∀ (item : reference) pos v',
     no_domain_error (PushBack item v') ∧
     no_domain_error (PushBack_move item v') ∧
     no_domain_error (Insert pos item v') ∧
     no_domain_error (Insert_move pos item v')) ∧
  (∀ size x, no_domain_error (SimpleVector_fill size x)) ∧
  (∀ size, no_domain_error (SimpleVector_sized size)) ∧
  (∀ init, no_domain_error (SimpleVector_init init)) ∧
  (∀ obj, no_domain_error (SimpleVector_reserved obj)) ∧
  (∀ other, no_domain_error (SimpleVector_copy other)) ∧
  (∀ other, no_domain_error (SimpleVector_move other)) ∧
  (∀ objs (target source : positive),
     no_domain_error (copy_assign target source objs) ∧
     no_domain_error (move_assign target source objs)) ∧
  (∀ lhs rhs,
     no_domain_error (op_eq lhs rhs) ∧ no_domain_error (op_ne lhs rhs) ∧
     no_domain_error (op_lt lhs rhs) ∧ no_domain_error (op_le lhs rhs) ∧
     no_domain_error (op_gt lhs rhs) ∧ no_domain_error (op_ge lhs rhs)).
Proof.
  unfold GetSize. intros Hwf Hi.
  assert (∀ i, 0 <= i < size_ v →
            ∃ x, elements h v !! Z.to_nat i = Some x ∧
                 At i v h = Ok (ptr_add (begin v) i, h) ∧
                 load (ptr_add (begin v) i) h = Ok (x, h)) as Helem.
  { intros i Hrange. destruct (load_element h v i Hwf Hrange) as (x & Hx & Hl).
    exists x. split; [done|]. split; [apply At_ok; lia|done]. }
  split; [|split; [|split; [|split]]].
  - split.
    + intros Hthrow. destruct (Z.le_gt_cases (size_ v) index); [done|].
      by rewrite At_ok in Hthrow by lia.
    + apply At_throw.
  - intros Hlt. apply Helem. lia.
  - apply At_throw. lia.
  - intros Hpos. destruct (Helem (size_ v - 1)) as (x & _ & ? & ?); [lia|].
    by exists x.
  - split; [intros m v'; apply nde_exec|].
    split; [intros; apply nde_reference_calls|].
    pose proof nde_constructors as (? & ? & ? & ? & ? & ?).
    repeat (split; [done|]).
    split; [intros; apply nde_assignments|intros; apply nde_comparisons].
Qed.

(** ** Invariants over the states a program can reach *)







(** ** Equality and order *)

Lemma seq_equal_spec xs : ∀ ys,
  seq_equal xs ys = true ↔
  length xs = length ys ∧
  ∀ (k : nat) x y, xs !! k = Some x → ys !! k = Some y → eq_T x y = true.
Proof.
  induction xs as [|x xs IH]; intros [|y ys]; cbn [seq_equal length].
  - split; [|done]. intros _. split; [done|]. intros k ? ? Hk. done.
  - split; [done|]. intros [? _]. done.
  - split; [done|]. intros [? _]. done.
  - rewrite andb_true_iff, IH. split.
    + intros (Hxy & Hlen & Hall). split; [lia|].
      intros [|k] x' y' Hx Hy; simpl in *; [congruence|by eapply Hall].
    + intros (Hlen & Hall). split; [by apply (Hall 0%nat)|].
      split; [lia|]. intros k x' y' Hx Hy. by apply (Hall (S k)).
Qed.

Lemma seq_less_spec xs : ∀ ys,
  seq_less xs ys = true ↔ lexicographically_less xs ys.
Proof.
  induction xs as [|x xs IH]; intros [|y ys]; cbn [seq_less].
  - split; [done|]. intros (k & _ & [[_ [? Hy]]|(? & ? & Hx & _)]).
    + by rewrite lookup_nil_any in Hy.
    + by rewrite lookup_nil_any in Hx.
  - split; [|done]. intros _. exists 0%nat. split; [lia|].
    left. split; [done|]. by exists y.
  - split; [done|]. intros (k & _ & [[_ [? Hy]]|(? & ? & _ & Hy & _)]).
    + by rewrite lookup_nil_any in Hy.
    + by rewrite lookup_nil_any in Hy.
  - destruct (lt_T x y) eqn:Hxy.
    { split; [|done]. intros _. exists 0%nat. split; [lia|].
      right. by exists x, y. }
    destruct (lt_T y x) eqn:Hyx.
    { split; [done|]. intros (k & Hpre & Hk). destruct k as [|k].
      - destruct Hk as [[Hx _]|(x' & y' & Hx & Hy & Hlt)]; [done|].
        simpl in *. congruence.
      - destruct (Hpre 0%nat) as (x' & y' & Hx & Hy & _ & Hlt); [lia|].
        simpl in *. congruence. }
    rewrite IH. split.
    + intros (k & Hpre & Hk). exists (S k). split; [|done].
      intros [|j] Hj; [by exists x, y|]. apply Hpre. lia.
    + intros (k & Hpre & Hk). destruct k as [|k].
      * destruct Hk as [[Hx _]|(x' & y' & Hx & Hy & Hlt)]; [done|].
        simpl in *. congruence.
      * exists k. split; [|done]. intros j Hj. apply (Hpre (S j)). lia.
Qed.

Lemma seq_equal_refl xs : (∀ x, eq_T x x = true) → seq_equal xs xs = true.
Proof.
  intros Hrefl. induction xs as [|x xs IH]; [done|]. simpl.
  by rewrite Hrefl, IH.
Qed.

Lemma seq_equal_sym xs : ∀ ys,
  (∀ x y, eq_T x y = eq_T y x) → seq_equal xs ys = seq_equal ys xs.
Proof.
  induction xs as [|x xs IH]; intros [|y ys] Hsym; simpl; try done.
  by rewrite Hsym, IH.
Qed.

(** C9: on two containers [operator==] returns true exactly when the sizes
    are equal and the elements at every index compare equal; [operator<]
    is the lexicographic order of the element sequences by the element
    order; [!=], [<=], [>] and [>=] are the negation of [==], the negation
    of the reversed [<], the reversed [<] and the negation of [<].  When
    the element equality is reflexive, a container equals itself; when it
    is symmetric, so is the equality of containers. *)
Theorem comparison_operators h lhs rhs :
  wf h lhs → wf h rhs →
  (∃ b, op_eq lhs rhs h = Ok (b, h) ∧
        (b = true ↔
         GetSize lhs = GetSize rhs ∧
         ∀ (k : nat) x y, elements h lhs !! k = Some x →
                          elements h rhs !! k = Some y → eq_T x y = true)) ∧
  (∃ b, op_lt lhs rhs h = Ok (b, h) ∧
        (b = true ↔
         lexicographically_less (elements h lhs) (elements h rhs))) ∧
  (∃ eq lt gt,
     op_eq lhs rhs h = Ok (eq, h) ∧ op_lt lhs rhs h = Ok (lt, h) ∧
     op_lt rhs lhs h = Ok (gt, h) ∧
     op_ne lhs rhs h = Ok (negb eq, h) ∧
     op_le lhs rhs h = Ok (negb gt, h) ∧
     op_gt lhs rhs h = Ok (gt, h) ∧
     op_ge lhs rhs h = Ok (negb lt, h)) ∧
  ((∀ x, eq_T x x = true) → op_eq lhs lhs h = Ok (true, h)) ∧
  ((∀ x y, eq_T x y = eq_T y x) → op_eq rhs lhs h = op_eq lhs rhs h).
Proof.
  unfold GetSize. intros Hl Hr.
  pose proof (op_eq_ok h lhs rhs Hl Hr) as Heq.
  pose proof (op_lt_ok h lhs rhs Hl Hr) as Hlt.
  pose proof (op_lt_ok h rhs lhs Hr Hl) as Hgt.
  pose proof (elements_length _ _ Hl) as Hel.
  pose proof (elements_length _ _ Hr) as Her.
  pose proof Hl as (Hsl & _). pose proof Hr as (Hsr & _).
  split; [|split; [|split; [|split]]].
  - eexists. split; [exact Heq|]. rewrite seq_equal_spec, Hel, Her.
    split; intros [Hs Hall]; (split; [lia|done]).
  - eexists. split; [exact Hlt|]. apply seq_less_spec.
  - eexists _, _, _. split; [exact Heq|]. split; [exact Hlt|].
    split; [exact Hgt|]. unfold op_ne, op_le, op_gt, op_ge.
    split; [by erewrite bind_ok by exact Heq|].
    split; [by erewrite bind_ok by exact Hgt|].
    split; [done|]. by erewrite bind_ok by exact Hlt.
  - intros Hrefl. rewrite op_eq_ok by done. by rewrite seq_equal_refl.
  - intros Hsym. rewrite !op_eq_ok by done. by rewrite seq_equal_sym.
Qed.

(** ** Moves *)

(** C7 as amended: move construction never fails, gives the new object the
    size, the capacity and the storage block of the source (so the same
    elements) and leaves the source with size 0, capacity 0 and no storage.
    Move assignment never fails either, but it exchanges: the target gets
    the size, capacity and storage of the source, and the source gets those
    the target had; assigning an object to itself changes nothing. *)
Theorem move_transfers_contents h (objs : gmap positive SimpleVector)
    (target source : positive) (this other : SimpleVector) :
  target ≠ source →
  objs !! target = Some this → objs !! source = Some other →
  (∃ this' other',
     SimpleVector_move other h = Ok ((this', other'), h) ∧
     GetSize this' = GetSize other ∧ GetCapacity this' = GetCapacity other ∧
     items_ this' = items_ other ∧ elements h this' = elements h other ∧
     GetSize other' = 0 ∧ GetCapacity other' = 0 ∧ items_ other' = None) ∧
  (∃ objs',
     move_assign target source objs h = Ok (objs', h) ∧
     objs' !! target = Some other ∧ objs' !! source = Some this ∧
     (∀ name, name ≠ target → name ≠ source →
              objs' !! name = objs !! name)) ∧
  move_assign target target objs h = Ok (objs, h).
Proof.
  intros Hne Ht Hs. split; [|split].
  - eexists _, _. split; [apply SimpleVector_move_ok|]. done.
  - eexists. split; [by apply move_assign_ok|].
    split; [by rewrite lookup_insert_ne, lookup_insert_eq|].
    split; [by rewrite lookup_insert_eq|].
    intros name H1 H2. by rewrite !lookup_insert_ne.
  - apply move_assign_self.
Qed.

(** ** Copies *)

Lemma block_kept h v h' other other' :
  wf h v → separate other v → frame other h other' h' →
  block_of h' (items_ v) = block_of h (items_ v).
Proof.
  intros (_ & _ & blk & Hb & _) Hsep [Hkeep _].
  destruct (items_ v) as [l|] eqn:Hi; [|done]. simpl in *.
  rewrite Hb. apply Hkeep; [done|]. intros Ho. by apply (Hsep l).
Qed.

Lemma wf_block_kept h v h' :
  wf h v → block_of h' (items_ v) = block_of h (items_ v) → wf h' v.
Proof.
  intros (? & ? & blk & Hb & ?) Hk. split; [done|]. split; [done|].
  exists blk. by rewrite Hk.
Qed.

Lemma separate_kept h v other other' h' :
  wf h v → separate other v → frame other h other' h' →
  separate other' v.
Proof.
  intros (_ & _ & blk & Hb & _) Hsep [_ Hnew] l Ho Hv.
  destruct (Hnew l Ho) as [Hold|Hnone].
  - by apply (Hsep l).
  - rewrite Hv in Hb. simpl in Hb. congruence.
Qed.

Lemma exec_all_isolated ms : ∀ h v other other' h',
  wf h v → wf h other → separate other v → Forall size_t_args ms →
  exec_all ms other h = Ok (other', h') →
  block_of h' (items_ v) = block_of h (items_ v) ∧ wf h' other'.
Proof.
  induction ms as [|m ms IH]; intros h v other other' h' Hv Ho Hsep Hargs Hrun.
  - injection Hrun as <- <-. done.
  - cbn [exec_all] in Hrun. apply Forall_cons in Hargs as [Hm Hms].
    destruct (bind_inv_ok _ _ _ _ _ Hrun) as ([r o1] & h1 & Hstep & Hrest).
    destruct (exec_spec _ _ _ _ _ _ Ho Hm Hstep) as (Ho1 & Hfr & _).
    pose proof (block_kept _ _ _ _ _ Hv Hsep Hfr) as Hk.
    destruct (IH h1 v o1 other' h') as (Hk' & Hwf'); try done.
    + by eapply wf_block_kept.
    + by eapply separate_kept.
    + split; [|done]. by rewrite Hk'.
Qed.

Lemma block_of_release h (p q : ArrayPtr) :
  (∀ l, q = Some l → p ≠ Some l) →
  block_of (release_block h q) p = block_of h p.
Proof.
  intros Hne. destruct q as [lq|]; [|done]. destruct p as [lp|]; [|done].
  simpl. apply lookup_delete_ne. intros ->. by apply (Hne lp).
Qed.

Lemma elements_block_kept h v h' :
  block_of h' (items_ v) = block_of h (items_ v) →
  storage h' v = storage h v ∧ elements h' v = elements h v.
Proof. intros Hk. unfold elements, storage. by rewrite Hk. Qed.

(** C8: copy construction gives the new object the size, the capacity and
    the elements of the source in a block of its own, and leaves the
    source as it was; whatever is then called on the copy, the size, the
    capacity, the slots and the elements of the source stay.  Copy
    assignment to another object gives the target the size, capacity and
    elements of the source in a fresh block and leaves the source as it
    was; assigning an object to itself changes nothing. *)
Theorem copy_is_deep h (objs : gmap positive SimpleVector)
    (target source : positive) (this other : SimpleVector) :
  wf h other → wf h this → can_alloc (GetCapacity other) = true →
  target ≠ source →
  objs !! target = Some this → objs !! source = Some other →
  separate this other →
  (∃ copy h1,
     SimpleVector_copy other h = Ok (copy, h1) ∧
     GetSize copy = GetSize other ∧ GetCapacity copy = GetCapacity other ∧
     elements h1 copy = elements h other ∧
     separate copy other ∧
     storage h1 other = storage h other ∧
     (∀ ms copy' h2,
        Forall size_t_args ms → exec_all ms copy h1 = Ok (copy', h2) →
        storage h2 other = storage h other ∧
        elements h2 other = elements h other)) ∧
  (∃ objs' h1 this',
     copy_assign target source objs h = Ok (objs', h1) ∧
     objs' !! target = Some this' ∧ objs' !! source = Some other ∧
     GetSize this' = GetSize other ∧ GetCapacity this' = GetCapacity other ∧
     elements h1 this' = elements h other ∧
     separate this' other ∧
     elements h1 other = elements h other) ∧
  copy_assign source source objs h = Ok (objs, h).
Proof.
  unfold GetSize, GetCapacity. intros Hwf Hwft Hc Hne Ht Hs Hsep.
  pose proof (wf_not_fresh _ _ Hwf) as Hfresh.
  pose proof (wf_not_fresh _ _ Hwft) as Hfresht.
  pose proof Hwf as (Hsz & Hcap & _).
  destruct (regrown_state h other (size_ other) (capacity_ other) h Hwf)
    as (Hwf1 & _ & Hels & _); [lia..|].
  rewrite Z.sub_diag in Hels. change (Z.to_nat 0) with 0%nat in Hels.
  cbn [replicate] in Hels. rewrite app_nil_r in Hels.
  set (copy := mkSimpleVector (size_ other) (capacity_ other)
                 (Some (fresh (dom h)))) in *.
  set (h1 := <[fresh (dom h) := _]> h) in *.
  assert (block_of h1 (items_ other) = block_of h (items_ other)) as Hk1
    by (by apply block_of_insert).
  assert (separate copy other) as Hsep1.
  { intros l Hl Ho. injection Hl as <-. done. }
  split; [|split].
  - exists copy, h1. split; [by apply SimpleVector_copy_ok|].
    split; [done|]. split; [done|]. split; [done|]. split; [done|].
    split; [by apply elements_block_kept|].
    intros ms copy' h2 Hargs Hrun.
    destruct (exec_all_isolated ms h1 other copy copy' h2) as (Hk2 & _);
      try done.
    { by eapply wf_block_kept. }
    apply elements_block_kept. by rewrite Hk2.
  - exists (<[target := copy]> objs), (release_block h1 (items_ this)), copy.
    split; [by eapply copy_assign_ok|].
    split; [by rewrite lookup_insert_eq|].
    split; [by rewrite lookup_insert_ne|].
    split; [done|]. split; [done|].
    assert (block_of (release_block h1 (items_ this)) (items_ copy)
            = block_of h1 (items_ copy)) as Hkc.
    { apply block_of_release. intros l Hl Hcopy. injection Hcopy as <-.
      done. }
    assert (block_of (release_block h1 (items_ this)) (items_ other)
            = block_of h (items_ other)) as Hko.
    { rewrite block_of_release; [done|]. intros l Hl Ho.
      by apply (Hsep l). }
    destruct (elements_block_kept _ _ _ Hkc) as [_ Hec].
    destruct (elements_block_kept _ _ _ Hko) as [_ Heo].
    split; [by rewrite Hec|]. split; [done|]. exact Heo.
  - apply copy_assign_self.
Qed.

(** * Further properties of the code *)

(** ** Constructors *)

(** X1: [SimpleVector(size, value)] returns exactly when the allocator
    grants a block of [size] slots, and throws the allocation error
    otherwise.  The new container has size and capacity [size], every
    element is [value], and every block that was in the heap is still
    there.  [SimpleVector(size)] is the same call with the default value. *)
Theorem fill_constructor h (size : Z) x :
  (can_alloc size = true →
   ∃ v h',
     SimpleVector_fill size x h = Ok (v, h') ∧ wf h' v ∧
     GetSize v = size ∧ GetCapacity v = size ∧
     elements h' v = replicate (Z.to_nat size) x ∧
     (∀ l blk, h !! l = Some blk → h' !! l = Some blk) ∧
     ∃ v0 h0,
       SimpleVector_sized size h = Ok (v0, h0) ∧
       elements h0 v0 = replicate (Z.to_nat size) default_T) ∧
  (can_alloc size = false →
   SimpleVector_fill size x h = Throw bad_alloc ∧
   SimpleVector_sized size h = Throw bad_alloc).
Proof.
  split.
  - intros Hc. pose proof (can_alloc_bound _ Hc) as Hb.
    assert (∀ y, storage (<[fresh (dom h) := replicate (Z.to_nat size) y]> h)
                   (mkSimpleVector size size (Some (fresh (dom h))))
                 = replicate (Z.to_nat size) y) as Hst.
    { intros y. eapply storage_at; [done|apply lookup_insert_eq]. }
    assert (∀ y, elements (<[fresh (dom h) := replicate (Z.to_nat size) y]> h)
                   (mkSimpleVector size size (Some (fresh (dom h))))
                 = replicate (Z.to_nat size) y) as Hel.
    { intros y. unfold elements. rewrite Hst. cbn [size_].
      apply take_ge. rewrite length_replicate. lia. }
    eexists _, _. split; [by apply SimpleVector_fill_ok|].
    split.
    { eapply wf_at; [done|apply lookup_insert_eq|simpl; lia|simpl; lia|].
      rewrite length_replicate. simpl. lia. }
    split; [done|]. split; [done|]. split; [apply Hel|]. split.
    + intros l blk Hl. rewrite lookup_insert_ne; [done|].
      intros <-. by rewrite fresh_loc_None in Hl.
    + eexists _, _. unfold SimpleVector_sized.
      split; [by apply SimpleVector_fill_ok|]. apply Hel.
  - intros Hc. unfold SimpleVector_sized.
    by rewrite !SimpleVector_fill_fail.
Qed.

(** X2: [SimpleVector(std::initializer_list)] returns exactly when the
    allocator grants a block of as many slots as the list has values; the
    new container then has that size and capacity and its elements are the
    values of the list in order.  Otherwise it throws the allocation
    error. *)
Theorem initializer_list_constructor h (init : list T) :
  (can_alloc (Z.of_nat (length init)) = true →
   ∃ v h',
     SimpleVector_init init h = Ok (v, h') ∧ wf h' v ∧
     GetSize v = Z.of_nat (length init) ∧
     GetCapacity v = Z.of_nat (length init) ∧
     elements h' v = init ∧
     (∀ l blk, h !! l = Some blk → h' !! l = Some blk)) ∧
  (can_alloc (Z.of_nat (length init)) = false →
   SimpleVector_init init h = Throw bad_alloc).
Proof.
  split.
  - intros Hc. pose proof (can_alloc_bound _ Hc) as Hb.
    set (v := mkSimpleVector (Z.of_nat (length init)) (Z.of_nat (length init))
                (Some (fresh (dom h)))).
    assert (storage (<[fresh (dom h) := init]> h) v = init) as Hst
      by (eapply storage_at; [done|apply lookup_insert_eq]).
    exists v, (<[fresh (dom h) := init]> h).
    split; [by apply SimpleVector_init_ok|]. split.
    { eapply wf_at; [done|apply lookup_insert_eq|simpl; lia|simpl; lia|done]. }
    split; [done|]. split; [done|]. split.
    + unfold elements. rewrite Hst. apply take_ge. simpl. lia.
    + intros l blk Hl. rewrite lookup_insert_ne; [done|].
      intros <-. by rewrite fresh_loc_None in Hl.
  - intros Hc. unfold SimpleVector_init.
    by apply bind_throw, ArrayPtr_new_fail.
Qed.

(** ** Appends that find room *)

Lemma push_back_all_room calls : ∀ h v,
  wf h v → size_ v + Z.of_nat (length calls) <= capacity_ v →
  ∃ v' h',
    push_back_all calls v h = Ok (v', h') ∧ wf h' v' ∧
    items_ v' = items_ v ∧ capacity_ v' = capacity_ v ∧
    size_ v' = size_ v + Z.of_nat (length calls) ∧
    elements h' v' = elements h v ++ calls.*2 ∧
    (∀ l blk, h !! l = Some blk → items_ v ≠ Some l → h' !! l = Some blk).
Proof.
  induction calls as [|call calls IH]; intros h v Hwf Hroom.
  - exists v, h. split; [done|]. split; [done|]. split; [done|].
    split; [done|]. cbn [length]. split; [lia|].
    split; [by rewrite app_nil_r|done].
  - cbn [length] in Hroom.
    destruct (PushBack_room h v call.2 Hwf) as (l & Hl & Hrun); [lia|].
    destruct (PushBack_spec h v call.2 Hwf)
      as (v1 & h1 & Hrun' & Hwf1 & [Hkeep _] & Hs1 & Hc1 & Hel1 & _); [lia|].
    rewrite Hrun in Hrun'. injection Hrun' as <- <-.
    destruct (Z.eqb_spec (size_ v) (capacity_ v)) as [|_]; [lia|].
    destruct (IH _ _ Hwf1) as (v' & h' & Hr & Hwf' & Hi & Hc & Hs & Hel & Hk).
    { rewrite Hs1, Hc1. lia. }
    exists v', h'. cbn [push_back_all].
    erewrite bind_ok by (rewrite push_back_call_PushBack; exact Hrun).
    split; [exact Hr|]. split; [done|]. split; [by rewrite Hi|].
    split; [by rewrite Hc, Hc1|]. split; [rewrite Hs, Hs1; cbn [length]; lia|].
    split.
    + rewrite Hel, Hel1, <- app_assoc. done.
    + intros l' blk Hl' Hne. apply Hk; [by apply Hkeep|done].
Qed.

(** X3: while the size stays within the capacity, [PushBack] (either
    overload) never asks the allocator for anything: any run of appends
    that fits returns, keeps the storage block and the capacity, appends
    the values in order and leaves every other block of the heap alone. *)
Theorem push_back_within_capacity_keeps_block h v (calls : list (bool * T)) :
  wf h v → GetSize v + Z.of_nat (length calls) <= GetCapacity v →
  ∃ v' h',
    push_back_all calls v h = Ok (v', h') ∧
    items_ v' = items_ v ∧ GetCapacity v' = GetCapacity v ∧
    GetSize v' = GetSize v + Z.of_nat (length calls) ∧
    elements h' v' = elements h v ++ calls.*2 ∧
    (∀ l blk, h !! l = Some blk → items_ v ≠ Some l → h' !! l = Some blk).
Proof.
  unfold GetSize, GetCapacity. intros Hwf Hroom.
  destruct (push_back_all_room calls h v Hwf Hroom)
    as (v' & h' & Hr & _ & ?). by exists v', h'.
Qed.

(** X4: [SimpleVector(Reserve(n))] builds an empty container of capacity
    [n] (with no allocation at all when [n] is 0), and the next [n]
    appends fill it without reallocating. *)
Theorem reserve_constructor h (n : Z) (calls : list (bool * T)) :
  0 <= n → (0 < n → can_alloc n = true) → Z.of_nat (length calls) <= n →
  ∃ v h1 v' h2,
    SimpleVector_reserved (Reserve_proxy n) h = Ok (v, h1) ∧
    GetSize v = 0 ∧ IsEmpty v = true ∧ GetCapacity v = n ∧
    elements h1 v = [] ∧ (n = 0 → v = SimpleVector_default ∧ h1 = h) ∧
    push_back_all calls v h1 = Ok (v', h2) ∧
    items_ v' = items_ v ∧ GetCapacity v' = n ∧ elements h2 v' = calls.*2.
Proof.
  unfold GetSize, GetCapacity. intros Hn Hc Hlen.
  assert (∃ v h1, SimpleVector_reserved (Reserve_proxy n) h = Ok (v, h1) ∧
                  wf h1 v ∧ size_ v = 0 ∧ capacity_ v = n ∧
                  (n = 0 → v = SimpleVector_default ∧ h1 = h))
    as (v & h1 & Hrun & Hwf & Hs & Hcap & Hzero).
  { destruct (decide (n = 0)) as [->|Hnz].
    - exists SimpleVector_default, h. split; [done|].
      split; [apply wf_default|done].
    - assert (can_alloc n = true) as Hc' by (apply Hc; lia).
      pose proof (can_alloc_bound _ Hc') as Hb.
      eexists _, _. split; [apply SimpleVector_reserved_ok; done || lia|].
      split; [|split; [done|split; [done|lia]]].
      eapply wf_at; [done|apply lookup_insert_eq|simpl; lia|simpl; lia|].
      rewrite length_replicate. simpl. lia. }
  destruct (push_back_all_room calls h1 v Hwf)
    as (v' & h2 & Hr & _ & Hi & Hc2 & _ & Hel & _); [lia|].
  assert (elements h1 v = []) as Hnil.
  { unfold elements. rewrite Hs. apply take_0. }
  exists v, h1, v', h2. split; [done|]. split; [done|].
  split; [unfold IsEmpty; by rewrite Hs|]. split; [done|]. split; [done|].
  split; [done|]. split; [done|]. split; [done|]. split; [lia|].
  by rewrite Hel, Hnil.
Qed.

(** ** Resize, then Resize *)

(** What [Resize] makes of the elements, in one equation: the first
    [new_size] of them, followed by default values up to [new_size]. *)
Lemma Resize_elements h v (new_size : Z) :
  wf h v → 0 <= new_size →
  (capacity_ v < new_size → can_alloc (resize_capacity new_size v) = true) →
  ∃ v' h',
    Resize new_size v h = Ok (v', h') ∧ wf h' v' ∧ size_ v' = new_size ∧
    (new_size <= capacity_ v → capacity_ v' = capacity_ v) ∧
    elements h' v'
    = take (Z.to_nat new_size) (elements h v)
      ++ replicate (Z.to_nat (new_size - size_ v)) default_T.
Proof.
  intros Hwf Hn Hc. pose proof (elements_length _ _ Hwf) as Hel.
  pose proof Hwf as (Hsz & Hcap & blk & Hblk & Hlen).
  destruct (Z.lt_total new_size (size_ v)) as [Hlt|[->|Hgt]].
  - exists (set_size_ new_size v), h. split; [by apply Resize_shrink|].
    split; [|split; [done|split; [done|]]].
    + split; [simpl; lia|]. split; [done|]. by exists blk.
    + replace (Z.to_nat (new_size - size_ v)) with 0%nat by lia.
      cbn [replicate]. rewrite app_nil_r. unfold elements.
      cbn [set_size_ size_]. rewrite take_take.
      replace (Z.to_nat new_size `min` Z.to_nat (size_ v))%nat
        with (Z.to_nat new_size) by lia.
      done.
  - exists v, h. split; [apply Resize_same|]. split; [done|].
    split; [done|]. split; [done|]. rewrite Z.sub_diag. cbn [Z.to_nat replicate].
    rewrite app_nil_r, take_ge by lia. done.
  - destruct (Z.le_gt_cases new_size (capacity_ v)) as [Hle|Hbig].
    + destruct (Resize_within h v new_size Hwf) as (l & Hl & Hrun); [lia|].
      eexists _, _. split; [exact Hrun|].
      set (blk' := elements h v ++ _ ++ _).
      assert (h !! l = Some blk) as Hhl by (by rewrite Hl in Hblk).
      assert (storage h v = blk) as Hst by (by apply wf_storage).
      assert (length blk' = length blk) as Hlen'.
      { unfold blk'. rewrite !length_app, length_replicate, length_drop, Hel.
        rewrite Hst. lia. }
      assert (storage (<[l := blk']> h) (set_size_ new_size v) = blk') as Hst'.
      { eapply storage_at; [done|apply lookup_insert_eq]. }
      split; [|split; [done|split; [done|]]].
      * eapply wf_at; [done|apply lookup_insert_eq|simpl; lia|done|].
        simpl. lia.
      * unfold elements at 1. rewrite Hst'. cbn [set_size_ size_]. unfold blk'.
        rewrite app_assoc, take_app_length'
          by (rewrite length_app, length_replicate; lia).
        by rewrite (take_ge (elements h v)) by lia.
    + specialize (Hc Hbig). pose proof (can_alloc_bound _ Hc) as Hb.
      destruct (regrown_state h v new_size (resize_capacity new_size v)
                  (release_block h (items_ v)) Hwf)
        as (Hwf' & _ & Hels & _); [unfold resize_capacity in *; lia..|].
      eexists _, _. split; [by apply Resize_grow|]. split; [done|].
      split; [done|]. split; [lia|]. rewrite Hels.
      by rewrite (take_ge (elements h v)) by lia.
Qed.

(** X5: the values that a shrinking [Resize] or a [Clear] cuts off never
    come back: after [Resize(k)] with [k <= size], a [Resize(n)] with
    [n >= k] gives the first [k] old elements followed by [n - k] default
    values, whether or not it has to reallocate; after [Clear],
    [Resize(n)] gives [n] default values. *)
Theorem resize_never_brings_back_cut_values h v (k n : Z) :
  wf h v → 0 <= k <= GetSize v → k <= n →
  (GetCapacity v < n → can_alloc (Z.max n (2 * GetCapacity v)) = true) →
  (∃ v1 v2 h2,
     Resize k v h = Ok (v1, h) ∧ Resize n v1 h = Ok (v2, h2) ∧
     GetSize v2 = n ∧
     elements h2 v2
     = take (Z.to_nat k) (elements h v)
       ++ replicate (Z.to_nat (n - k)) default_T) ∧
  (∃ v2 h2,
     Resize n (Clear v) h = Ok (v2, h2) ∧ GetSize v2 = n ∧
     elements h2 v2 = replicate (Z.to_nat n) default_T).
Proof.
  unfold GetSize, GetCapacity. intros Hwf Hk Hn Hc.
  pose proof (elements_length _ _ Hwf) as Hel.
  pose proof Hwf as (Hsz & Hcap & blk & Hblk & Hlen).
  assert (∀ j, 0 <= j <= size_ v →
            wf h (set_size_ j v) ∧
            elements h (set_size_ j v) = take (Z.to_nat j) (elements h v))
    as Hcut.
  { intros j Hj. split.
    - split; [simpl; lia|]. split; [done|]. by exists blk.
    - unfold elements. cbn [set_size_ size_]. rewrite take_take.
      f_equal. lia. }
  assert (∀ j, 0 <= j <= size_ v → j <= n →
            ∃ v2 h2, Resize n (set_size_ j v) h = Ok (v2, h2) ∧ size_ v2 = n ∧
              elements h2 v2 = take (Z.to_nat j) (elements h v)
                               ++ replicate (Z.to_nat (n - j)) default_T)
    as Hregrow.
  { intros j Hj Hjn. destruct (Hcut j Hj) as (Hwfj & Helj).
    destruct (Resize_elements h (set_size_ j v) n Hwfj)
      as (v2 & h2 & Hrun & _ & Hs2 & _ & Hels); [lia|exact Hc|].
    exists v2, h2. split; [done|]. split; [done|]. rewrite Hels, Helj.
    rewrite take_take. cbn [set_size_ size_]. do 2 f_equal. lia. }
  split.
  - destruct (Hregrow k Hk Hn) as (v2 & h2 & Hrun & Hs2 & Hels).
    destruct (decide (k = size_ v)) as [->|Hne].
    + exists v, v2, h2. split; [apply Resize_same|].
      replace v with (set_size_ (size_ v) v) at 1 by (by destruct v). done.
    + exists (set_size_ k v), v2, h2.
      split; [apply Resize_shrink; [done|lia]|done].
  - destruct (Hregrow 0) as (v2 & h2 & Hrun & Hs2 & Hels); [lia..|].
    exists v2, h2. split; [exact Hrun|]. split; [done|].
    rewrite Hels, take_0, Z.sub_0_r. done.
Qed.

(** ** PushBack, then PopBack *)

(** X6: [PushBack] followed by [PopBack] returns and gives back the size
    and the elements the container had; the capacity never goes down.
    The argument is any object that can be read, except, on a full
    container, a slot of the container's own block; for either overload
    it may be an object outside the heap. *)
Theorem push_back_then_pop_back_restores (by_move : bool) h v
    (item : reference) x :
  wf h v →
  (GetSize v = GetCapacity v →
   can_alloc (grown_capacity (GetCapacity v)) = true) →
  read_reference item h = Ok (x, h) →
  (GetSize v = GetCapacity v → ¬ refers_to_storage item v) →
  (∃ v1 h1 v2,
     PushBack item v h = Ok (v1, h1) ∧
     PopBack v1 h1 = Ok (v2, h1) ∧
     GetSize v2 = GetSize v ∧ elements h1 v2 = elements h v ∧
     GetCapacity v <= GetCapacity v2 ∧ GetCapacity v2 = GetCapacity v1) ∧
  (∃ v1 h1 v2,
     push_back_call (by_move, x) v h = Ok (v1, h1) ∧
     PopBack v1 h1 = Ok (v2, h1) ∧
     GetSize v2 = GetSize v ∧ elements h1 v2 = elements h v ∧
     GetCapacity v <= GetCapacity v2 ∧ GetCapacity v2 = GetCapacity v1).
Proof.
  unfold GetSize, GetCapacity. intros Hwf Hc Hread Hout.
  pose proof (elements_length _ _ Hwf) as Hel. pose proof Hwf as (Hsz & _).
  assert (∀ item' : reference,
            read_reference item' h = Ok (x, h) →
            (size_ v = capacity_ v → ¬ refers_to_storage item' v) →
            ∃ v1 h1 v2,
              PushBack item' v h = Ok (v1, h1) ∧
              PopBack v1 h1 = Ok (v2, h1) ∧
              size_ v2 = size_ v ∧ elements h1 v2 = elements h v ∧
              capacity_ v <= capacity_ v2 ∧ capacity_ v2 = capacity_ v1)
    as Hany.
  { intros item' Hread' Hout'.
    destruct (PushBack_by_reference h v item' x Hwf Hc Hread' Hout')
      as (v1 & h1 & Hrun & Hwf1 & _ & Hs1 & Hc1 & Hel1 & _).
    destruct (PopBack_spec h1 v1 Hwf1) as (Hpop & _ & Hst); [lia|].
    exists v1, h1, (set_size_ (size_ v1 - 1) v1).
    split; [done|]. split; [done|]. split; [simpl; lia|]. split.
    - unfold elements at 1. rewrite Hst. cbn [set_size_ size_].
      replace (Z.to_nat (size_ v1 - 1))
        with (Z.to_nat (size_ v1 - 1) `min` Z.to_nat (size_ v1))%nat by lia.
      rewrite <- take_take. fold (elements h1 v1). rewrite Hel1.
      rewrite take_app_length' by lia. done.
    - split; [|done]. cbn [set_size_ capacity_]. rewrite Hc1.
      destruct (Z.eqb_spec (size_ v) (capacity_ v)); [|lia].
      pose proof (grown_capacity_gt (capacity_ v)). lia. }
  split; [by apply Hany|].
  rewrite push_back_call_PushBack. apply Hany; [done|].
  intros _ (l & off & Hitem & _). discriminate Hitem.
Qed.

(** ** Writing through operator[] *)

(** X7: an assignment through [operator[]] at an index below the size
    replaces that element and no other, keeps size, capacity and storage
    block, and the same index reads the value back; at an index that is
    not below the size the assertion fails. *)
Theorem subscript_write_then_read h v (index : Z) x :
  wf h v → 0 <= index →
  (index < GetSize v →
   ∃ p h',
     subscript index v h = Ok (p, h) ∧
     exec (m_assign index x) v h = Ok (ret_void, v, h') ∧
     wf h' v ∧
     elements h' v = <[Z.to_nat index := x]> (elements h v) ∧
     subscript index v h' = Ok (p, h') ∧ load p h' = Ok (x, h') ∧
     (∀ l blk, h !! l = Some blk → items_ v ≠ Some l → h' !! l = Some blk)) ∧
  (GetSize v <= index →
   subscript index v h = Undefined ∧
   exec (m_assign index x) v h = Undefined).
Proof.
  unfold GetSize. intros Hwf Hi. split.
  - intros Hlt. pose proof (wf_length _ _ Hwf) as Hlen.
    pose proof Hwf as (Hsz & Hcap & _).
    destruct (wf_items_Some _ _ Hwf) as (l & Hl & Hblk); [lia|].
    set (blk' := <[Z.to_nat index := x]> (storage h v)).
    assert (storage (<[l := blk']> h) v = blk') as Hst
      by (eapply storage_at; [done|apply lookup_insert_eq]).
    assert (ArrayPtr_index (items_ v) index
            = Ptr (Some l) (Z.of_nat (Z.to_nat index))) as Hp.
    { unfold ArrayPtr_index. rewrite Hl. unfold ArrayPtr_Get. cbn [ptr_add].
      f_equal. lia. }
    exists (ArrayPtr_index (items_ v) index), (<[l := blk']> h).
    split; [by apply subscript_ok|]. split.
    { cbn [exec]. erewrite bind_ok by (by apply subscript_ok).
      rewrite Hp. erewrite bind_ok by (eapply store_ok; [done|lia]). done. }
    split.
    { eapply wf_at; [done|apply lookup_insert_eq|done..|].
      unfold blk'. rewrite length_insert. lia. }
    split.
    { unfold elements. rewrite Hst. unfold blk'.
      rewrite take_insert_lt by lia. done. }
    split; [by apply subscript_ok|]. split.
    { rewrite Hp. eapply load_ok; [apply lookup_insert_eq|].
      unfold blk'. apply list_lookup_insert_eq. lia. }
    intros l' blk Hl' Hne. rewrite lookup_insert_ne; [done|].
    intros <-. by rewrite Hl in Hne.
  - intros Hge. split; [by apply subscript_out_of_range|].
    cbn [exec]. by apply bind_undefined, subscript_out_of_range.
Qed.

(** ** What Insert and Erase return *)

(** X8: [Insert] at [begin() + i] never works in place, whether it is
    given a value by [const Type&] or an rvalue that is an object outside
    the heap: whenever the position is valid it asks the allocator for a
    block, also when the size is below the capacity, and throws the
    allocation error if that is refused.  If granted, the value is at
    index [i], the elements before it keep their index, the others move up
    by one, the iterator returned points to the value, the new block is
    one the heap did not have and the old block is released. *)
Theorem insert_places_value_in_new_block (by_move : bool) h v (i : Z) x :
  wf h v → 0 <= i <= GetSize v →
  (can_alloc (insert_capacity v) = true →
   ∃ pos v' h',
     insert_call by_move (ptr_add (begin v) i) x v h = Ok (pos, v', h') ∧
     wf h' v' ∧ GetSize v' = GetSize v + 1 ∧
     GetCapacity v' = insert_capacity v ∧
     elements h' v'
     = take (Z.to_nat i) (elements h v) ++ x :: drop (Z.to_nat i) (elements h v) ∧
     pos = ptr_add (begin v') i ∧ load pos h' = Ok (x, h') ∧
     (∃ l, items_ v' = Some l ∧ h !! l = None) ∧
     (∀ l, items_ v = Some l → h' !! l = None)) ∧
  (can_alloc (insert_capacity v) = false →
   insert_call by_move (ptr_add (begin v) i) x v h = Throw bad_alloc).
Proof.
  unfold GetSize, GetCapacity. intros Hwf Hi.
  split; [|by apply insert_call_fail]. intros Hc.
  pose proof (elements_length _ _ Hwf) as Hel.
  destruct (inserted_state h v i x (release_block h (items_ v)) Hwf Hi Hc)
    as (Hwf' & Hst & Hels).
  eexists _, _, _. split; [by apply insert_call_ok|].
  split; [exact Hwf'|]. split; [done|]. split; [done|].
  split; [exact Hels|]. split.
  { unfold begin, ArrayPtr_Get. cbn [items_ ptr_add]. f_equal; lia. }
  split.
  { replace (Ptr (Some (fresh (dom h))) i)
      with (Ptr (Some (fresh (dom h))) (Z.of_nat (Z.to_nat i)))
      by (f_equal; lia).
    eapply load_ok; [apply lookup_insert_eq|]. unfold inserted_block.
    rewrite lookup_app_r by (rewrite length_take; lia).
    rewrite length_take.
    replace (Z.to_nat i - Z.to_nat i `min` length (elements h v))%nat
      with 0%nat by lia.
    done. }
  split.
  { exists (fresh (dom h)). split; [done|apply fresh_loc_None]. }
  intros l Hl. rewrite lookup_insert_ne.
  - rewrite Hl. simpl. apply lookup_delete_eq.
  - intros Heq. apply (wf_not_fresh h v Hwf). by rewrite Hl, Heq.
Qed.

(** X9: [Erase] at [begin() + i] with [i] below the size returns the
    iterator [begin() + i] of the result: it points to the element that
    followed the erased one, and is [end()] if the last element was
    erased. *)
Theorem erase_returns_following_position h v (i : Z) :
  wf h v → 0 <= i < GetSize v →
  ∃ pos v' h',
    Erase (ptr_add (begin v) i) v h = Ok (pos, v', h') ∧
    pos = ptr_add (begin v') i ∧
    (i + 1 < GetSize v →
     ∃ y, elements h v !! S (Z.to_nat i) = Some y ∧
          load pos h' = Ok (y, h')) ∧
    (i + 1 = GetSize v → pos = end_ v').
Proof.
  unfold GetSize. intros Hwf Hi. pose proof (elements_length _ _ Hwf) as Hel.
  destruct (Erase_spec h v i Hwf Hi)
    as (pos & v' & h' & Hrun & Hwf' & _ & Hv' & Hpos & _ & Hels & _).
  exists pos, v', h'. split; [done|]. split; [done|]. split.
  - intros Hlt.
    destruct (load_element h' v' i Hwf') as (y & Hy & Hload).
    { rewrite Hv'. simpl. lia. }
    exists y. split.
    + rewrite Hels in Hy. rewrite lookup_app_r in Hy
        by (rewrite length_take; lia).
      rewrite length_take, lookup_drop in Hy. rewrite <- Hy. f_equal. lia.
    + by rewrite Hpos.
  - intros Hlast. rewrite Hpos. unfold end_, begin. f_equal.
    rewrite Hv'. simpl. lia.
Qed.

(** X10: the assertions of [Erase] let [pos == end()] through on a
    non-empty container, and the call then hands [std::move] a range whose
    start lies behind its end, which is undefined behaviour.  On an empty
    container the first assertion of [PopBack] and of [Erase] fails. *)
Theorem erase_at_end_is_undefined h v :
  wf h v →
  (0 < GetSize v →
   IsEmpty v = false ∧ pos_in_range (end_ v) v h = Ok (true, h) ∧
   range_length (ptr_add (end_ v) 1) (end_ v) h = Undefined ∧
   Erase (end_ v) v h = Undefined) ∧
  (GetSize v = 0 →
   PopBack v h = Undefined ∧ ∀ pos, Erase pos v h = Undefined).
Proof.
  unfold GetSize. intros Hwf. pose proof Hwf as (Hsz & _). split.
  - intros Hpos. split.
    { unfold IsEmpty. destruct (Z.eqb_spec (size_ v) 0); [lia|done]. }
    split; [apply (pos_in_range_ok h v (size_ v)); lia|].
    split; [|by apply Erase_at_end].
    unfold range_length, end_, ArrayPtr_Get. cbn [ptr_add ptr_diff].
    rewrite decide_True by done. cbn [lift_option].
    erewrite bind_ok by done.
    destruct (Z.ltb_spec (0 + size_ v - (0 + size_ v + 1)) 0); [done|lia].
  - intros Hz. split; [by apply PopBack_empty|].
    intros pos. by apply Erase_empty.
Qed.

(** ** The source of a move *)

(** X11: the source of a move construction is left a usable empty
    container that shares nothing with the new object: an append to it,
    of an outside object or of any slot of the heap (an element of the new
    object too), allocates a block of its own, and whatever is called on
    it afterwards, the new object keeps the elements it took over. *)
Theorem moved_from_source_is_reusable h other (item : reference) x
    (ms : list method) :
  wf h other → Forall size_t_args ms →
  ∃ this' other',
    SimpleVector_move other h = Ok ((this', other'), h) ∧
    wf h this' ∧ wf h other' ∧ IsEmpty other' = true ∧
    elements h this' = elements h other ∧
    (can_alloc 1 = true → read_reference item h = Ok (x, h) →
     ∃ other1 h1,
       PushBack item other' h = Ok (other1, h1) ∧
       elements h1 other1 = [x] ∧ separate other1 this' ∧
       elements h1 this' = elements h other) ∧
    (∀ other2 h2,
       exec_all ms other' h = Ok (other2, h2) →
       wf h2 other2 ∧ wf h2 this' ∧
       elements h2 this' = elements h other).
Proof.
  intros Hwf Hargs. pose proof Hwf as (Hsz & Hcap & blk & Hblk & Hlen).
  set (this' := mkSimpleVector (size_ other) (capacity_ other) (items_ other)).
  set (other' := mkSimpleVector 0 0 None).
  assert (wf h this') as Hwft by (split; [done|split; [done|by exists blk]]).
  assert (wf h other') as Hwfo by apply wf_default.
  assert (separate other' this') as Hsep by (by intros l Hl).
  exists this', other'. split; [apply SimpleVector_move_ok|].
  split; [done|]. split; [done|]. split; [done|]. split; [done|]. split.
  - intros Hc Hread.
    destruct (PushBack_by_reference h other' item x Hwfo)
      as (o1 & h1 & Hrun & Hwf1 & Hfr & _ & _ & Hel1 & _);
      [by intros _|done|by intros _ (l & off & _ & Hl)|].
    exists o1, h1. split; [done|]. split; [done|].
    split; [by eapply separate_kept|].
    pose proof (block_kept _ _ _ _ _ Hwft Hsep Hfr) as Hk.
    by destruct (elements_block_kept _ _ _ Hk) as [_ ->].
  - intros other2 h2 Hrun.
    destruct (exec_all_isolated ms h this' other' other2 h2) as (Hk & Hwf2);
      try done.
    split; [done|]. split; [by eapply wf_block_kept|].
    by destruct (elements_block_kept _ _ _ Hk) as [_ ->].
Qed.

(** ** The order of containers *)

Lemma seq_less_irrefl xs :
  (∀ x, lt_T x x = false) → seq_less xs xs = false.
Proof.
  intros Hirr. induction xs as [|x xs IH]; [done|]. cbn [seq_less].
  by rewrite Hirr.
Qed.

Lemma seq_less_asym xs : ∀ ys,
  (∀ x y, lt_T x y = true → lt_T y x = false) →
  seq_less xs ys = true → seq_less ys xs = false.
Proof.
  induction xs as [|x xs IH]; intros [|y ys] Hasym; cbn [seq_less];
    try done.
  destruct (lt_T x y) eqn:Exy.
  - intros _. by rewrite (Hasym _ _ Exy).
  - destruct (lt_T y x) eqn:Eyx; [done|]. by apply IH.
Qed.

Lemma seq_less_trans xs : ∀ ys zs,
  (∀ x y, lt_T x y = true → lt_T y x = false) →
  (∀ x y z, lt_T x y = true → lt_T x z = true ∨ lt_T z y = true) →
  seq_less xs ys = true → seq_less ys zs = true → seq_less xs zs = true.
Proof.
  induction xs as [|x xs IH]; intros [|y ys] [|z zs] Hasym Hco;
    cbn [seq_less]; try done.
  intros Hxy Hyz. destruct (lt_T x y) eqn:Exy.
  - destruct (Hco x y z Exy) as [Hxz|Hzy]; [by rewrite Hxz|].
    by rewrite (Hasym _ _ Hzy), Hzy in Hyz.
  - destruct (lt_T y x) eqn:Eyx; [done|].
    destruct (lt_T y z) eqn:Eyz.
    + destruct (Hco y z x Eyz) as [H|H]; [congruence|]. by rewrite H.
    + destruct (lt_T z y) eqn:Ezy; [done|].
      assert (lt_T x z = false) as ->.
      { destruct (lt_T x z) eqn:E; [|done].
        destruct (Hco x z y E); congruence. }
      assert (lt_T z x = false) as ->.
      { destruct (lt_T z x) eqn:E; [|done].
        destruct (Hco z x y E); congruence. }
      by eapply IH.
Qed.

(** X12: when the order of the elements is a strict weak order (no two
    elements are below each other, and an element below another is below
    any third or has the third below the other), [operator<] on
    containers is a strict order: no container is below itself, no two
    are below each other, it is transitive, and of any two containers one
    is [<=] the other. *)
Theorem op_lt_is_a_strict_order h a b c :
  wf h a → wf h b → wf h c →
  (∀ x y, lt_T x y = true → lt_T y x = false) →
  (∀ x y z, lt_T x y = true → lt_T x z = true ∨ lt_T z y = true) →
  op_lt a a h = Ok (false, h) ∧
  (op_lt a b h = Ok (true, h) → op_lt b a h = Ok (false, h)) ∧
  (op_lt a b h = Ok (true, h) → op_lt b c h = Ok (true, h) →
   op_lt a c h = Ok (true, h)) ∧
  (op_le a b h = Ok (true, h) ∨ op_le b a h = Ok (true, h)).
Proof.
  intros Ha Hb Hc Hasym Hco.
  assert (∀ x, lt_T x x = false) as Hirr.
  { intros x. destruct (lt_T x x) eqn:E; [|done]. by rewrite (Hasym _ _ E) in E. }
  unfold op_le, bind. rewrite !op_lt_ok by done.
  split; [by rewrite seq_less_irrefl|]. split; [|split].
  - intros Hab. injection Hab as Hab. by rewrite (seq_less_asym _ _ Hasym Hab).
  - intros Hab Hbc. injection Hab as Hab. injection Hbc as Hbc.
    by rewrite (seq_less_trans _ _ _ Hasym Hco Hab Hbc).
  - destruct (seq_less (elements h b) (elements h a)) eqn:Hba; [|by left].
    right. by rewrite (seq_less_asym _ _ Hasym Hba).
Qed.

(** X13: a copy compares equal to its source, in both directions, when
    the equality of the elements is reflexive, and neither is below the
    other when no element is below itself. *)
Theorem copy_compares_equal h other :
  wf h other → can_alloc (GetCapacity other) = true →
  ∃ copy h',
    SimpleVector_copy other h = Ok (copy, h') ∧
    ((∀ x, eq_T x x = true) →
     op_eq copy other h' = Ok (true, h') ∧
     op_eq other copy h' = Ok (true, h') ∧
     op_ne copy other h' = Ok (false, h')) ∧
    ((∀ x, lt_T x x = false) →
     op_lt copy other h' = Ok (false, h') ∧
     op_lt other copy h' = Ok (false, h') ∧
     op_le copy other h' = Ok (true, h') ∧
     op_ge copy other h' = Ok (true, h')).
Proof.
  unfold GetCapacity. intros Hwf Hc.
  pose proof (wf_not_fresh _ _ Hwf) as Hfresh.
  pose proof Hwf as (Hsz & Hcap & _).
  destruct (regrown_state h other (size_ other) (capacity_ other) h Hwf)
    as (Hwf1 & _ & Hels & _); [lia..|].
  rewrite Z.sub_diag in Hels. change (Z.to_nat 0) with 0%nat in Hels.
  cbn [replicate] in Hels. rewrite app_nil_r in Hels.
  set (copy := mkSimpleVector (size_ other) (capacity_ other)
                 (Some (fresh (dom h)))) in *.
  set (h1 := <[fresh (dom h) := _]> h) in *.
  assert (block_of h1 (items_ other) = block_of h (items_ other)) as Hk1
    by (by apply block_of_insert).
  assert (wf h1 other) as Hwfo by (by eapply wf_block_kept).
  destruct (elements_block_kept _ _ _ Hk1) as [_ Helo].
  exists copy, h1. split; [by apply SimpleVector_copy_ok|]. split.
  - intros Hrefl. unfold op_ne, bind. rewrite !op_eq_ok by done.
    rewrite Hels, Helo. by rewrite seq_equal_refl.
  - intros Hirr. unfold op_le, op_ge, bind. rewrite !op_lt_ok by done.
    rewrite Hels, Helo. by rewrite seq_less_irrefl.
Qed.

(** ** When the allocation error is thrown *)

(** X14: the allocation error comes out of a call exactly when the call
    needs a block and the allocator refuses it: [PushBack] when the
    container is full, [Reserve] and [Resize] when the request exceeds the
    capacity, [Insert] and the copy constructor always (they allocate on
    every call). *)
Theorem bad_alloc_exactly_when_refused (by_move : bool) h v x (n i : Z) :
  wf h v → 0 <= n → 0 <= i <= GetSize v →
  (push_back_call (by_move, x) v h = Throw bad_alloc ↔
   GetSize v = GetCapacity v ∧
   can_alloc (grown_capacity (GetCapacity v)) = false) ∧
  (Reserve n v h = Throw bad_alloc ↔
   GetCapacity v < n ∧ can_alloc n = false) ∧
  (Resize n v h = Throw bad_alloc ↔
   GetCapacity v < n ∧ can_alloc (Z.max n (2 * GetCapacity v)) = false) ∧
  (insert_call by_move (ptr_add (begin v) i) x v h = Throw bad_alloc ↔
   can_alloc (insert_capacity v) = false) ∧
  (SimpleVector_copy v h = Throw bad_alloc ↔
   can_alloc (GetCapacity v) = false).
Proof.
  unfold GetSize, GetCapacity. intros Hwf Hn Hi.
  pose proof Hwf as (Hsz & Hcap & _).
  split; [|split; [|split; [|split]]].
  - rewrite push_back_call_PushBack. cbn [snd]. split.
    + intros Hthrow.
      destruct (decide (size_ v = capacity_ v)) as [Heq|Hne].
      * split; [done|].
        destruct (can_alloc (grown_capacity (capacity_ v))) eqn:Hc; [|done].
        rewrite PushBack_grow in Hthrow by done. done.
      * destruct (PushBack_room h v x Hwf) as (l & _ & Hrun); [lia|].
        by rewrite Hrun in Hthrow.
    + intros [Heq Hc]. apply PushBack_fail; done || lia.
  - split.
    + intros Hthrow.
      destruct (Z.le_gt_cases n (capacity_ v)) as [Hle|Hgt].
      * by rewrite Reserve_noop in Hthrow.
      * split; [lia|]. destruct (can_alloc n) eqn:Hc; [|done].
        rewrite Reserve_grow in Hthrow by (done || lia). done.
    + intros [Hgt Hc]. by apply Reserve_fail.
  - split.
    + intros Hthrow.
      destruct (Z.le_gt_cases n (capacity_ v)) as [Hle|Hgt].
      * destruct (Resize_elements h v n Hwf Hn) as (v' & h' & Hrun & _);
          [lia|]. by rewrite Hrun in Hthrow.
      * split; [lia|].
        destruct (can_alloc (Z.max n (2 * capacity_ v))) eqn:Hc; [|done].
        rewrite Resize_grow in Hthrow by done. done.
    + intros [Hgt Hc]. by apply Resize_fail.
  - split.
    + intros Hthrow. destruct (can_alloc (insert_capacity v)) eqn:Hc; [|done].
      rewrite insert_call_ok in Hthrow by done. done.
    + intros Hc. by apply insert_call_fail.
  - split.
    + intros Hthrow. destruct (can_alloc (capacity_ v)) eqn:Hc; [|done].
      rewrite SimpleVector_copy_ok in Hthrow by done. done.
    + apply SimpleVector_copy_fail.
Qed.

(** ** The blocks a call leaves in the heap *)

(** X15: a call of [GetSize], [GetCapacity], [IsEmpty], [begin], [end],
    [operator[]], [At], [Clear], [Reserve], [Resize], [PushBack],
    [Insert], [PopBack] or [Erase] that returns (the argument of
    [PushBack] and [Insert] being an object outside the heap) neither
    leaks a block nor frees or allocates one that is not its own: the
    blocks of the heap afterwards are the block the container owns now
    and the blocks that were there and were not the container's.  So a
    replaced block is released, and every block of another owner is still
    there with its contents.  ([swap] and the assignment operators hand
    blocks from one container to another and are not among these
    calls.) *)
Theorem calls_neither_leak_nor_touch_other_blocks m h v r v' h' :
  wf h v → size_t_args m → exec m v h = Ok (r, v', h') →
  (∀ l, is_Some (h' !! l) ↔
        items_ v' = Some l ∨ (is_Some (h !! l) ∧ items_ v ≠ Some l)) ∧
  (∀ l blk, h !! l = Some blk → items_ v ≠ Some l → h' !! l = Some blk).
Proof.
  intros Hwf Hargs Hrun.
  destruct (exec_spec _ _ _ _ _ _ Hwf Hargs Hrun) as (_ & [Hkeep _] & _).
  split; [|exact Hkeep]. intros l.
  assert (items_ v = Some l → is_Some (h !! l)) as Hown.
  { intros Hl. destruct Hwf as (_ & _ & blk & Hb & _).
    rewrite Hl in Hb. by exists blk. }
  destruct (exec_heap_shape _ _ _ _ _ _ Hwf Hargs Hrun)
    as (_ & [[Hi [->|(lo & blk & Hlo & ->)]]|[Hi (blk & -> & _)]]).
  - rewrite Hi. split.
    + intros Hs. destruct (decide (items_ v = Some l)); [by left|by right].
    + intros [Hl|[Hs _]]; [by apply Hown|done].
  - rewrite Hi. destruct (decide (lo = l)) as [->|Hne].
    + rewrite lookup_insert_eq. split; [by left|by eexists].
    + rewrite lookup_insert_ne by done. split.
      * intros Hs. right. split; [done|]. rewrite Hlo. congruence.
      * intros [Hl|[Hs _]]; [by apply Hown|done].
  - rewrite Hi. destruct (decide (fresh (dom h) = l)) as [<-|Hne].
    + rewrite lookup_insert_eq. split; [by left|by eexists].
    + rewrite lookup_insert_ne by done. split.
      * intros Hs. right. destruct (items_ v) as [lo|]; simpl in Hs.
        -- destruct (decide (lo = l)) as [->|Hlo].
           ++ rewrite lookup_delete_eq in Hs. by destruct Hs.
           ++ rewrite lookup_delete_ne in Hs by done. split; [done|congruence].
        -- done.
      * intros [Hl|[Hs Hl]]; [congruence|].
        destruct (items_ v) as [lo|]; simpl; [|done].
        rewrite lookup_delete_ne; [done|congruence].
Qed.

(** X16: a sequence of calls of the member functions listed for X15 that
    returns never lowers the capacity, and the size stays within it.
    ([swap] and the assignment operators, which give the container the
    capacity of another one, are not among these calls.) *)
Theorem capacity_never_decreases (ms : list method) : ∀ h v v' h',
  wf h v → Forall size_t_args ms → exec_all ms v h = Ok (v', h') →
  GetCapacity v <= GetCapacity v' ∧ 0 <= GetSize v' <= GetCapacity v'.
Proof.
  unfold GetSize, GetCapacity.
  induction ms as [|m ms IH]; intros h v v' h' Hwf Hargs Hrun.
  - injection Hrun as <- <-. destruct Hwf as (? & _). lia.
  - cbn [exec_all] in Hrun. apply Forall_cons in Hargs as [Hm Hms].
    destruct (bind_inv_ok _ _ _ _ _ Hrun) as ([r v1] & h1 & Hstep & Hrest).
    destruct (exec_spec _ _ _ _ _ _ Hwf Hm Hstep) as (Hwf1 & _).
    destruct (exec_heap_shape _ _ _ _ _ _ Hwf Hm Hstep) as (Hcap & _).
    destruct (IH _ _ _ _ Hwf1 Hms Hrest) as (? & ?). lia.
Qed.

(** ** Insert and Erase against PushBack and PopBack *)

(** X18: [Insert] at [end()] and [PushBack] of the same value, an object
    outside the heap, give the same size, the same capacity and the same
    elements: the old ones followed by the value. *)
Theorem insert_at_end_is_push_back (by_move : bool) h v x :
  wf h v → can_alloc (insert_capacity v) = true →
  ∃ pos v1 h1 v2 h2,
    insert_call by_move (end_ v) x v h = Ok (pos, v1, h1) ∧
    push_back_call (by_move, x) v h = Ok (v2, h2) ∧
    GetSize v1 = GetSize v2 ∧ GetCapacity v1 = GetCapacity v2 ∧
    elements h1 v1 = elements h v ++ [x] ∧
    elements h2 v2 = elements h v ++ [x].
Proof.
  unfold GetSize, GetCapacity. intros Hwf Hc.
  pose proof (elements_length _ _ Hwf) as Hel. pose proof Hwf as (Hsz & _).
  assert (0 <= size_ v <= size_ v) as Hi by lia.
  destruct (inserted_state h v (size_ v) x (release_block h (items_ v))
              Hwf Hi Hc) as (_ & _ & Hels).
  destruct (PushBack_spec h v x Hwf)
    as (v2 & h2 & Hrun & _ & _ & Hs2 & Hc2 & Hel2 & _).
  { intros Heq. unfold insert_capacity in Hc.
    by destruct (Z.eqb_spec (size_ v) (capacity_ v)). }
  eexists _, _, _, v2, h2.
  split; [apply (insert_call_ok by_move h v (size_ v) x); done|].
  split; [by rewrite push_back_call_PushBack|].
  split; [by rewrite Hs2|]. split; [by rewrite Hc2|]. split; [|done].
  rewrite Hels, take_ge, drop_ge by lia. done.
Qed.

(** X19: [Erase] at index [i] followed by [Insert] of the erased value at
    the iterator [Erase] returned gives back the size, the capacity and
    the elements; [Insert] then needs a block of the capacity from the
    allocator. *)
Theorem erase_then_insert_restores (by_move : bool) h v (i : Z) x :
  wf h v → 0 <= i < GetSize v →
  elements h v !! Z.to_nat i = Some x →
  can_alloc (GetCapacity v) = true →
  ∃ pos v1 h1 pos' v2 h2,
    Erase (ptr_add (begin v) i) v h = Ok (pos, v1, h1) ∧
    insert_call by_move pos x v1 h1 = Ok (pos', v2, h2) ∧
    GetSize v2 = GetSize v ∧ GetCapacity v2 = GetCapacity v ∧
    elements h2 v2 = elements h v.
Proof.
  unfold GetSize, GetCapacity. intros Hwf Hi Hx Hc.
  pose proof (elements_length _ _ Hwf) as Hel. pose proof Hwf as (Hsz & _).
  destruct (Erase_spec h v i Hwf Hi)
    as (pos & v1 & h1 & Hrun & Hwf1 & _ & Hv1 & Hpos & _ & Hels & _).
  assert (size_ v1 = size_ v - 1) as Hs1 by (by rewrite Hv1).
  assert (capacity_ v1 = capacity_ v) as Hc1 by (by rewrite Hv1).
  assert (insert_capacity v1 = capacity_ v) as Hic.
  { unfold insert_capacity. rewrite Hs1, Hc1.
    destruct (Z.eqb_spec (size_ v - 1) (capacity_ v)); [lia|done]. }
  assert (0 <= i <= size_ v1) as Hi1 by lia.
  assert (can_alloc (insert_capacity v1) = true) as Hc' by (by rewrite Hic).
  destruct (inserted_state h1 v1 i x (release_block h1 (items_ v1))
              Hwf1 Hi1 Hc') as (_ & _ & Hels2).
  eexists pos, v1, h1, _, _, _. split; [exact Hrun|]. split.
  { rewrite Hpos. by apply insert_call_ok. }
  split; [cbn [size_]; lia|]. split; [done|].
  rewrite Hels2, Hels.
  rewrite take_app_length' by (rewrite length_take; lia).
  rewrite drop_app_length' by (rewrite length_take; lia).
  by apply take_drop_middle.
Qed.

(** X20: on a non-empty container [PopBack] and [Erase] of the last
    element leave the same container with the same elements; [Erase]
    returns [end()]. *)
Theorem pop_back_is_erase_of_last h v :
  wf h v → 0 < GetSize v →
  ∃ v1 pos h2,
    PopBack v h = Ok (v1, h) ∧
    Erase (ptr_add (begin v) (GetSize v - 1)) v h = Ok (pos, v1, h2) ∧
    pos = end_ v1 ∧
    elements h2 v1 = elements h v1 ∧
    elements h v1 = take (Z.to_nat (GetSize v - 1)) (elements h v).
Proof.
  unfold GetSize. intros Hwf Hs.
  pose proof (elements_length _ _ Hwf) as Hel.
  destruct (PopBack_spec h v Hwf Hs) as (Hpop & _ & Hst).
  destruct (Erase_spec h v (size_ v - 1) Hwf)
    as (pos & v' & h' & Hrun & _ & _ & -> & Hpos & _ & Hels & _); [lia|].
  assert (elements h (set_size_ (size_ v - 1) v)
          = take (Z.to_nat (size_ v - 1)) (elements h v)) as Hcut.
  { unfold elements. cbn [set_size_ size_]. rewrite take_take.
    rewrite Hst. f_equal. lia. }
  exists (set_size_ (size_ v - 1) v), pos, h'.
  split; [done|]. split; [done|]. split; [by rewrite Hpos|].
  split; [|done]. rewrite Hels, Hcut.
  rewrite (drop_ge (elements h v)) by lia. by rewrite app_nil_r.
Qed.

(** ** Copy assignment and the heap *)

(** X21: copy assignment to another object allocates the block of the
    copy before it touches the target, so it throws the allocation error
    when the block is refused; when it returns, the block the target owned
    has been released, the heap holds the new block of the target and
    every other block it had, and both objects are well formed. *)
Theorem copy_assignment_releases_the_old_block h
    (objs : gmap positive SimpleVector) (target source : positive)
    (this other : SimpleVector) :
  wf h other → wf h this → target ≠ source →
  objs !! target = Some this → objs !! source = Some other →
  separate this other →
  (can_alloc (GetCapacity other) = true →
   ∃ objs' h1 this',
     copy_assign target source objs h = Ok (objs', h1) ∧
     objs' !! target = Some this' ∧ wf h1 this' ∧ wf h1 other ∧
     (∀ l, items_ this = Some l → h1 !! l = None) ∧
     (∀ l, is_Some (h1 !! l) ↔
           items_ this' = Some l ∨ (is_Some (h !! l) ∧ items_ this ≠ Some l))) ∧
  (can_alloc (GetCapacity other) = false →
   copy_assign target source objs h = Throw bad_alloc).
Proof.
  unfold GetCapacity. intros Hwf Hwft Hne Ht Hs Hsep. split.
  - intros Hc. pose proof (wf_not_fresh _ _ Hwf) as Hfresh.
    pose proof (wf_not_fresh _ _ Hwft) as Hfresht.
    pose proof Hwf as (Hsz & Hcap & _).
    destruct (regrown_state h other (size_ other) (capacity_ other) h Hwf)
      as (Hwf1 & _ & _ & _); [lia..|].
    set (copy := mkSimpleVector (size_ other) (capacity_ other)
                   (Some (fresh (dom h)))) in *.
    set (h1 := <[fresh (dom h) := _]> h) in *.
    assert (block_of (release_block h1 (items_ this)) (items_ copy)
            = block_of h1 (items_ copy)) as Hkc.
    { apply block_of_release. intros l Hl Hcopy. injection Hcopy as <-.
      done. }
    assert (block_of (release_block h1 (items_ this)) (items_ other)
            = block_of h (items_ other)) as Hko.
    { rewrite block_of_release; [by apply block_of_insert|]. intros l Hl Ho.
      by apply (Hsep l). }
    exists (<[target := copy]> objs), (release_block h1 (items_ this)), copy.
    split; [by eapply copy_assign_ok|].
    split; [by rewrite lookup_insert_eq|].
    split; [by eapply wf_block_kept|]. split; [by eapply wf_block_kept|].
    split.
    + intros l Hl. rewrite Hl. simpl. apply lookup_delete_eq.
    + intros l. cbn [copy items_].
      destruct (items_ this) as [lo|] eqn:Hlo; simpl.
      * destruct (decide (lo = l)) as [->|Hd].
        -- rewrite lookup_delete_eq. split; [by intros []|].
           intros [Hf|[_ Hl]]; [|done]. injection Hf as Hf. by rewrite Hf in Hfresht.
        -- rewrite lookup_delete_ne by done. unfold h1.
           destruct (decide (fresh (dom h) = l)) as [<-|Hf].
           ++ rewrite lookup_insert_eq. split; [by left|by eexists].
           ++ rewrite lookup_insert_ne by done. split.
              ** intros Hsome. right. split; [done|congruence].
              ** intros [Heq|[Hsome _]]; [congruence|done].
      * unfold h1. destruct (decide (fresh (dom h) = l)) as [<-|Hf].
        -- rewrite lookup_insert_eq. split; [by left|by eexists].
        -- rewrite lookup_insert_ne by done. split.
           ++ intros Hsome. by right.
           ++ intros [Heq|[Hsome _]]; [congruence|done].
  - intros Hc. unfold copy_assign. rewrite decide_True by done.
    rewrite Ht, Hs. cbn [lift_option].
    erewrite bind_ok by done. erewrite bind_ok by done.
    by apply bind_throw, SimpleVector_copy_fail.
Qed.

(** ** Equality against the order *)

Lemma seq_equal_trans xs : ∀ ys zs,
  (∀ x y z, eq_T x y = true → eq_T y z = true → eq_T x z = true) →
  seq_equal xs ys = true → seq_equal ys zs = true → seq_equal xs zs = true.
Proof.
  induction xs as [|x xs IH]; intros [|y ys] [|z zs] Htrans;
    cbn [seq_equal]; try done.
  intros [Hxy Hxs]%andb_prop [Hyz Hys]%andb_prop.
  by rewrite (Htrans _ _ _ Hxy Hyz), (IH _ _ Htrans Hxs Hys).
Qed.

Lemma seq_equal_not_less xs : ∀ ys,
  (∀ x y, eq_T x y = true → lt_T x y = false ∧ lt_T y x = false) →
  seq_equal xs ys = true →
  seq_less xs ys = false ∧ seq_less ys xs = false.
Proof.
  induction xs as [|x xs IH]; intros [|y ys] Hcompat;
    cbn [seq_equal seq_less]; try done.
  intros [Hxy Hxs]%andb_prop. destruct (Hcompat _ _ Hxy) as [-> ->].
  by apply IH.
Qed.

(** X22: [operator==] is transitive when the equality of the elements
    is; and when equal elements are never below each other, containers
    that compare equal are not below each other either: both [<=] and
    [>=] hold and [<], [>] do not. *)
Theorem equality_is_transitive_and_excludes_order h a b c :
  wf h a → wf h b → wf h c →
  op_eq a b h = Ok (true, h) →
  ((∀ x y z, eq_T x y = true → eq_T y z = true → eq_T x z = true) →
   op_eq b c h = Ok (true, h) → op_eq a c h = Ok (true, h)) ∧
  ((∀ x y, eq_T x y = true → lt_T x y = false ∧ lt_T y x = false) →
   op_lt a b h = Ok (false, h) ∧ op_gt a b h = Ok (false, h) ∧
   op_le a b h = Ok (true, h) ∧ op_ge a b h = Ok (true, h)).
Proof.
  intros Ha Hb Hc Hab. rewrite op_eq_ok in Hab by done.
  injection Hab as Hab. split.
  - intros Htrans Hbc. rewrite op_eq_ok in Hbc by done.
    injection Hbc as Hbc. rewrite op_eq_ok by done.
    by rewrite (seq_equal_trans _ _ _ Htrans Hab Hbc).
  - intros Hcompat. destruct (seq_equal_not_less _ _ Hcompat Hab) as [H1 H2].
    unfold op_gt, op_le, op_ge, bind. rewrite !op_lt_ok by done.
    by rewrite H1, H2.
Qed.

(** ** Move assignment, twice *)

(** X23: move assignment between two objects never fails and leaves the
    heap alone, and assigning a second time, in either direction, gives
    every object back what it had: the assignment exchanges the two
    objects. *)
Theorem move_assignment_twice_restores h (objs : gmap positive SimpleVector)
    (target source : positive) (this other : SimpleVector) :
  target ≠ source →
  objs !! target = Some this → objs !! source = Some other →
  ∃ objs1,
    move_assign target source objs h = Ok (objs1, h) ∧
    objs1 !! target = Some other ∧ objs1 !! source = Some this ∧
    move_assign target source objs1 h = Ok (objs, h) ∧
    move_assign source target objs1 h = Ok (objs, h).
Proof.
  intros Hne Ht Hs.
  set (objs1 := <[source := this]> (<[target := other]> objs)).
  assert (objs1 !! target = Some other) as Ht1
    by (unfold objs1; by rewrite lookup_insert_ne, lookup_insert_eq).
  assert (objs1 !! source = Some this) as Hs1
    by (unfold objs1; by rewrite lookup_insert_eq).
  assert (<[source := other]> (<[target := this]> objs1) = objs) as Hback.
  { apply map_eq. intros name. unfold objs1.
    destruct (decide (name = source)) as [->|Hns].
    - by rewrite lookup_insert_eq.
    - rewrite lookup_insert_ne by done.
      destruct (decide (name = target)) as [->|Hnt].
      + by rewrite lookup_insert_eq.
      + by rewrite !lookup_insert_ne by done. }
  assert (<[target := this]> (<[source := other]> objs1) = objs) as Hback'.
  { rewrite insert_insert_ne by done. exact Hback. }
  exists objs1. split; [by apply move_assign_ok|]. split; [done|].
  split; [done|]. split.
  - rewrite (move_assign_ok h objs1 target source other this) by done.
    by rewrite Hback.
  - rewrite (move_assign_ok h objs1 source target this other) by done.
    by rewrite Hback'.
Qed.

(** ** Arguments bound to the container's own elements *)

Lemma PushBack_move_own_element h v (j : Z) x :
  wf h v → size_ v < capacity_ v → 0 <= j < size_ v →
  elements h v !! Z.to_nat j = Some x →
  ∃ l, items_ v = Some l ∧
    PushBack_move (ref_slot (ptr_add (begin v) j)) v h =
      Ok ((set_size_ (size_ v + 1) v, ref_slot (ptr_add (begin v) j)),
          <[l := <[Z.to_nat j := moved_from x]>
                   (<[Z.to_nat (size_ v) := x]> (storage h v))]> h).
Proof.
  intros Hwf Hlt Hj Hx.
  destruct (wf_items_Some _ _ Hwf) as (l & Hi & Hl); [destruct Hwf; lia|].
  pose proof (wf_length _ _ Hwf) as Hlen. destruct Hwf as (Hs & Hc & _).
  unfold elements in Hx. rewrite lookup_take_lt in Hx by lia.
  exists l. split; [done|]. unfold PushBack_move.
  destruct (Z.eqb_spec (size_ v) (capacity_ v)); [lia|].
  unfold begin. rewrite Hi. unfold ArrayPtr_index.
  rewrite ptr_add_Get_nat by lia.
  unfold ArrayPtr_Get. cbn [ptr_add move_assign_from].
  replace (0 + j) with (Z.of_nat (Z.to_nat j)) by lia.
  erewrite bind_ok.
  2:{ erewrite bind_ok by (by eapply load_ok).
      erewrite bind_ok by (eapply store_ok; [done|lia]).
      erewrite bind_ok.
      2:{ eapply store_ok; [apply lookup_insert_eq|].
          rewrite length_insert. lia. }
      rewrite insert_insert_eq. done. }
  rewrite size_t_wrap_small; [done|]. rewrite PTRDIFF_MAX_eq in Hc. lia.
Qed.

(** C1: the claim fails for an append of an element of the container
    itself to a full container, and there the code is at fault.
    [PushBack(v[j])] (either overload) on a full container reads [v[j]]
    after [Reserve] has moved the elements to the new block and released
    the old one: the read is of a released block, which is undefined
    behaviour.  With room left the same call appends the value of
    [v[j]], and so does [Insert(end(), v[j])] on the full container,
    which reads the value before it lets go of the old block. *)
Theorem push_back_of_own_element_reads_released_block h v (j : Z) x :
  wf h v → 0 <= j < GetSize v → elements h v !! Z.to_nat j = Some x →
  (GetSize v = GetCapacity v →
   can_alloc (grown_capacity (GetCapacity v)) = true →
   PushBack (ref_slot (ptr_add (begin v) j)) v h = Undefined ∧
   PushBack_move (ref_slot (ptr_add (begin v) j)) v h = Undefined) ∧
  (GetSize v < GetCapacity v →
   ∃ v' h',
     PushBack (ref_slot (ptr_add (begin v) j)) v h = Ok (v', h') ∧
     GetSize v' = GetSize v + 1 ∧ GetCapacity v' = GetCapacity v ∧
     elements h' v' = elements h v ++ [x]) ∧
  (can_alloc (insert_capacity v) = true →
   ∃ pos v' h',
     Insert (end_ v) (ref_slot (ptr_add (begin v) j)) v h
     = Ok (pos, v', h') ∧
     GetSize v' = GetSize v + 1 ∧ GetCapacity v' = insert_capacity v ∧
     elements h' v' = elements h v ++ [x]).
Proof.
  unfold GetSize, GetCapacity. intros Hwf Hj Hx.
  pose proof (elements_length _ _ Hwf) as Hel. pose proof Hwf as (Hsz & _).
  destruct (load_element h v j Hwf Hj) as (x' & Hx' & Hload).
  assert (x' = x) as -> by congruence.
  assert (∃ l, items_ v = Some l) as (l & Hl).
  { destruct (wf_items_Some _ _ Hwf) as (l & Hl & _); [lia|]. by exists l. }
  split; [|split].
  - intros Heq Hc. apply PushBack_reads_released_block; [done..|].
    exists l, (0 + j). split; [|done]. unfold begin, ArrayPtr_Get.
    by rewrite Hl.
  - intros Hroom.
    destruct (PushBack_by_reference h v (ref_slot (ptr_add (begin v) j)) x
                Hwf) as (v' & h' & Hrun & _ & _ & Hs & Hc & He & _);
      [lia|exact Hload|lia|].
    exists v', h'. split; [done|]. split; [done|]. split; [|done].
    rewrite Hc. destruct (Z.eqb_spec (size_ v) (capacity_ v)); [lia|done].
  - intros Hc. assert (0 <= size_ v <= size_ v) as Hi by lia.
    destruct (inserted_state h v (size_ v) x (release_block h (items_ v))
                Hwf Hi Hc) as (_ & _ & Hels).
    eexists _, _, _. split.
    { apply (Insert_by_reference h v (size_ v) _ x); done. }
    split; [done|]. split; [done|].
    rewrite Hels, take_ge, drop_ge by lia. done.
Qed.

(** X24: an rvalue that is an element of the container itself.
    [PushBack(std::move(v[j]))] with room left appends the value and
    leaves the element [j] moved-from.  [Insert(pos, std::move(v[j]))]
    with [v[j]] before [pos] inserts, and returns an iterator to, the
    moved-from value that [std::move] of the elements before [pos] has
    left in the old block, and the element [j] keeps its value; it ends
    as [Insert] of an outside object that holds that moved-from value
    does.  [Insert(pos, v[j])] inserts the value of the element; and for
    an rvalue that is an object outside the heap the two overloads of
    [Insert] end alike. *)
Theorem rvalue_of_own_element h v (i j : Z) x :
  wf h v → 0 <= j < GetSize v → elements h v !! Z.to_nat j = Some x →
  (GetSize v < GetCapacity v →
   ∃ v' h',
     PushBack_move (ref_slot (ptr_add (begin v) j)) v h
     = Ok ((v', ref_slot (ptr_add (begin v) j)), h') ∧
     GetSize v' = GetSize v + 1 ∧
     elements h' v' = <[Z.to_nat j := moved_from x]> (elements h v) ++ [x]) ∧
  (j < i <= GetSize v → can_alloc (insert_capacity v) = true →
   (∃ pos v' h',
      Insert_move (ptr_add (begin v) i) (ref_slot (ptr_add (begin v) j)) v h
      = Ok (pos, v', h') ∧
      Insert_move (ptr_add (begin v) i) (ref_object (moved_from x)) v h
      = Ok (pos, v', h') ∧
      elements h' v'
      = take (Z.to_nat i) (elements h v)
        ++ moved_from x :: drop (Z.to_nat i) (elements h v) ∧
      load pos h' = Ok (moved_from x, h')) ∧
   (∃ pos v' h',
      Insert (ptr_add (begin v) i) (ref_slot (ptr_add (begin v) j)) v h
      = Ok (pos, v', h') ∧
      elements h' v'
      = take (Z.to_nat i) (elements h v)
        ++ x :: drop (Z.to_nat i) (elements h v) ∧
      load pos h' = Ok (x, h'))) ∧
  (∀ y, Insert_move (ptr_add (begin v) i) (ref_object y) v h
        = Insert (ptr_add (begin v) i) (ref_object y) v h).
Proof.
  unfold GetSize, GetCapacity. intros Hwf Hj Hx.
  pose proof (elements_length _ _ Hwf) as Hel.
  pose proof (wf_length _ _ Hwf) as Hlen. pose proof Hwf as (Hsz & Hcap & _).
  assert (∀ y, 0 <= i <= size_ v → can_alloc (insert_capacity v) = true →
            load (Ptr (Some (fresh (dom h))) i)
              (<[fresh (dom h) :=
                   inserted_block (elements h v) (Z.to_nat i) y
                     (Z.to_nat (insert_capacity v))]>
                 (release_block h (items_ v)))
            = Ok (y, <[fresh (dom h) :=
                         inserted_block (elements h v) (Z.to_nat i) y
                           (Z.to_nat (insert_capacity v))]>
                       (release_block h (items_ v)))) as Hload.
  { intros y Hi Hc.
    replace (Ptr (Some (fresh (dom h))) i)
      with (Ptr (Some (fresh (dom h))) (Z.of_nat (Z.to_nat i)))
      by (f_equal; lia).
    eapply load_ok; [apply lookup_insert_eq|]. unfold inserted_block.
    rewrite lookup_app_r by (rewrite length_take; lia).
    rewrite length_take.
    replace (Z.to_nat i - Z.to_nat i `min` length (elements h v))%nat
      with 0%nat by lia.
    done. }
  split; [|split].
  - intros Hroom.
    destruct (PushBack_move_own_element h v j x Hwf Hroom Hj Hx)
      as (l & Hl & Hrun).
    eexists _, _. split; [exact Hrun|]. split; [done|].
    unfold elements at 1.
    erewrite storage_at by (done || apply lookup_insert_eq).
    cbn [set_size_ size_].
    replace (Z.to_nat (size_ v + 1)) with (S (Z.to_nat (size_ v))) by lia.
    rewrite take_insert_lt by lia.
    rewrite (take_S_r _ _ x) by (apply list_lookup_insert_eq; lia).
    rewrite take_insert_ge by lia. fold (elements h v).
    by rewrite insert_app_l by lia.
  - intros Hi Hc. assert (0 <= i <= size_ v) as Hi' by lia. split.
    + destruct (inserted_state h v i (moved_from x)
                  (release_block h (items_ v)) Hwf Hi' Hc) as (_ & _ & Hels).
      eexists _, _, _.
      split; [apply Insert_move_of_moved_element; done || lia|].
      split; [by apply Insert_move_ok|]. split; [exact Hels|].
      by apply Hload.
    + destruct (inserted_state h v i x (release_block h (items_ v))
                  Hwf Hi' Hc) as (_ & _ & Hels).
      destruct (load_element h v j Hwf Hj) as (x' & Hx' & Hread).
      assert (x' = x) as -> by congruence.
      eexists _, _, _. split; [by apply Insert_by_reference|].
      split; [exact Hels|]. by apply Hload.
  - intros y. destruct (decide (0 <= i <= size_ v)) as [Hi|Hi].
    + destruct (can_alloc (insert_capacity v)) eqn:Hc.
      * by rewrite Insert_ok, Insert_move_ok.
      * pose proof (insert_call_fail true h v i y Hwf Hi Hc) as Hmove.
        pose proof (insert_call_fail false h v i y Hwf Hi Hc) as Hcopy.
        cbn [insert_call] in Hmove, Hcopy. by rewrite Hmove, Hcopy.
    + pose proof (insert_call_out_of_range true h v i y Hi) as Hmove.
      pose proof (insert_call_out_of_range false h v i y Hi) as Hcopy.
      cbn [insert_call] in Hmove, Hcopy. by rewrite Hmove, Hcopy.
Qed.

End SimpleVector.

(** * Worked instances *)

(** An allocator that grants every block of up to 1024 slots. *)
Definition small_alloc (n : Z) : bool := (0 <=? n) && (n <=? 1024).

Lemma small_alloc_bound n : small_alloc n = true → 0 <= n <= PTRDIFF_MAX.
Proof.
  unfold small_alloc. rewrite andb_true_iff, !Z.leb_le, PTRDIFF_MAX_eq. lia.
Qed.

Lemma small_alloc_grants n : 0 <= n <= 1024 → small_alloc n = true.
Proof. unfold small_alloc. rewrite andb_true_iff, !Z.leb_le. lia. Qed.

(** Elements of type [int]: the default is 0 and a move leaves the value. *)
Definition int_default : Z := 0.
Definition int_moved_from (x : Z) : Z := x.

(** Elements that are move-only handles, as [std::unique_ptr<int>]: the
    default is null and a move leaves null behind. *)
Definition handle : Type := option Z.
Definition handle_default : handle := None.
Definition handle_moved_from (x : handle) : handle := None.

(** The container {1, 2, 3} with capacity 4, stored in block 1. *)
Definition demo_heap : gmap positive (list Z) :=
  {[1%positive := [1; 2; 3; 0]]}.
Definition demo_vector : SimpleVector :=
  mkSimpleVector 3 4 (Some 1%positive).

(** Two objects at addresses 1 and 2: {10} in block 1, {20, 30} in block 2. *)
Definition two_heap : gmap positive (list Z) :=
  <[2%positive := [20; 30]]> {[1%positive := [10]]}.
Definition two_target : SimpleVector := mkSimpleVector 1 1 (Some 1%positive).
Definition two_source : SimpleVector := mkSimpleVector 2 2 (Some 2%positive).
Definition two_objects : gmap positive SimpleVector :=
  <[2%positive := two_source]> {[1%positive := two_target]}.

(** A handle appended to an empty container, and the container after the
    handle was popped again. *)
Definition stale_heap : gmap positive (list handle) :=
  {[1%positive := [Some 7]]}.
Definition stale_pushed : SimpleVector := mkSimpleVector 1 1 (Some 1%positive).

(** {1, 2} and {1, 2, 3} over block 1, {1, 2, 4} over block 2. *)
Definition cmp_heap : gmap positive (list Z) :=
  <[2%positive := [1; 2; 4]]> {[1%positive := [1; 2; 3]]}.
Definition cmp_12 : SimpleVector := mkSimpleVector 2 3 (Some 1%positive).
Definition cmp_123 : SimpleVector := mkSimpleVector 3 3 (Some 1%positive).
Definition cmp_124 : SimpleVector := mkSimpleVector 3 3 (Some 2%positive).

(** An allocator that refuses every block. *)
Definition no_alloc (n : Z) : bool := false.

Lemma no_alloc_bound n : no_alloc n = true → 0 <= n <= PTRDIFF_MAX.
Proof. discriminate. Qed.

(** {1, 2, 3} with capacity 4 in block 1 and {1, 2, 3} with capacity 3 in
    block 2. *)
Definition same_heap : gmap positive (list Z) :=
  <[2%positive := [1; 2; 3]]> demo_heap.
Definition same_copy : SimpleVector := mkSimpleVector 3 3 (Some 2%positive).

(** A container reserved for three handles, in block 1: empty, after the
    handles 7 and 8 were appended, after the first was erased (the slot
    that 8 left is moved-from), after a [PopBack] on that (slot 0 keeps
    the handle 8), and after a [Reserve(4)] on that, in block 2. *)
Definition slots_heap (blk : list handle) : gmap positive (list handle) :=
  {[1%positive := blk]}.
Definition slots_vector (size : Z) : SimpleVector :=
  mkSimpleVector size 3 (Some 1%positive).

(** The invariant of a concrete container, by evaluation. *)
Ltac wf_by_computation blk :=
  split; [simpl; lia|];
  split; [rewrite PTRDIFF_MAX_eq; simpl; lia|];
  exists blk; split; reflexivity.

(** The scenario of the spec, run on the model: three appends, an insert
    at index 1, an erase at index 1, a resize to 5 and two pops. *)
Example spec_scenario :
  ∃ v1 h1 v2 h2 v3 h3 v4 h4 v5 h5,
    exec_all int_default int_moved_from small_alloc
      [m_PushBack false 1; m_PushBack false 2; m_PushBack false 3]
      SimpleVector_default ∅ = Ok (v1, h1) ∧
    GetSize v1 = 3 ∧ elements h1 v1 = [1; 2; 3] ∧
    exec_all int_default int_moved_from small_alloc [m_Insert false 1 9] v1 h1
    = Ok (v2, h2) ∧
    GetSize v2 = 4 ∧ elements h2 v2 = [1; 9; 2; 3] ∧
    exec_all int_default int_moved_from small_alloc [m_Erase 1] v2 h2
    = Ok (v3, h3) ∧
    GetSize v3 = 3 ∧ elements h3 v3 = [1; 2; 3] ∧
    exec_all int_default int_moved_from small_alloc [m_Resize 5] v3 h3
    = Ok (v4, h4) ∧
    GetSize v4 = 5 ∧ elements h4 v4 = [1; 2; 3; 0; 0] ∧
    exec_all int_default int_moved_from small_alloc [m_PopBack; m_PopBack]
      v4 h4 = Ok (v5, h5) ∧
    GetSize v5 = 3 ∧ elements h5 v5 = [1; 2; 3].
Proof.
  eexists _, _, _, _, _, _, _, _, _, _.
  repeat (split; [vm_compute; reflexivity|]). vm_compute. reflexivity.
Qed.

(** X25 at three appends, the second one by move. *)
Lemma push_back_follows_doubling_policy_witness :
  (∀ c, 0 <= c <= 2 * 3 → small_alloc c = true) ∧
  ∃ v h,
    push_back_all int_default int_moved_from small_alloc
      [(false, 1); (true, 2); (false, 3)] SimpleVector_default ∅ = Ok (v, h) ∧
    GetSize v = 3 ∧ elements h v = [1; 2; 3] ∧ GetCapacity v = 4.
Proof.
  assert (∀ c, 0 <= c <= 2 * 3 → small_alloc c = true) as Halloc
    by (intros c Hc; apply small_alloc_grants; lia).
  split; [exact Halloc|].
  destruct (push_back_follows_doubling_policy int_default int_moved_from
              small_alloc small_alloc_bound
              [(false, 1); (true, 2); (false, 3)] ∅ Halloc)
    as (v & h & Hrun & Hs & He & Hc & _).
  exists v, h. split; [exact Hrun|]. split; [exact Hs|].
  split; [exact He|exact Hc].
Defined.

(** C2 on {1, 2, 3}: insert 9 at index 1, then erase it. *)
Lemma insert_then_erase_restores_witness :
  wf demo_heap demo_vector ∧ 0 <= 1 <= GetSize demo_vector ∧
  small_alloc (insert_capacity demo_vector) = true ∧
  ∃ pos v1 h1 pos' v2 h2,
    insert_call int_default int_moved_from small_alloc false
      (ptr_add (begin demo_vector) 1) 9 demo_vector demo_heap
    = Ok (pos, v1, h1) ∧
    Erase int_moved_from pos v1 h1 = Ok (pos', v2, h2) ∧
    GetSize v2 = 3 ∧ elements h2 v2 = [1; 2; 3].
Proof.
  assert (wf demo_heap demo_vector) as Hwf
    by wf_by_computation [1; 2; 3; 0].
  assert (0 <= 1 <= GetSize demo_vector) as Hi by (simpl; lia).
  assert (small_alloc (insert_capacity demo_vector) = true) as Hc
    by reflexivity.
  split; [exact Hwf|]. split; [exact Hi|]. split; [exact Hc|].
  destruct (insert_then_erase_restores int_default int_moved_from small_alloc
              small_alloc_bound false demo_heap demo_vector 1 9 Hwf Hi Hc)
    as (pos & v1 & h1 & pos' & v2 & h2 & Hins & _ & Her & Hs & He & _).
  exists pos, v1, h1, pos', v2, h2.
  split; [exact Hins|]. split; [exact Her|]. split; [exact Hs|exact He].
Defined.

(** C3 on {1, 2, 3} with capacity 4: a resize to 5 reallocates to 8 slots. *)
Lemma resize_by_cases_witness :
  wf demo_heap demo_vector ∧ 0 <= 5 ∧
  ∃ v' h',
    Resize int_default int_moved_from small_alloc 5 demo_vector demo_heap
    = Ok (v', h') ∧
    GetSize v' = 5 ∧ GetCapacity v' = 8 ∧ elements h' v' = [1; 2; 3; 0; 0].
Proof.
  assert (wf demo_heap demo_vector) as Hwf
    by wf_by_computation [1; 2; 3; 0].
  assert (0 <= 5) as Hn by lia.
  split; [exact Hwf|]. split; [exact Hn|].
  destruct (resize_by_cases int_default int_moved_from small_alloc
              small_alloc_bound demo_heap demo_vector 5 Hwf Hn)
    as (_ & _ & Hgrow & _).
  destruct Hgrow as (v' & h' & Hrun & Hs & Hc & _ & He);
    [simpl; lia|reflexivity|].
  exists v', h'. split; [exact Hrun|]. split; [exact Hs|].
  split; [exact Hc|exact He].
Defined.



(** C5 on {1, 2, 3}: [At(3)] throws and [At(2)] returns slot 2. *)
Lemma At_is_the_only_domain_error_witness :
  wf demo_heap demo_vector ∧ 0 <= 1 ∧
  At 3 demo_vector demo_heap = Throw out_of_range ∧
  (∃ x, At 2 demo_vector demo_heap = Ok (ptr_add (begin demo_vector) 2, demo_heap) ∧
        load (ptr_add (begin demo_vector) 2) demo_heap = Ok (x, demo_heap)).
Proof.
  assert (wf demo_heap demo_vector) as Hwf
    by wf_by_computation [1; 2; 3; 0].
  assert (0 <= 1) as Hi by lia.
  split; [exact Hwf|]. split; [exact Hi|].
  destruct (At_is_the_only_domain_error int_default int_moved_from Z.eqb Z.ltb
              small_alloc demo_heap demo_vector 1 Hwf Hi)
    as (_ & _ & Hend & Hlast & _).
  split; [exact Hend|]. apply Hlast. simpl. lia.
Defined.

(** C6 on {1, 2, 3} with capacity 4: [Reserve(2)] and [Reserve(10)]. *)
Lemma reserve_by_cases_witness :
  wf demo_heap demo_vector ∧
  Reserve int_default int_moved_from small_alloc 2 demo_vector demo_heap
  = Ok (demo_vector, demo_heap) ∧
  ∃ v' h',
    Reserve int_default int_moved_from small_alloc 10 demo_vector demo_heap
    = Ok (v', h') ∧
    GetCapacity v' = 10 ∧ GetSize v' = 3 ∧ elements h' v' = [1; 2; 3].
Proof.
  assert (wf demo_heap demo_vector) as Hwf
    by wf_by_computation [1; 2; 3; 0].
  split; [exact Hwf|].
  destruct (reserve_by_cases int_default int_moved_from small_alloc
              small_alloc_bound demo_heap demo_vector 2 Hwf) as (Hnoop & _).
  split; [apply Hnoop; simpl; lia|].
  destruct (reserve_by_cases int_default int_moved_from small_alloc
              small_alloc_bound demo_heap demo_vector 10 Hwf) as (_ & Hgrow).
  destruct Hgrow as (v' & h' & Hrun & Hc & Hs & He & _);
    [simpl; lia|reflexivity|].
  exists v', h'. split; [exact Hrun|]. split; [exact Hc|].
  split; [exact Hs|exact He].
Defined.

(** C7 fails as stated for move assignment: the target {10} and the source
    {20, 30}, both built by the initializer-list constructor, are
    exchanged, so the source is left with size 1, capacity 1 and the block
    the target had. *)
Lemma move_assignment_leaves_source_nonempty :
  SimpleVector_init int_default small_alloc [10] ∅
  = Ok (two_target, {[1%positive := [10]]}) ∧
  SimpleVector_init int_default small_alloc [20; 30] {[1%positive := [10]]}
  = Ok (two_source, two_heap) ∧
  ∃ objs' source',
    move_assign 1%positive 2%positive two_objects two_heap
    = Ok (objs', two_heap) ∧
    objs' !! 2%positive = Some source' ∧
    GetSize source' = 1 ∧ GetCapacity source' = 1 ∧
    items_ source' = Some 1%positive ∧
    elements two_heap source' = [10] ∧
    ¬ (GetSize source' = 0 ∧ GetCapacity source' = 0).
Proof.
  split; [vm_compute; reflexivity|]. split; [vm_compute; reflexivity|].
  eexists _, _. split; [vm_compute; reflexivity|].
  split; [vm_compute; reflexivity|].
  split; [reflexivity|]. split; [reflexivity|]. split; [reflexivity|].
  split; [reflexivity|]. intros [H _]. discriminate H.
Qed.

(** C7 as amended, on the target {10} and the source {20, 30}. *)
Lemma move_transfers_contents_witness :
  1%positive ≠ 2%positive ∧
  two_objects !! 1%positive = Some two_target ∧
  two_objects !! 2%positive = Some two_source ∧
  (∃ this' other',
     SimpleVector_move two_source two_heap = Ok ((this', other'), two_heap) ∧
     elements two_heap this' = [20; 30] ∧
     GetSize other' = 0 ∧ GetCapacity other' = 0 ∧ items_ other' = None) ∧
  (∃ objs',
     move_assign 1%positive 2%positive two_objects two_heap
     = Ok (objs', two_heap) ∧
     objs' !! 1%positive = Some two_source ∧
     objs' !! 2%positive = Some two_target).
Proof.
  assert (1%positive ≠ 2%positive) as Hne by discriminate.
  assert (two_objects !! 1%positive = Some two_target) as Ht by reflexivity.
  assert (two_objects !! 2%positive = Some two_source) as Hs by reflexivity.
  split; [exact Hne|]. split; [exact Ht|]. split; [exact Hs|].
  destruct (move_transfers_contents two_heap two_objects 1%positive 2%positive
              two_target two_source Hne Ht Hs) as (Hctor & Hassign & _).
  split.
  - destruct Hctor as (this' & other' & Hrun & _ & _ & _ & He & H0 & H1 & H2).
    exists this', other'. split; [exact Hrun|].
    split; [rewrite He; reflexivity|]. split; [exact H0|].
    split; [exact H1|exact H2].
  - destruct Hassign as (objs' & Hrun & H1 & H2 & _).
    exists objs'. split; [exact Hrun|]. split; [exact H1|exact H2].
Defined.

(** C8: a copy of {20, 30} that is then overwritten, appended to and
    cleared. *)
Lemma copy_is_deep_witness :
  wf two_heap two_source ∧ wf two_heap two_target ∧
  small_alloc (GetCapacity two_source) = true ∧
  separate two_target two_source ∧
  ∃ copy h1,
    SimpleVector_copy int_default small_alloc two_source two_heap
    = Ok (copy, h1) ∧
    elements h1 copy = [20; 30] ∧
    ∀ copy' h2,
      exec_all int_default int_moved_from small_alloc
        [m_assign 0 99; m_PushBack false 5; m_Clear] copy h1
      = Ok (copy', h2) →
      elements h2 two_source = [20; 30].
Proof.
  assert (wf two_heap two_source) as Hwf by wf_by_computation [20; 30].
  assert (wf two_heap two_target) as Hwft by wf_by_computation [10].
  assert (small_alloc (GetCapacity two_source) = true) as Hc by reflexivity.
  assert (separate two_target two_source) as Hsep.
  { intros l Hl Ho. injection Hl as <-. discriminate Ho. }
  assert (1%positive ≠ 2%positive) as Hne by discriminate.
  assert (two_objects !! 1%positive = Some two_target) as Ht by reflexivity.
  assert (two_objects !! 2%positive = Some two_source) as Hs by reflexivity.
  split; [exact Hwf|]. split; [exact Hwft|]. split; [exact Hc|].
  split; [exact Hsep|].
  destruct (copy_is_deep int_default int_moved_from small_alloc
              small_alloc_bound two_heap two_objects 1%positive 2%positive
              two_target two_source Hwf Hwft Hc Hne Ht Hs Hsep)
    as (Hctor & _ & _).
  destruct Hctor as (copy & h1 & Hrun & _ & _ & He & _ & _ & Hiso).
  exists copy, h1. split; [exact Hrun|]. split; [rewrite He; reflexivity|].
  intros copy' h2 Hcalls.
  destruct (Hiso [m_assign 0 99; m_PushBack false 5; m_Clear] copy' h2)
    as (_ & Hels); [|exact Hcalls|rewrite Hels; reflexivity].
  repeat constructor; simpl; lia.
Defined.

(** C9 on integers: {1, 2, 3} < {1, 2, 4}, {1, 2} < {1, 2, 3}, and
    equality is reflexive and symmetric. *)
Lemma comparison_operators_witness :
  wf cmp_heap cmp_123 ∧ wf cmp_heap cmp_124 ∧ wf cmp_heap cmp_12 ∧
  op_lt Z.ltb cmp_123 cmp_124 cmp_heap = Ok (true, cmp_heap) ∧
  op_lt Z.ltb cmp_12 cmp_123 cmp_heap = Ok (true, cmp_heap) ∧
  op_eq Z.eqb cmp_123 cmp_123 cmp_heap = Ok (true, cmp_heap) ∧
  op_eq Z.eqb cmp_124 cmp_123 cmp_heap = op_eq Z.eqb cmp_123 cmp_124 cmp_heap.
Proof.
  assert (wf cmp_heap cmp_123) as H123 by wf_by_computation [1; 2; 3].
  assert (wf cmp_heap cmp_124) as H124 by wf_by_computation [1; 2; 4].
  assert (wf cmp_heap cmp_12) as H12 by wf_by_computation [1; 2; 3].
  split; [exact H123|]. split; [exact H124|]. split; [exact H12|].
  destruct (comparison_operators Z.eqb Z.ltb cmp_heap cmp_123 cmp_124
              H123 H124) as (_ & (b & Hlt & Hb) & _ & Hrefl & Hsym).
  destruct (comparison_operators Z.eqb Z.ltb cmp_heap cmp_12 cmp_123
              H12 H123) as (_ & (b' & Hlt' & Hb') & _).
  split; [|split; [|split]].
  - rewrite Hlt. f_equal. f_equal. apply Hb. exists 2%nat. split.
    + intros [|[|j]] Hj; [by exists 1, 1|by exists 2, 2|lia].
    + right. by exists 3, 4.
  - rewrite Hlt'. f_equal. f_equal. apply Hb'. exists 2%nat. split.
    + intros [|[|j]] Hj; [by exists 1, 1|by exists 2, 2|lia].
    + left. split; [reflexivity|]. by exists 3.
  - apply Hrefl, Z.eqb_refl.
  - apply Hsym, Z.eqb_sym.
Defined.

(** C10 on {1, 2, 3} with capacity 4: a pop, and an erase at index 1. *)
Lemma pop_back_and_erase_keep_capacity_witness :
  wf demo_heap demo_vector ∧ 0 < GetSize demo_vector ∧
  0 <= 1 < GetSize demo_vector ∧
  (∃ v', PopBack demo_vector demo_heap = Ok (v', demo_heap) ∧
         GetCapacity v' = 4 ∧ GetSize v' = 2) ∧
  (∃ pos v' h',
     Erase int_moved_from (ptr_add (begin demo_vector) 1) demo_vector demo_heap
     = Ok (pos, v', h') ∧
     GetCapacity v' = 4 ∧ GetSize v' = 2 ∧
     elements h' v' !! 0%nat = Some 1 ∧ elements h' v' !! 1%nat = Some 3).
Proof.
  assert (wf demo_heap demo_vector) as Hwf
    by wf_by_computation [1; 2; 3; 0].
  assert (0 < GetSize demo_vector) as Hs by (simpl; lia).
  assert (0 <= 1 < GetSize demo_vector) as Hi by (simpl; lia).
  split; [exact Hwf|]. split; [exact Hs|]. split; [exact Hi|].
  destruct (pop_back_and_erase_keep_capacity int_moved_from demo_heap
              demo_vector 1 Hwf Hs Hi) as (Hpop & Herase).
  split.
  - destruct Hpop as (v' & Hrun & Hc & _ & Hsz).
    exists v'. split; [exact Hrun|]. split; [exact Hc|exact Hsz].
  - destruct Herase as (pos & v' & h' & Hrun & Hc & _ & _ & Hsz & Hlow & Hup).
    exists pos, v', h'. split; [exact Hrun|]. split; [exact Hc|].
    split; [exact Hsz|]. split.
    + rewrite (Hlow 0%nat); [reflexivity|simpl; lia].
    + change 1%nat with (2 - 1)%nat at 1.
      rewrite (Hup 2%nat); [reflexivity|simpl; lia].
Defined.

(** ** Instances of the further properties *)

(** X1: three slots filled with 7. *)
Lemma fill_constructor_witness :
  ∃ v h,
    SimpleVector_fill int_default small_alloc 3 7 ∅ = Ok (v, h) ∧
    GetSize v = 3 ∧ GetCapacity v = 3 ∧ elements h v = [7; 7; 7].
Proof.
  destruct (fill_constructor int_default small_alloc small_alloc_bound ∅ 3 7)
    as [Hok _].
  destruct Hok as (v & h & Hrun & _ & Hs & Hc & He & _); [reflexivity|].
  exists v, h. split; [exact Hrun|]. split; [exact Hs|].
  split; [exact Hc|exact He].
Defined.

(** X2: the list {4, 5, 6}. *)
Lemma initializer_list_constructor_witness :
  ∃ v h,
    SimpleVector_init int_default small_alloc [4; 5; 6] ∅ = Ok (v, h) ∧
    GetSize v = 3 ∧ GetCapacity v = 3 ∧ elements h v = [4; 5; 6].
Proof.
  destruct (initializer_list_constructor int_default small_alloc
              small_alloc_bound ∅ [4; 5; 6]) as [Hok _].
  destruct Hok as (v & h & Hrun & _ & Hs & Hc & He & _); [reflexivity|].
  exists v, h. split; [exact Hrun|]. split; [exact Hs|].
  split; [exact Hc|exact He].
Defined.

(** X3: {1, 2, 3} with capacity 4 takes one more value although the
    allocator refuses every request. *)
Lemma push_back_within_capacity_keeps_block_witness :
  wf demo_heap demo_vector ∧
  GetSize demo_vector + Z.of_nat (length [(true, 9)])
  <= GetCapacity demo_vector ∧
  ∃ v' h',
    push_back_all int_default int_moved_from no_alloc [(true, 9)]
      demo_vector demo_heap = Ok (v', h') ∧
    items_ v' = Some 1%positive ∧ GetCapacity v' = 4 ∧
    elements h' v' = [1; 2; 3; 9].
Proof.
  assert (wf demo_heap demo_vector) as Hwf
    by wf_by_computation [1; 2; 3; 0].
  assert (GetSize demo_vector + Z.of_nat (length [(true, 9)])
          <= GetCapacity demo_vector) as Hroom by (simpl; lia).
  split; [exact Hwf|]. split; [exact Hroom|].
  destruct (push_back_within_capacity_keeps_block int_default int_moved_from
              no_alloc no_alloc_bound demo_heap demo_vector [(true, 9)]
              Hwf Hroom) as (v' & h' & Hrun & Hi & Hc & _ & He & _).
  exists v', h'. split; [exact Hrun|]. split; [exact Hi|].
  split; [exact Hc|exact He].
Defined.

(** X4: a container reserved for two values, then filled. *)
Lemma reserve_constructor_witness :
  0 <= 2 ∧ (0 < 2 → small_alloc 2 = true) ∧
  Z.of_nat (length [(false, 5); (true, 6)]) <= 2 ∧
  ∃ v h1 v' h2,
    SimpleVector_reserved int_default int_moved_from small_alloc
      (Reserve_proxy 2) ∅ = Ok (v, h1) ∧
    GetSize v = 0 ∧ GetCapacity v = 2 ∧
    push_back_all int_default int_moved_from small_alloc
      [(false, 5); (true, 6)] v h1 = Ok (v', h2) ∧
    items_ v' = items_ v ∧ GetCapacity v' = 2 ∧ elements h2 v' = [5; 6].
Proof.
  assert (0 <= 2) as Hn by lia.
  assert (0 < 2 → small_alloc 2 = true) as Hc by reflexivity.
  assert (Z.of_nat (length [(false, 5); (true, 6)]) <= 2) as Hl
    by (simpl; lia).
  split; [exact Hn|]. split; [exact Hc|]. split; [exact Hl|].
  destruct (reserve_constructor int_default int_moved_from small_alloc
              small_alloc_bound ∅ 2 [(false, 5); (true, 6)] Hn Hc Hl)
    as (v & h1 & v' & h2 & Hrun & Hs & _ & Hcap & _ & _ & Hpush & Hi & Hc'
        & He).
  exists v, h1, v', h2. split; [exact Hrun|]. split; [exact Hs|].
  split; [exact Hcap|]. split; [exact Hpush|]. split; [exact Hi|].
  split; [exact Hc'|exact He].
Defined.

(** X5: {1, 2, 3} cut to one element and resized to three again. *)
Lemma resize_never_brings_back_cut_values_witness :
  wf demo_heap demo_vector ∧ 0 <= 1 <= GetSize demo_vector ∧ 1 <= 3 ∧
  ∃ v1 v2 h2,
    Resize int_default int_moved_from small_alloc 1 demo_vector demo_heap
    = Ok (v1, demo_heap) ∧
    Resize int_default int_moved_from small_alloc 3 v1 demo_heap
    = Ok (v2, h2) ∧
    GetSize v2 = 3 ∧ elements h2 v2 = [1; 0; 0].
Proof.
  assert (wf demo_heap demo_vector) as Hwf
    by wf_by_computation [1; 2; 3; 0].
  assert (0 <= 1 <= GetSize demo_vector) as Hk by (simpl; lia).
  assert (1 <= 3) as Hn by lia.
  split; [exact Hwf|]. split; [exact Hk|]. split; [exact Hn|].
  destruct (resize_never_brings_back_cut_values int_default int_moved_from
              small_alloc small_alloc_bound demo_heap demo_vector 1 3
              Hwf Hk Hn) as [Hcut _]; [simpl; lia|].
  destruct Hcut as (v1 & v2 & h2 & Hr1 & Hr2 & Hs & He).
  exists v1, v2, h2. split; [exact Hr1|]. split; [exact Hr2|].
  split; [exact Hs|exact He].
Defined.

(** X6: the first element of {1, 2, 3}, which has room for one more,
    appended and popped again; and 9 appended by move and popped again. *)
Lemma push_back_then_pop_back_restores_witness :
  wf demo_heap demo_vector ∧
  read_reference (ref_slot (ptr_add (begin demo_vector) 0)) demo_heap
  = Ok (1, demo_heap) ∧
  (∃ v1 h1 v2,
     PushBack int_default int_moved_from small_alloc
       (ref_slot (ptr_add (begin demo_vector) 0)) demo_vector demo_heap
     = Ok (v1, h1) ∧
     PopBack v1 h1 = Ok (v2, h1) ∧
     GetSize v2 = 3 ∧ elements h1 v2 = [1; 2; 3]) ∧
  (∃ v1 h1 v2,
     push_back_call int_default int_moved_from small_alloc (true, 1)
       demo_vector demo_heap = Ok (v1, h1) ∧
     PopBack v1 h1 = Ok (v2, h1) ∧
     GetSize v2 = 3 ∧ elements h1 v2 = [1; 2; 3]).
Proof.
  assert (wf demo_heap demo_vector) as Hwf
    by wf_by_computation [1; 2; 3; 0].
  assert (read_reference (ref_slot (ptr_add (begin demo_vector) 0)) demo_heap
          = Ok (1, demo_heap)) as Hread by reflexivity.
  split; [exact Hwf|]. split; [exact Hread|].
  destruct (push_back_then_pop_back_restores int_default int_moved_from
              small_alloc small_alloc_bound true demo_heap demo_vector
              (ref_slot (ptr_add (begin demo_vector) 0)) 1 Hwf)
    as (Hcopy & Hmove);
    [reflexivity|exact Hread|intros Hfull; discriminate Hfull|].
  split.
  - destruct Hcopy as (v1 & h1 & v2 & Hpush & Hpop & Hs & He & _).
    exists v1, h1, v2. split; [exact Hpush|]. split; [exact Hpop|].
    split; [exact Hs|exact He].
  - destruct Hmove as (v1 & h1 & v2 & Hpush & Hpop & Hs & He & _).
    exists v1, h1, v2. split; [exact Hpush|]. split; [exact Hpop|].
    split; [exact Hs|exact He].
Defined.

(** X7: [v[1] = 9] on {1, 2, 3}, and [v[3]] is refused. *)
Lemma subscript_write_then_read_witness :
  wf demo_heap demo_vector ∧ 0 <= 1 ∧ 1 < GetSize demo_vector ∧
  (∃ p h',
     exec int_default int_moved_from small_alloc (m_assign 1 9)
       demo_vector demo_heap = Ok (ret_void, demo_vector, h') ∧
     elements h' demo_vector = [1; 9; 3] ∧
     subscript 1 demo_vector h' = Ok (p, h') ∧ load p h' = Ok (9, h')) ∧
  subscript 3 demo_vector demo_heap = Undefined.
Proof.
  assert (wf demo_heap demo_vector) as Hwf
    by wf_by_computation [1; 2; 3; 0].
  assert (0 <= 1) as Hi by lia. assert (0 <= 3) as Hi3 by lia.
  assert (1 < GetSize demo_vector) as Hlt by (simpl; lia).
  split; [exact Hwf|]. split; [exact Hi|]. split; [exact Hlt|]. split.
  - destruct (subscript_write_then_read int_default int_moved_from small_alloc
                demo_heap demo_vector 1 9 Hwf Hi) as [Hin _].
    destruct (Hin Hlt) as (p & h' & _ & Hrun & _ & He & Hsub & Hload & _).
    exists p, h'. split; [exact Hrun|]. split; [exact He|].
    split; [exact Hsub|exact Hload].
  - apply (subscript_write_then_read int_default int_moved_from small_alloc
             demo_heap demo_vector 3 0 Hwf Hi3). simpl. lia.
Defined.

(** X8: 9 inserted at index 1 of {1, 2, 3}, which has a spare slot; with an
    allocator that refuses every block the same call throws. *)
Lemma insert_places_value_in_new_block_witness :
  wf demo_heap demo_vector ∧ 0 <= 1 <= GetSize demo_vector ∧
  (∃ pos v' h',
     insert_call int_default int_moved_from small_alloc false
       (ptr_add (begin demo_vector) 1) 9 demo_vector demo_heap
     = Ok (pos, v', h') ∧
     GetSize v' = 4 ∧ GetCapacity v' = 4 ∧ elements h' v' = [1; 9; 2; 3] ∧
     load pos h' = Ok (9, h') ∧ h' !! 1%positive = None) ∧
  insert_call int_default int_moved_from no_alloc false
    (ptr_add (begin demo_vector) 1) 9 demo_vector demo_heap
  = Throw bad_alloc.
Proof.
  assert (wf demo_heap demo_vector) as Hwf
    by wf_by_computation [1; 2; 3; 0].
  assert (0 <= 1 <= GetSize demo_vector) as Hi by (simpl; lia).
  split; [exact Hwf|]. split; [exact Hi|]. split.
  - destruct (insert_places_value_in_new_block int_default int_moved_from
                small_alloc small_alloc_bound false demo_heap demo_vector 1 9
                Hwf Hi) as [Hok _].
    destruct Hok as (pos & v' & h' & Hrun & _ & Hs & Hc & He & _ & Hload & _
                     & Hold); [reflexivity|].
    exists pos, v', h'. split; [exact Hrun|]. split; [exact Hs|].
    split; [exact Hc|]. split; [exact He|]. split; [exact Hload|].
    apply Hold. reflexivity.
  - apply (insert_places_value_in_new_block int_default int_moved_from
             no_alloc no_alloc_bound false demo_heap demo_vector 1 9 Hwf Hi).
    reflexivity.
Defined.

(** X9: erasing the first of {1, 2, 3} returns the position of 2; erasing
    the last returns [end()]. *)
Lemma erase_returns_following_position_witness :
  wf demo_heap demo_vector ∧ 0 <= 0 < GetSize demo_vector ∧
  ∃ pos v' h',
    Erase int_moved_from (ptr_add (begin demo_vector) 0) demo_vector demo_heap
    = Ok (pos, v', h') ∧
    load pos h' = Ok (2, h').
Proof.
  assert (wf demo_heap demo_vector) as Hwf
    by wf_by_computation [1; 2; 3; 0].
  assert (0 <= 0 < GetSize demo_vector) as Hi by (simpl; lia).
  split; [exact Hwf|]. split; [exact Hi|].
  destruct (erase_returns_following_position int_moved_from demo_heap
              demo_vector 0 Hwf Hi) as (pos & v' & h' & Hrun & _ & Hnext & _).
  destruct Hnext as (y & Hy & Hload); [simpl; lia|].
  exists pos, v', h'. split; [exact Hrun|].
  injection Hy as <-. exact Hload.
Defined.

(** X10: [Erase(end())] on {1, 2, 3}. *)
Lemma erase_at_end_is_undefined_witness :
  wf demo_heap demo_vector ∧ 0 < GetSize demo_vector ∧
  pos_in_range (end_ demo_vector) demo_vector demo_heap
  = Ok (true, demo_heap) ∧
  Erase int_moved_from (end_ demo_vector) demo_vector demo_heap = Undefined.
Proof.
  assert (wf demo_heap demo_vector) as Hwf
    by wf_by_computation [1; 2; 3; 0].
  assert (0 < GetSize demo_vector) as Hs by (simpl; lia).
  split; [exact Hwf|]. split; [exact Hs|].
  destruct (erase_at_end_is_undefined int_moved_from demo_heap demo_vector Hwf)
    as [Hend _].
  destruct (Hend Hs) as (_ & Hrange & _ & Hrun).
  split; [exact Hrange|exact Hrun].
Defined.

(** X11: {1, 2, 3} moved out; the third element of the new object is
    appended to the source, and the source is appended to and resized. *)
Lemma moved_from_source_is_reusable_witness :
  wf demo_heap demo_vector ∧
  ∃ this' other',
    SimpleVector_move demo_vector demo_heap
    = Ok ((this', other'), demo_heap) ∧
    elements demo_heap this' = [1; 2; 3] ∧
    (∃ other1 h1,
       PushBack int_default int_moved_from small_alloc
         (ref_slot (ptr_add (begin demo_vector) 2)) other' demo_heap
       = Ok (other1, h1) ∧
       elements h1 other1 = [3] ∧ elements h1 this' = [1; 2; 3]) ∧
    ∀ other2 h2,
      exec_all int_default int_moved_from small_alloc
        [m_PushBack false 5; m_Resize 2] other' demo_heap = Ok (other2, h2) →
      elements h2 this' = [1; 2; 3].
Proof.
  assert (wf demo_heap demo_vector) as Hwf
    by wf_by_computation [1; 2; 3; 0].
  assert (Forall size_t_args [m_PushBack false 5; m_Resize 2]) as Hargs
    by (repeat constructor; simpl; lia).
  split; [exact Hwf|].
  destruct (moved_from_source_is_reusable int_default int_moved_from
              small_alloc small_alloc_bound demo_heap demo_vector
              (ref_slot (ptr_add (begin demo_vector) 2)) 3
              [m_PushBack false 5; m_Resize 2] Hwf Hargs)
    as (this' & other' & Hrun & _ & _ & _ & He & Hpush & Hcalls).
  exists this', other'. split; [exact Hrun|]. split; [exact He|]. split.
  - destruct Hpush as (other1 & h1 & Hp & He1 & _ & Hkeep);
      [reflexivity|reflexivity|].
    exists other1, h1. split; [exact Hp|]. split; [exact He1|].
    exact Hkeep.
  - intros other2 h2 Hrun2. destruct (Hcalls other2 h2 Hrun2) as (_ & _ & Hk).
    exact Hk.
Defined.

(** X12: {1, 2} < {1, 2, 3} < {1, 2, 4} on integers. *)
Lemma op_lt_is_a_strict_order_witness :
  wf cmp_heap cmp_12 ∧ wf cmp_heap cmp_123 ∧ wf cmp_heap cmp_124 ∧
  (∀ x y, Z.ltb x y = true → Z.ltb y x = false) ∧
  (∀ x y z, Z.ltb x y = true → Z.ltb x z = true ∨ Z.ltb z y = true) ∧
  op_lt Z.ltb cmp_12 cmp_12 cmp_heap = Ok (false, cmp_heap) ∧
  op_lt Z.ltb cmp_123 cmp_12 cmp_heap = Ok (false, cmp_heap) ∧
  op_lt Z.ltb cmp_12 cmp_124 cmp_heap = Ok (true, cmp_heap).
Proof.
  assert (wf cmp_heap cmp_12) as H12 by wf_by_computation [1; 2; 3].
  assert (wf cmp_heap cmp_123) as H123 by wf_by_computation [1; 2; 3].
  assert (wf cmp_heap cmp_124) as H124 by wf_by_computation [1; 2; 4].
  assert (∀ x y, Z.ltb x y = true → Z.ltb y x = false) as Hasym
    by (intros x y; rewrite Z.ltb_lt, Z.ltb_ge; lia).
  assert (∀ x y z, Z.ltb x y = true → Z.ltb x z = true ∨ Z.ltb z y = true)
    as Hco by (intros x y z; rewrite !Z.ltb_lt; lia).
  split; [exact H12|]. split; [exact H123|]. split; [exact H124|].
  split; [exact Hasym|]. split; [exact Hco|].
  destruct (op_lt_is_a_strict_order Z.ltb cmp_heap cmp_12 cmp_123 cmp_124
              H12 H123 H124 Hasym Hco) as (Hirr & Hanti & Htrans & _).
  split; [exact Hirr|]. split.
  - apply Hanti. reflexivity.
  - apply Htrans; reflexivity.
Defined.

(** X13: a copy of {1, 2, 3} against its source, on integers. *)
Lemma copy_compares_equal_witness :
  wf demo_heap demo_vector ∧
  small_alloc (GetCapacity demo_vector) = true ∧
  ∃ copy h',
    SimpleVector_copy int_default small_alloc demo_vector demo_heap
    = Ok (copy, h') ∧
    op_eq Z.eqb copy demo_vector h' = Ok (true, h') ∧
    op_lt Z.ltb copy demo_vector h' = Ok (false, h').
Proof.
  assert (wf demo_heap demo_vector) as Hwf
    by wf_by_computation [1; 2; 3; 0].
  assert (small_alloc (GetCapacity demo_vector) = true) as Hc by reflexivity.
  split; [exact Hwf|]. split; [exact Hc|].
  destruct (copy_compares_equal int_default Z.eqb Z.ltb small_alloc demo_heap
              demo_vector Hwf Hc) as (copy & h' & Hrun & Heq & Hlt).
  exists copy, h'. split; [exact Hrun|]. split.
  - apply Heq. exact Z.eqb_refl.
  - apply Hlt. exact Z.ltb_irrefl.
Defined.

(** X14: with an allocator that refuses every block, {1, 2, 3} with
    capacity 4 takes an append, but an insert, a reserve of 8, a resize to
    8 and a copy throw. *)
Lemma bad_alloc_exactly_when_refused_witness :
  wf demo_heap demo_vector ∧ 0 <= 8 ∧ 0 <= 1 <= GetSize demo_vector ∧
  push_back_call int_default int_moved_from no_alloc (false, 9)
    demo_vector demo_heap ≠ Throw bad_alloc ∧
  Reserve int_default int_moved_from no_alloc 8 demo_vector demo_heap
  = Throw bad_alloc ∧
  Resize int_default int_moved_from no_alloc 8 demo_vector demo_heap
  = Throw bad_alloc ∧
  insert_call int_default int_moved_from no_alloc false
    (ptr_add (begin demo_vector) 1) 9 demo_vector demo_heap
  = Throw bad_alloc ∧
  SimpleVector_copy int_default no_alloc demo_vector demo_heap
  = Throw bad_alloc.
Proof.
  assert (wf demo_heap demo_vector) as Hwf
    by wf_by_computation [1; 2; 3; 0].
  assert (0 <= 8) as Hn by lia.
  assert (0 <= 1 <= GetSize demo_vector) as Hi by (simpl; lia).
  split; [exact Hwf|]. split; [exact Hn|]. split; [exact Hi|].
  destruct (bad_alloc_exactly_when_refused int_default int_moved_from
              no_alloc no_alloc_bound false demo_heap demo_vector 9 8 1
              Hwf Hn Hi) as (Hpush & Hres & Hrsz & Hins & Hcopy).
  split.
  { intros Hthrow. apply Hpush in Hthrow as [Hfull _]. discriminate Hfull. }
  split; [apply Hres; split; [simpl; lia|reflexivity]|].
  split; [apply Hrsz; split; [simpl; lia|reflexivity]|].
  split; [apply Hins; reflexivity|apply Hcopy; reflexivity].
Defined.

(** X15: [Reserve(8)] on {1, 2, 3} in block 1 releases block 1. *)
Lemma calls_neither_leak_nor_touch_other_blocks_witness :
  wf demo_heap demo_vector ∧
  ∃ v' h',
    exec int_default int_moved_from small_alloc (m_Reserve 8)
      demo_vector demo_heap = Ok (ret_void, v', h') ∧
    ∀ l, is_Some (h' !! l) ↔
         items_ v' = Some l
         ∨ (is_Some (demo_heap !! l) ∧ items_ demo_vector ≠ Some l).
Proof.
  assert (wf demo_heap demo_vector) as Hwf
    by wf_by_computation [1; 2; 3; 0].
  assert (∃ v' h', exec int_default int_moved_from small_alloc (m_Reserve 8)
                     demo_vector demo_heap = Ok (ret_void, v', h'))
    as (v' & h' & Hrun) by (eexists _, _; vm_compute; reflexivity).
  assert (@size_t_args Z (m_Reserve 8)) as Hargs by (simpl; lia).
  split; [exact Hwf|]. exists v', h'. split; [exact Hrun|].
  apply (calls_neither_leak_nor_touch_other_blocks int_default int_moved_from
           small_alloc small_alloc_bound (m_Reserve 8) demo_heap demo_vector
           ret_void v' h' Hwf Hargs Hrun).
Defined.

(** X16: two appends and a [Clear] on {1, 2, 3} with capacity 4. *)
Lemma capacity_never_decreases_witness :
  wf demo_heap demo_vector ∧
  ∃ v' h',
    exec_all int_default int_moved_from small_alloc
      [m_PushBack false 4; m_PushBack true 5; m_Clear] demo_vector demo_heap
    = Ok (v', h') ∧
    GetCapacity demo_vector <= GetCapacity v' ∧
    0 <= GetSize v' <= GetCapacity v'.
Proof.
  assert (wf demo_heap demo_vector) as Hwf
    by wf_by_computation [1; 2; 3; 0].
  assert (∃ v' h',
            exec_all int_default int_moved_from small_alloc
              [m_PushBack false 4; m_PushBack true 5; m_Clear]
              demo_vector demo_heap = Ok (v', h'))
    as (v' & h' & Hrun) by (eexists _, _; vm_compute; reflexivity).
  assert (Forall size_t_args [m_PushBack false 4; m_PushBack true 5; m_Clear])
    as Hargs by (repeat constructor).
  split; [exact Hwf|]. exists v', h'. split; [exact Hrun|].
  apply (capacity_never_decreases int_default int_moved_from small_alloc
           small_alloc_bound _ demo_heap demo_vector v' h' Hwf Hargs Hrun).
Defined.

(** X18: 9 inserted at the end of {1, 2, 3}, and 9 appended to it. *)
Lemma insert_at_end_is_push_back_witness :
  wf demo_heap demo_vector ∧
  small_alloc (insert_capacity demo_vector) = true ∧
  ∃ pos v1 h1 v2 h2,
    insert_call int_default int_moved_from small_alloc false
      (end_ demo_vector) 9 demo_vector demo_heap = Ok (pos, v1, h1) ∧
    push_back_call int_default int_moved_from small_alloc (false, 9)
      demo_vector demo_heap = Ok (v2, h2) ∧
    GetCapacity v1 = GetCapacity v2 ∧
    elements h1 v1 = [1; 2; 3; 9] ∧ elements h2 v2 = [1; 2; 3; 9].
Proof.
  assert (wf demo_heap demo_vector) as Hwf
    by wf_by_computation [1; 2; 3; 0].
  assert (small_alloc (insert_capacity demo_vector) = true) as Hc
    by reflexivity.
  split; [exact Hwf|]. split; [exact Hc|].
  destruct (insert_at_end_is_push_back int_default int_moved_from small_alloc
              small_alloc_bound false demo_heap demo_vector 9 Hwf Hc)
    as (pos & v1 & h1 & v2 & h2 & Hins & Hpush & _ & Hcap & He1 & He2).
  exists pos, v1, h1, v2, h2. split; [exact Hins|]. split; [exact Hpush|].
  split; [exact Hcap|]. split; [exact He1|exact He2].
Defined.

(** X19: 2 erased from {1, 2, 3} and inserted again. *)
Lemma erase_then_insert_restores_witness :
  wf demo_heap demo_vector ∧ 0 <= 1 < GetSize demo_vector ∧
  elements demo_heap demo_vector !! Z.to_nat 1 = Some 2 ∧
  small_alloc (GetCapacity demo_vector) = true ∧
  ∃ pos v1 h1 pos' v2 h2,
    Erase int_moved_from (ptr_add (begin demo_vector) 1) demo_vector demo_heap
    = Ok (pos, v1, h1) ∧
    insert_call int_default int_moved_from small_alloc true pos 2 v1 h1
    = Ok (pos', v2, h2) ∧
    GetSize v2 = 3 ∧ GetCapacity v2 = 4 ∧ elements h2 v2 = [1; 2; 3].
Proof.
  assert (wf demo_heap demo_vector) as Hwf
    by wf_by_computation [1; 2; 3; 0].
  assert (0 <= 1 < GetSize demo_vector) as Hi by (simpl; lia).
  assert (elements demo_heap demo_vector !! Z.to_nat 1 = Some 2) as Hx
    by reflexivity.
  assert (small_alloc (GetCapacity demo_vector) = true) as Hc by reflexivity.
  split; [exact Hwf|]. split; [exact Hi|]. split; [exact Hx|].
  split; [exact Hc|].
  destruct (erase_then_insert_restores int_default int_moved_from small_alloc
              small_alloc_bound true demo_heap demo_vector 1 2 Hwf Hi Hx Hc)
    as (pos & v1 & h1 & pos' & v2 & h2 & Her & Hins & Hs & Hcap & He).
  exists pos, v1, h1, pos', v2, h2. split; [exact Her|]. split; [exact Hins|].
  split; [exact Hs|]. split; [exact Hcap|exact He].
Defined.

(** X20: the last of {1, 2, 3} popped, and erased. *)
Lemma pop_back_is_erase_of_last_witness :
  wf demo_heap demo_vector ∧ 0 < GetSize demo_vector ∧
  ∃ v1 pos h2,
    PopBack demo_vector demo_heap = Ok (v1, demo_heap) ∧
    Erase int_moved_from (ptr_add (begin demo_vector) 2) demo_vector demo_heap
    = Ok (pos, v1, h2) ∧
    pos = end_ v1 ∧ elements h2 v1 = [1; 2] ∧ elements demo_heap v1 = [1; 2].
Proof.
  assert (wf demo_heap demo_vector) as Hwf
    by wf_by_computation [1; 2; 3; 0].
  assert (0 < GetSize demo_vector) as Hs by (simpl; lia).
  split; [exact Hwf|]. split; [exact Hs|].
  destruct (pop_back_is_erase_of_last int_moved_from demo_heap demo_vector
              Hwf Hs) as (v1 & pos & h2 & Hpop & Her & Hpos & He2 & He1).
  exists v1, pos, h2. split; [exact Hpop|]. split; [exact Her|].
  split; [exact Hpos|]. split; [rewrite He2; exact He1|exact He1].
Defined.

(** X21: {20, 30} copy-assigned to the object that held {10} in block 1. *)
Lemma copy_assignment_releases_the_old_block_witness :
  wf two_heap two_source ∧ wf two_heap two_target ∧
  separate two_target two_source ∧
  (∃ objs' h1 this',
     copy_assign int_default small_alloc 1%positive 2%positive two_objects
       two_heap = Ok (objs', h1) ∧
     objs' !! 1%positive = Some this' ∧ h1 !! 1%positive = None) ∧
  copy_assign int_default no_alloc 1%positive 2%positive two_objects two_heap
  = Throw bad_alloc.
Proof.
  assert (wf two_heap two_source) as Hwf by wf_by_computation [20; 30].
  assert (wf two_heap two_target) as Hwft by wf_by_computation [10].
  assert (separate two_target two_source) as Hsep.
  { intros l Hl Ho. injection Hl as <-. discriminate Ho. }
  assert (1%positive ≠ 2%positive) as Hne by discriminate.
  assert (two_objects !! 1%positive = Some two_target) as Ht by reflexivity.
  assert (two_objects !! 2%positive = Some two_source) as Hs by reflexivity.
  split; [exact Hwf|]. split; [exact Hwft|]. split; [exact Hsep|]. split.
  - destruct (copy_assignment_releases_the_old_block int_default small_alloc
                two_heap two_objects 1%positive 2%positive two_target
                two_source Hwf Hwft Hne Ht Hs Hsep) as [Hok _].
    destruct Hok as (objs' & h1 & this' & Hrun & Hl & _ & _ & Hold & _);
      [reflexivity|].
    exists objs', h1, this'. split; [exact Hrun|]. split; [exact Hl|].
    apply Hold. reflexivity.
  - apply (copy_assignment_releases_the_old_block int_default no_alloc
             two_heap two_objects 1%positive 2%positive two_target
             two_source Hwf Hwft Hne Ht Hs Hsep).
    reflexivity.
Defined.

(** X22: {1, 2, 3} in two blocks, on integers. *)
Lemma equality_is_transitive_and_excludes_order_witness :
  wf same_heap demo_vector ∧ wf same_heap same_copy ∧
  op_eq Z.eqb demo_vector same_copy same_heap = Ok (true, same_heap) ∧
  op_eq Z.eqb demo_vector demo_vector same_heap = Ok (true, same_heap) ∧
  op_lt Z.ltb demo_vector same_copy same_heap = Ok (false, same_heap) ∧
  op_le Z.ltb demo_vector same_copy same_heap = Ok (true, same_heap).
Proof.
  assert (wf same_heap demo_vector) as Ha by wf_by_computation [1; 2; 3; 0].
  assert (wf same_heap same_copy) as Hb by wf_by_computation [1; 2; 3].
  assert (op_eq Z.eqb demo_vector same_copy same_heap = Ok (true, same_heap))
    as Hab by reflexivity.
  split; [exact Ha|]. split; [exact Hb|]. split; [exact Hab|].
  destruct (equality_is_transitive_and_excludes_order Z.eqb Z.ltb same_heap
              demo_vector same_copy demo_vector Ha Hb Ha Hab)
    as (Htrans & Hord).
  split.
  - apply Htrans; [|reflexivity].
    intros x y z Hxy Hyz. apply Z.eqb_eq in Hxy, Hyz. apply Z.eqb_eq. lia.
  - destruct Hord as (Hlt & _ & Hle & _); [|split; [exact Hlt|exact Hle]].
    intros x y Hxy. apply Z.eqb_eq in Hxy. rewrite !Z.ltb_ge. lia.
Defined.

(** X23: {10} and {20, 30} move-assigned, and assigned back. *)
Lemma move_assignment_twice_restores_witness :
  (1%positive ≠ 2%positive) ∧
  ∃ objs1,
    move_assign 1%positive 2%positive two_objects two_heap
    = Ok (objs1, two_heap) ∧
    objs1 !! 1%positive = Some two_source ∧
    objs1 !! 2%positive = Some two_target ∧
    move_assign 2%positive 1%positive objs1 two_heap
    = Ok (two_objects, two_heap).
Proof.
  assert (1%positive ≠ 2%positive) as Hne by discriminate.
  assert (two_objects !! 1%positive = Some two_target) as Ht by reflexivity.
  assert (two_objects !! 2%positive = Some two_source) as Hs by reflexivity.
  split; [exact Hne|].
  destruct (move_assignment_twice_restores two_heap two_objects 1%positive
              2%positive two_target two_source Hne Ht Hs)
    as (objs1 & Hrun & Ht1 & Hs1 & _ & Hback).
  exists objs1. split; [exact Hrun|]. split; [exact Ht1|].
  split; [exact Hs1|exact Hback].
Defined.

(** X24: on handles.  The only element of the full container {7},
    inserted at its end as an rvalue, gives {7, null}, where the copy
    overload gives {7, 7}; the first element of {7} with room for two
    more, appended as an rvalue, gives {null, 7}. *)
Lemma rvalue_of_own_element_witness :
  wf stale_heap stale_pushed ∧
  wf (slots_heap [Some 7; None; None]) (slots_vector 1) ∧
  (∃ pos v' h',
     Insert_move handle_default handle_moved_from small_alloc
       (ptr_add (begin stale_pushed) 1)
       (ref_slot (ptr_add (begin stale_pushed) 0)) stale_pushed stale_heap
     = Ok (pos, v', h') ∧
     elements h' v' = [Some 7; None] ∧ load pos h' = Ok (None, h')) ∧
  (∃ pos v' h',
     Insert handle_default small_alloc (ptr_add (begin stale_pushed) 1)
       (ref_slot (ptr_add (begin stale_pushed) 0)) stale_pushed stale_heap
     = Ok (pos, v', h') ∧
     elements h' v' = [Some 7; Some 7]) ∧
  (∃ v' h',
     PushBack_move handle_default handle_moved_from small_alloc
       (ref_slot (ptr_add (begin (slots_vector 1)) 0)) (slots_vector 1)
       (slots_heap [Some 7; None; None])
     = Ok ((v', ref_slot (ptr_add (begin (slots_vector 1)) 0)), h') ∧
     elements h' v' = [None; Some 7]).
Proof.
  assert (wf stale_heap stale_pushed) as Hwf by wf_by_computation [Some 7].
  assert (wf (slots_heap [Some 7; None; None]) (slots_vector 1)) as Hwf'
    by wf_by_computation [Some 7; None; None].
  split; [exact Hwf|]. split; [exact Hwf'|].
  destruct (rvalue_of_own_element handle_default handle_moved_from
              small_alloc small_alloc_bound stale_heap stale_pushed 1 0
              (Some 7) Hwf) as (_ & Hins & _);
    [simpl; lia|reflexivity|].
  destruct Hins as (Hmove & Hcopy); [simpl; lia|reflexivity|].
  destruct (rvalue_of_own_element handle_default handle_moved_from
              small_alloc small_alloc_bound (slots_heap [Some 7; None; None])
              (slots_vector 1) 1 0 (Some 7) Hwf') as (Hpush & _ & _);
    [simpl; lia|reflexivity|].
  split; [|split].
  - destruct Hmove as (pos & v' & h' & Hrun & _ & He & Hload).
    exists pos, v', h'. split; [exact Hrun|]. split; [exact He|exact Hload].
  - destruct Hcopy as (pos & v' & h' & Hrun & He & _).
    exists pos, v', h'. split; [exact Hrun|exact He].
  - destruct Hpush as (v' & h' & Hrun & _ & He); [simpl; lia|].
    exists v', h'. split; [exact Hrun|exact He].
Defined.

(** C1 fails on the code: the first element of the full container
    {1, 2, 3} appended to it, by either overload, is read in a released
    block; with capacity 4 the same call gives {1, 2, 3, 1}, and so does
    [Insert(end(), v[0])] on the full container. *)
Lemma push_back_of_own_element_reads_released_block_witness :
  wf cmp_heap cmp_123 ∧ wf demo_heap demo_vector ∧
  GetSize cmp_123 = GetCapacity cmp_123 ∧
  PushBack int_default int_moved_from small_alloc
    (ref_slot (ptr_add (begin cmp_123) 0)) cmp_123 cmp_heap = Undefined ∧
  PushBack_move int_default int_moved_from small_alloc
    (ref_slot (ptr_add (begin cmp_123) 0)) cmp_123 cmp_heap = Undefined ∧
  (∃ pos v' h',
     Insert int_default small_alloc (end_ cmp_123)
       (ref_slot (ptr_add (begin cmp_123) 0)) cmp_123 cmp_heap
     = Ok (pos, v', h') ∧
     GetSize v' = 4 ∧ GetCapacity v' = 6 ∧ elements h' v' = [1; 2; 3; 1]) ∧
  (∃ v' h',
     PushBack int_default int_moved_from small_alloc
       (ref_slot (ptr_add (begin demo_vector) 0)) demo_vector demo_heap
     = Ok (v', h') ∧
     GetSize v' = 4 ∧ GetCapacity v' = 4 ∧ elements h' v' = [1; 2; 3; 1]).
Proof.
  assert (wf cmp_heap cmp_123) as Hfull by wf_by_computation [1; 2; 3].
  assert (wf demo_heap demo_vector) as Hroom
    by wf_by_computation [1; 2; 3; 0].
  assert (GetSize cmp_123 = GetCapacity cmp_123) as Heq by reflexivity.
  split; [exact Hfull|]. split; [exact Hroom|]. split; [exact Heq|].
  destruct (push_back_of_own_element_reads_released_block int_default
              int_moved_from small_alloc small_alloc_bound cmp_heap cmp_123
              0 1 Hfull) as (Hbug & _ & Hinsert);
    [simpl; lia|reflexivity|].
  destruct (Hbug Heq) as (Hcopy & Hmove); [reflexivity|].
  destruct (push_back_of_own_element_reads_released_block int_default
              int_moved_from small_alloc small_alloc_bound demo_heap
              demo_vector 0 1 Hroom) as (_ & Hplace & _);
    [simpl; lia|reflexivity|].
  split; [exact Hcopy|]. split; [exact Hmove|]. split.
  - destruct Hinsert as (pos & v' & h' & Hrun & Hs & Hc & He); [reflexivity|].
    exists pos, v', h'. split; [exact Hrun|]. split; [exact Hs|].
    split; [exact Hc|exact He].
  - destruct Hplace as (v' & h' & Hrun & Hs & Hc & He); [simpl; lia|].
    exists v', h'. split; [exact Hrun|]. split; [exact Hs|].
    split; [exact Hc|exact He].
Defined.
